(** * qflow: Variational Monte Carlo solver (vmcsolver.cpp)

    A shallow embedding of [VMC::VMCSolver]: the pairwise distance cache,
    the trial wavefunction, the numeric and the analytic local energy, the
    Metropolis loop [run_MC] and the variational sweep [vmc].

    The C++ code computes on [double].  The embedding is written once, over an
    interface [Double] of the arithmetic the code uses, and is instantiated
    twice: with Rocq's primitive binary64 floats (what the machine computes)
    and with the real numbers (the arithmetic in which a finite-difference
    truncation error is defined).  The functions of the C++ standard library
    and of Armadillo that the solver calls ([std::exp], [arma::dot],
    [arma::norm], [arma::linspace], the random engine) are interfaces as
    well: their code is not part of the repository. *)

From Stdlib Require Import ZArith Floats Uint63 Reals Lra Lia.
From stdpp Require Import base list strings.

(** ** The arithmetic of [double] *)

Class Double (D : Type) := {
  d_of_int : Z -> D;          (* implicit conversion int -> double *)
  d_to_int : D -> Z;          (* conversion double -> int: truncation *)
  dadd : D -> D -> D;
  dsub : D -> D -> D;
  dmul : D -> D -> D;
  ddiv : D -> D -> D;
  dopp : D -> D;
  dle : D -> D -> bool;       (* operator<= *)
  dlt : D -> D -> bool;       (* operator<  *)
  d_max : D;                  (* std::numeric_limits<double>::max() *)
}.

Declare Scope dbl_scope.
Delimit Scope dbl_scope with D.
Notation "x + y" := (dadd x y) : dbl_scope.
Notation "x - y" := (dsub x y) : dbl_scope.
Notation "x * y" := (dmul x y) : dbl_scope.
Notation "x / y" := (ddiv x y) : dbl_scope.
Notation "- x" := (dopp x) : dbl_scope.
Notation "x <=? y" := (dle x y) : dbl_scope.
Notation "x <? y" := (dlt x y) : dbl_scope.

(** The literals of the source. [0.5] is the quotient [1 / 2], which is exact
    in binary64 as it is in the reals. *)
Definition d0 `{Double D} : D := d_of_int 0.
Definition d1 `{Double D} : D := d_of_int 1.
Definition d2 `{Double D} : D := d_of_int 2.
Definition d4 `{Double D} : D := d_of_int 4.
Definition d_half `{Double D} : D := (d1 / d2)%D.

(** What the sweep needs of the comparisons.  A value is a number when it
    compares with itself; in binary64 that is every value but NaN. *)
Class DoubleOrder (D : Type) `{Double D} : Prop := {
  dle_trans : forall x y z : D,
    (x <=? y)%D = true -> (y <=? z)%D = true -> (x <=? z)%D = true;
  dlt_dle : forall x y : D, (x <? y)%D = true -> (x <=? y)%D = true;
  dlt_number : forall x y : D, (x <? y)%D = true -> (x <=? x)%D = true;
  dle_total : forall x y : D,
    (x <=? x)%D = true -> (y <=? y)%D = true ->
    (x <? y)%D = false -> (y <=? x)%D = true;
  d_max_number : (d_max <=? d_max)%D = true;
}.

(** The library functions the solver calls. *)
Class MathLib (D : Type) := {
  std_exp : D -> D;                       (* std::exp *)
  arma_dot : list D -> list D -> D;       (* arma::dot *)
  arma_norm : list D -> D;                (* arma::norm, the 2-norm *)
  arma_linspace : D -> D -> D -> list D;  (* arma::linspace<arma::vec> *)
}.

(** The process-wide engine [rand_gen] and the distributions [unif(0, 1)] and
    [centered(-0.5, 0.5)] drawn from it: a draw returns a value and the next
    state of the engine. *)
Class RandomEngine (D : Type) `{Double D} := {
  rand_gen_t : Type;
  unif : rand_gen_t -> D * rand_gen_t;
  centered : rand_gen_t -> D * rand_gen_t;
  (* std::uniform_real_distribution<double>(a, b) draws from [a, b) *)
  unif_range : forall g,
    (d0 <=? fst (unif g))%D = true /\ (fst (unif g) <? d1)%D = true;
  centered_range : forall g,
    (- d_half <=? fst (centered g))%D = true /\ (fst (centered g) <? d_half)%D = true;
}.

(** ** Loops *)

(** [for (int i = lo; i < hi; ++i) body], threading the variables the body
    assigns. *)
Definition for_range {S : Type} (lo hi : nat) (body : nat -> S -> S) (s : S) : S :=
  fold_left (fun s i => body i s) (seq lo (hi - lo)) s.

(** The same loop when its body may [return]. *)
Inductive flow (S R : Type) : Type :=
  | Continue (s : S)
  | Return (r : R).
Arguments Continue {S R} s.
Arguments Return {S R} r.

Fixpoint for_each_ret {A S R : Type} (l : list A) (body : A -> S -> flow S R)
    (s : S) : flow S R :=
  match l with
  | [] => Continue s
  | i :: l' =>
      match body i s with
      | Continue s' => for_each_ret l' body s'
      | Return r => Return r
      end
  end.

Definition for_range_ret {S R : Type} (lo hi : nat) (body : nat -> S -> flow S R)
    (s : S) : flow S R :=
  for_each_ret (seq lo (hi - lo)) body s.

(** ** Matrices and vectors (arma::mat, arma::vec)

    A matrix is the list of its columns, as Armadillo stores it (column
    major).  Armadillo checks the bounds of [M(r, c)] and raises
    [std::logic_error] outside the matrix; the loops of the solver range over
    the dimensions the matrices were built with, and the accessors here are
    total: a read outside the matrix gives zero and a write there changes
    nothing. *)

Abbreviation vec D := (list D) (only parsing).
Abbreviation mat D := (list (list D)) (only parsing).

Section Matrix.
Context {D : Type} `{!Double D}.

Definition zeros_vec (n_elem : nat) : vec D := replicate n_elem d0.

Definition zeros (n_rows n_cols : nat) : mat D :=
  replicate n_cols (zeros_vec n_rows).

(* M.col(c) *)
Definition col (M : mat D) (c : nat) : vec D := default [] (M !! c).

(* v(r) *)
Definition vget (v : vec D) (r : nat) : D := default d0 (v !! r).

(* M(r, c) read *)
Definition mget (M : mat D) (r c : nat) : D := vget (col M c) r.

(* M(r, c) = v *)
Definition mset (M : mat D) (r c : nat) (v : D) : mat D :=
  alter (fun column => <[r := v]> column) c M.

(* element-wise a - b, a + b and a * s *)
Definition vsub (a b : vec D) : vec D := zip_with dsub a b.
Definition vadd (a b : vec D) : vec D := zip_with dadd a b.
Definition vscale (a : vec D) (s : D) : vec D := (fun x => (x * s)%D) <$> a.

(** [M] has [n_rows] rows and [n_cols] columns. *)
Definition has_shape (n_rows n_cols : nat) (M : mat D) : Prop :=
  length M = n_cols /\ Forall (fun column => length column = n_rows) M.

End Matrix.

(** ** Configuration and results (definitions.hpp, vmcsolver.hpp)

    The two headers are not among the sources.  The enumerations and the
    fields of [VMCConfiguration] are the ones vmcsolver.cpp reads and main.cpp
    sets; [Results] has the six fields [run_MC] fills, in its order: the first
    three are named in [vmc], the last three are named here after the values
    stored in them.  [n_particles] is an [int] in C++; a negative count has
    no matrix. *)

Inductive HOType := SYMMETRIC | ELLIPTICAL.

Module InteractionType.
Inductive t := ON | OFF.
End InteractionType.

Module AnalyticAcceleration.
Inductive t := ON | OFF.
End AnalyticAcceleration.

(** Modelled from the spec: the enumeration [Dimensions] is declared in a
    header that is not among the sources; the dimensionality is one of 1, 2
    and 3, and the code uses a [Dimensions] as that integer. *)
Inductive Dimensions := DIM_1 | DIM_2 | DIM_3.

Definition dims_int (d : Dimensions) : nat :=
  match d with DIM_1 => 1 | DIM_2 => 2 | DIM_3 => 3 end.

Module config.
Record VMCConfiguration (D : Type) := {
  ho_type : HOType;
  interaction : InteractionType.t;
  acceleration : AnalyticAcceleration.t;
  dims : Dimensions;
  n_particles : nat;
  omega_ho : D;
  omega_z : D;
  a : D;
  h : D;
  h2 : D;
  step_length : D;
  time_step : D;
}.
Arguments ho_type {D}.
Arguments interaction {D}.
Arguments acceleration {D}.
Arguments dims {D}.
Arguments n_particles {D}.
Arguments omega_ho {D}.
Arguments omega_z {D}.
Arguments a {D}.
Arguments h {D}.
Arguments h2 {D}.
Arguments step_length {D}.
Arguments time_step {D}.
End config.
Abbreviation VMCConfiguration := config.VMCConfiguration.

Module res.
Record Results (D : Type) := {
  E : D;
  E2 : D;
  variance : D;
  alpha : D;
  beta : D;
  acceptance_rate : D;
}.
Arguments E {D}.
Arguments E2 {D}.
Arguments variance {D}.
Arguments alpha {D}.
Arguments beta {D}.
Arguments acceptance_rate {D}.
End res.
Abbreviation Results := res.Results.

(** ** The solver (vmcsolver.cpp) *)

Section Solver.
Context {D : Type} `{!Double D, !MathLib D, !RandomEngine D}.

(** The members of [VMCSolver] that the code reads.  The members [R_old] and
    [R_new] are left out: the constructor fills them with zeros and nothing
    reads them, [run_MC] declares locals of the same names. *)
Record VMCSolver := {
  _config : VMCConfiguration D;
  _alpha : D;
  _beta : D;
  dist : mat D;
}.

Definition set_dist (self : VMCSolver) (dist' : mat D) : VMCSolver :=
  {| _config := _config self; _alpha := _alpha self; _beta := _beta self;
     dist := dist' |}.

Definition set_alpha (self : VMCSolver) (alpha : D) : VMCSolver :=
  {| _config := _config self; _alpha := alpha; _beta := _beta self;
     dist := dist self |}.

Definition set_beta (self : VMCSolver) (beta : D) : VMCSolver :=
  {| _config := _config self; _alpha := _alpha self; _beta := beta;
     dist := dist self |}.

(** The constructor.  It leaves [_alpha] and [_beta] unset; [alpha0] and
    [beta0] stand for whatever they hold until [vmc] assigns them. *)
Definition VMCSolver_new (config : VMCConfiguration D) (alpha0 beta0 : D) : VMCSolver :=
  {| _config := config; _alpha := alpha0; _beta := beta0;
     dist := zeros (config.n_particles config) (config.n_particles config) |}.

Definition n_of (self : VMCSolver) : nat := config.n_particles (_config self).
Definition dims_of (self : VMCSolver) : nat := dims_int (config.dims (_config self)).

(** *** Distance cache *)

Definition initialize_distance_matrix (self : VMCSolver) (R : mat D) : VMCSolver :=
  set_dist self
    (for_range 0 (n_of self) (fun i dist =>
       for_range (i + 1) (n_of self) (fun j dist =>
         mset dist i j (arma_norm (vsub (col R i) (col R j))))
       dist)
     (dist self)).

Definition update_distance_matrix (self : VMCSolver) (particle : nat) (R : mat D)
    : VMCSolver :=
  (* Update row particle. *)
  let dist1 :=
    for_range (particle + 1) (n_of self) (fun other dist =>
      mset dist particle other (arma_norm (vsub (col R particle) (col R other))))
    (dist self) in
  (* Update col particle. *)
  let dist2 :=
    for_range 0 particle (fun other dist =>
      mset dist other particle (arma_norm (vsub (col R other) (col R particle))))
    dist1 in
  set_dist self dist2.

(** The read of [E_local]: [dist(std::min(k, j), std::max(k, j))]. *)
Definition dist_min_max (self : VMCSolver) (k j : nat) : D :=
  mget (dist self) (Nat.min k j) (Nat.max k j).

(** *** Potentials *)

Definition V_ext (self : VMCSolver) (R : mat D) : D :=
  let c := _config self in
  let pot :=
    for_range 0 (n_of self) (fun i pot =>
      match config.ho_type c, config.dims c with
      | ELLIPTICAL, DIM_3 =>
          (pot + (config.omega_ho c * (mget R 0 i * mget R 0 i + mget R 1 i * mget R 1 i)
                  + config.omega_z c * mget R 2 i * mget R 2 i))%D
      | _, _ =>
          (pot + config.omega_ho c * arma_dot (col R i) (col R i))%D
      end) d0 in
  (d_half * pot)%D.

Definition V_int (self : VMCSolver) : D :=
  match config.interaction (_config self) with
  | InteractionType.OFF => d0
  | InteractionType.ON =>
      match
        for_range_ret 0 (n_of self) (fun i _ =>
          for_range_ret (i + 1) (n_of self) (fun j _ =>
            if (mget (dist self) i j <=? config.a (_config self))%D
            then Return d_max
            else Continue tt) tt) tt
      with
      | Return r => r
      | Continue _ => d0
      end
  end.

(** *** Trial wavefunction *)

Definition Psi_f (self : VMCSolver) : D :=
  match config.interaction (_config self) with
  | InteractionType.OFF => d1
  | InteractionType.ON =>
      match
        for_range_ret 0 (n_of self) (fun i f =>
          for_range_ret (i + 1) (n_of self) (fun j f =>
            let r_ij := mget (dist self) i j in
            if (r_ij <=? config.a (_config self))%D
            then Return d0
            else Continue (f * (d1 - config.a (_config self) / r_ij))%D) f) d1
      with
      | Return r => r
      | Continue f => f
      end
  end.

Definition Psi_g (self : VMCSolver) (R : mat D) : D :=
  let g := for_range 0 (n_of self) (fun i g =>
             (g + arma_dot (col R i) (col R i))%D) d0 in
  std_exp (- _alpha self * g)%D.

Definition Psi (self : VMCSolver) (R : mat D) : D :=
  (Psi_g self R * Psi_f self)%D.

(** *** Local energy *)

(** [if (_config.interaction == InteractionType::ON) update_distance_matrix(i, R);] *)
Definition update_if_interacting (self : VMCSolver) (i : nat) (R : mat D) : VMCSolver :=
  match config.interaction (_config self) with
  | InteractionType.ON => update_distance_matrix self i R
  | InteractionType.OFF => self
  end.

(** [E_kinetic] takes [R] by reference and writes to it and to [dist]: it
    returns its value, the solver and [R] as it leaves them. *)
Definition E_kinetic (self : VMCSolver) (R : mat D) : D * VMCSolver * mat D :=
  let c := _config self in
  let n := config.n_particles c in
  let dims := dims_int (config.dims c) in
  let Ek := (d_of_int (-2 * (Z.of_nat n * Z.of_nat dims)) * Psi self R)%D in
  let '(Ek, self, R) :=
    for_range 0 n (fun i st =>
      for_range 0 dims (fun d '(Ek, self, R) =>
        let temp := mget R d i in
        let R := mset R d i (temp + config.h c)%D in
        let self := update_if_interacting self i R in
        let Ek := (Ek + Psi self R)%D in      (* Psi(R + h) *)
        let R := mset R d i (temp - config.h c)%D in
        let self := update_if_interacting self i R in
        let Ek := (Ek + Psi self R)%D in      (* Psi(R - h) *)
        (* Reset distance. *)
        let R := mset R d i temp in
        let self := update_if_interacting self i R in
        (Ek, self, R)) st)
    (Ek, self, R) in
  ((- d_half * Ek * config.h2 c)%D, self, R).

(** [r_k_skewed(2) *= _beta] *)
Definition skew (beta : D) (r_k : vec D) : vec D :=
  <[2 := (vget r_k 2 * beta)%D]> r_k.

(** [const int one_body_beta_term]: the conditional expression has type
    [double], and its negation is converted to [int]. *)
Definition one_body_beta_term (self : VMCSolver) : Z :=
  d_to_int (- (match config.dims (_config self) with
               | DIM_3 => d2 + _beta self
               | d => d_of_int (Z.of_nat (dims_int d))
               end))%D.

(** The operands of [E_kinetic(R) / Psi(R) + V_ext(R) + V_int()] are evaluated
    from left to right.  [arma::vec term(dims)] starts from zeros. *)
Definition E_local (self : VMCSolver) (R : mat D) : D * VMCSolver * mat D :=
  let c := _config self in
  let n := config.n_particles c in
  let a := config.a c in
  match config.acceleration c with
  | AnalyticAcceleration.OFF =>
      let '(Ek, self, R) := E_kinetic self R in
      ((Ek / Psi self R + V_ext self R + V_int self)%D, self, R)
  | AnalyticAcceleration.ON =>
      let E_L :=
        for_range 0 n (fun k E_L =>
          let r_k := col R k in
          let r_k_skewed :=
            match config.dims c with DIM_3 => skew (_beta self) r_k | _ => r_k end in
          (* First term, no interaction. *)
          let E_L :=
            (E_L + d2 * _alpha self
                   * (d2 * _alpha self * arma_dot r_k_skewed r_k_skewed
                      + d_of_int (one_body_beta_term self)))%D in
          match config.interaction c with
          | InteractionType.OFF => E_L
          | InteractionType.ON =>
              let '(term, E_L) :=
                for_range 0 n (fun j '(term, E_L) =>
                  if (j =? k)%nat then (term, E_L) else
                  let r_kj := vsub r_k (col R j) in
                  let r_kj_norm := dist_min_max self k j in
                  let r_kj_2 := (r_kj_norm * r_kj_norm)%D in
                  let term := vadd term (vscale r_kj (a / (r_kj_2 * (r_kj_norm - a)))%D) in
                  let E_L :=
                    (E_L + (a * (a - d2 * r_kj_norm)
                              / (r_kj_2 * (r_kj_norm - a) * (r_kj_norm - a))
                            + d2 * a / (r_kj_2 * (r_kj_norm - a))))%D in
                  let E_L :=
                    for_range 0 n (fun i E_L =>
                      if (i =? k)%nat then E_L else
                      let r_ki := vsub r_k (col R i) in
                      let r_ki_norm := dist_min_max self k i in
                      let r_ki_2 := (r_ki_norm * r_ki_norm)%D in
                      (E_L + arma_dot r_ki r_kj
                             * (a * a / (r_ki_2 * r_kj_2 * (r_ki_norm - a)
                                         * (r_kj_norm - a))))%D) E_L in
                  (term, E_L))
                (zeros_vec (dims_int (config.dims c)), E_L) in
              (E_L - d4 * _alpha self * arma_dot r_k_skewed term)%D
          end) d0 in
      ((V_ext self R + V_int self - d_half * E_L)%D, self, R)
  end.

(** *** The Metropolis walk *)

(** The variables of [run_MC] that live across the moves. *)
Record MCState := {
  solver : VMCSolver;
  R_old : mat D;
  R_new : mat D;
  E_sum : D;
  E2_sum : D;
  accepted_moves : Z;
  rand_gen : rand_gen_t;
}.

(** Lines 190-194: the random starting point, [R_old(d, i) = R_new(d, i) = ...]. *)
Definition random_start (c : VMCConfiguration D) (g : rand_gen_t)
    : mat D * mat D * rand_gen_t :=
  let n := config.n_particles c in
  let dims := dims_int (config.dims c) in
  for_range 0 n (fun i st =>
    for_range 0 dims (fun d '(R_old, R_new, g) =>
      let '(x, g) := centered g in
      let v := (config.step_length c * x)%D in
      (mset R_old d i v, mset R_new d i v, g)) st)
  (zeros dims n, zeros dims n, g).

(** Lines 203-205: move particle [i] slightly. *)
Definition propose (c : VMCConfiguration D) (i : nat) (R_old R_new : mat D)
    (g : rand_gen_t) : mat D * rand_gen_t :=
  for_range 0 (dims_int (config.dims c)) (fun d '(R_new, g) =>
    let '(x, g) := centered g in
    (mset R_new d i (mget R_old d i + config.step_length c * x)%D, g))
  (R_new, g).

(** [for (d ...) dst(d, i) = src(d, i)]: lines 216-218 and 223-225. *)
Definition copy_particle (c : VMCConfiguration D) (i : nat) (src dst : mat D) : mat D :=
  for_range 0 (dims_int (config.dims c)) (fun d dst => mset dst d i (mget src d i)) dst.

(** The right-hand side of the test of line 212. *)
Definition acceptance_ratio (Psi_new Psi_old : D) : D :=
  ((Psi_new * Psi_new) / (Psi_old * Psi_old))%D.

(** Lines 202-231: the body of the loop over the particles. *)
Definition metropolis_move (i : nat) (st : D * MCState) : D * MCState :=
  let '(Psi_old, s) := st in
  let c := _config (solver s) in
  let '(R_new, g) := propose c i (R_old s) (R_new s) (rand_gen s) in
  let self := update_distance_matrix (solver s) i R_new in
  let Psi_new := Psi self R_new in
  let '(u, g) := unif g in
  (* New move accepted? *)
  let '(Psi_old, self, R_old, R_new, accepted) :=
    if (u <=? acceptance_ratio Psi_new Psi_old)%D
    then (Psi_new, self, copy_particle c i R_new (R_old s), R_new,
          (accepted_moves s + 1)%Z)
    else
      let self := update_distance_matrix self i (R_old s) in
      (Psi_old, self, R_old s, copy_particle c i (R_old s) R_new, accepted_moves s) in
  (* Update averages. *)
  let '(E, self, R_new) := E_local self R_new in
  (Psi_old,
   {| solver := self; R_old := R_old; R_new := R_new;
      E_sum := (E_sum s + E)%D; E2_sum := (E2_sum s + E * E)%D;
      accepted_moves := accepted; rand_gen := g |}).

(** Lines 200-233: one cycle. *)
Definition mc_cycle (s : MCState) : MCState :=
  let Psi_old := Psi (solver s) (R_old s) in
  snd (for_range 0 (n_of (solver s)) metropolis_move (Psi_old, s)).

(** Lines 185-198: the state before the first cycle. *)
Definition mc_start (self : VMCSolver) (g : rand_gen_t) : MCState :=
  let '(R_old, R_new, g) := random_start (_config self) g in
  {| solver := initialize_distance_matrix self R_old;
     R_old := R_old; R_new := R_new;
     E_sum := d0; E2_sum := d0; accepted_moves := 0; rand_gen := g |}.

(** [for (int cycle = 1; cycle <= n_cycles; ++cycle)] *)
Definition mc_walk (n_cycles : Z) (s : MCState) : MCState :=
  for_range 1 (Z.to_nat n_cycles + 1) (fun _ s => mc_cycle s) s.

(** Lines 234-238.  The product [n_cycles * n_particles] of two [int] is
    taken in [Z]: beyond 2^31 - 1 it overflows in C++, which is undefined. *)
Definition mc_results (n_cycles : Z) (s : MCState) : Results D :=
  let self := solver s in
  let attempted := (n_cycles * Z.of_nat (n_of self))%Z in
  let energy := (E_sum s / d_of_int attempted)%D in
  let energy_squared := (E2_sum s / d_of_int attempted)%D in
  let variance := (energy_squared - energy * energy)%D in
  let acceptance_rate := (d_of_int (accepted_moves s) / d_of_int attempted)%D in
  {| res.E := energy; res.E2 := energy_squared; res.variance := variance;
     res.alpha := _alpha self; res.beta := _beta self;
     res.acceptance_rate := acceptance_rate |}.

(** [run_MC] returns the results; it leaves its mark on the solver ([dist])
    and on the engine. *)
Definition run_MC (self : VMCSolver) (n_cycles : Z) (g : rand_gen_t)
    : Results D * VMCSolver * rand_gen_t :=
  let s := mc_walk n_cycles (mc_start self g) in
  (mc_results n_cycles s, solver s, rand_gen s).

(** *** The variational sweep *)

(** What is sent to the stream [out], in order. *)
Inductive out_item :=
  | OutText (s : string)      (* out << "..." *)
  | OutDouble (x : D)         (* out << x, a double *)
  | OutFlush.                 (* out << std::flush *)

Definition newline : string := String (Ascii.ascii_of_nat 10) EmptyString.
Definition header : string := "# alpha beta <E> <E^2>" +:+ newline.

(** The variables of [vmc] that live across the grid. *)
Record SweepState := {
  sweep_solver : VMCSolver;
  best : Results D;
  out : list out_item;
  sweep_gen : rand_gen_t;
}.

Definition set_variance (r : Results D) (v : D) : Results D :=
  {| res.E := res.E r; res.E2 := res.E2 r; res.variance := v;
     res.alpha := res.alpha r; res.beta := res.beta r;
     res.acceptance_rate := res.acceptance_rate r |}.

(** Lines 267-276: the body of the inner loop, at one grid point. *)
Definition sweep_point (n_cycles : Z) (beta : D) (s : SweepState) : SweepState :=
  let self := set_beta (sweep_solver s) beta in
  let '(res, self, g) := run_MC self n_cycles (sweep_gen s) in
  let out :=
    out s ++ [OutDouble (_alpha self); OutText " "; OutDouble (_beta self); OutText " ";
              OutDouble (res.E res); OutText " "; OutDouble (res.E2 res);
              OutText newline] in
  (* New best parameter choice? *)
  let best := if (res.variance res <? res.variance (best s))%D then res else best s in
  {| sweep_solver := self; best := best; out := out; sweep_gen := g |}.

(** [vmc] returns [best]; it is returned here with what the call leaves in
    the stream, the solver and the engine.  [Results best;] is not
    initialised: [best0] stands for what it holds. *)
Definition vmc (self : VMCSolver) (n_cycles : Z) (out0 : list out_item)
    (alpha_min alpha_max alpha_n beta_min beta_max beta_n : D)
    (best0 : Results D) (g : rand_gen_t) : SweepState :=
  (* Used to store best results. *)
  let best_start := set_variance best0 d_max in
  (* Define variational space. *)
  let alphas := arma_linspace alpha_min alpha_max alpha_n in
  let betas := arma_linspace beta_min beta_max beta_n in
  (* Write header to stream. *)
  let s := {| sweep_solver := self; best := best_start;
              out := out0 ++ [OutText header]; sweep_gen := g |} in
  let s :=
    fold_left (fun s alpha =>
      let s := {| sweep_solver := set_alpha (sweep_solver s) alpha; best := best s;
                  out := out s; sweep_gen := sweep_gen s |} in
      fold_left (fun s beta => sweep_point n_cycles beta s) betas s)
    alphas s in
  (* Flush when you are done. *)
  {| sweep_solver := sweep_solver s; best := best s;
     out := out s ++ [OutFlush]; sweep_gen := sweep_gen s |}.

End Solver.

Arguments VMCSolver : clear implicits.
Arguments out_item : clear implicits.
Arguments MCState D {_ _}.
Arguments SweepState D {_ _}.

(** ** The two arithmetics *)

(** *** IEEE 754 binary64 *)

Module Binary64.

(** [int] to [double]: exact, an [int] has at most 31 significant bits. *)
Definition of_int (z : Z) : float :=
  match z with
  | Z0 => 0%float
  | Zpos _ => PrimFloat.of_uint63 (Uint63.of_Z z)
  | Zneg p => (- PrimFloat.of_uint63 (Uint63.of_Z (Zpos p)))%float
  end.

(** [double] to [int]: the fractional part is discarded.  (The conversion of
    a value outside the range of [int] is undefined in C++.) *)
Definition to_int (x : float) : Z :=
  match Prim2SF x with
  | S754_finite s m e =>
      let v := Z.shiftl (Zpos m) e in if s then (- v)%Z else v
  | _ => 0%Z
  end.

(** A key for the values that are not NaN: the comparison of two of them is
    the lexicographic comparison of their keys. *)
Definition key (x : spec_float) : Z * Z * Z :=
  match x with
  | S754_zero _ => (0, 0, 0)%Z
  | S754_infinity s => ((if s then -2 else 2), 0, 0)%Z
  | S754_nan => (0, 0, 0)%Z
  | S754_finite s m e => if s then (-1, - e, - Zpos m)%Z else (1, e, Zpos m)%Z
  end.

Definition lex_lt (k1 k2 : Z * Z * Z) : Prop :=
  (fst (fst k1) < fst (fst k2)
   \/ (fst (fst k1) = fst (fst k2)
       /\ (snd (fst k1) < snd (fst k2)
           \/ (snd (fst k1) = snd (fst k2) /\ snd k1 < snd k2))))%Z.

Definition lex_eq (k1 k2 : Z * Z * Z) : Prop :=
  (fst (fst k1) = fst (fst k2) /\ snd (fst k1) = snd (fst k2) /\ snd k1 = snd k2)%Z.

(** [DBL_MAX], (2 - 2^-52) * 2^1023. *)
Definition DBL_MAX : float := 0x1.fffffffffffffp+1023%float.

#[global] Instance float_Double : Double float := {|
  d_of_int := of_int;
  d_to_int := to_int;
  dadd := PrimFloat.add;
  dsub := PrimFloat.sub;
  dmul := PrimFloat.mul;
  ddiv := PrimFloat.div;
  dopp := PrimFloat.opp;
  dle := PrimFloat.leb;
  dlt := PrimFloat.ltb;
  d_max := DBL_MAX;
|}.

(** A reference [arma::dot] and [arma::norm]: the sum of the products taken
    from the first component on, and its square root on [dot(v, v)]. *)
Definition dot (u v : list float) : float :=
  fold_left PrimFloat.add (zip_with PrimFloat.mul u v) 0%float.

Definition norm (v : list float) : float := PrimFloat.sqrt (dot v v).

(** [linspace(start, end, N)]: [N] points from [start] to [end], the last one
    [end] itself; a single point [end] when [N] is below 2. *)
Definition linspace (lo hi N : float) : list float :=
  let n := Z.to_nat (to_int N) in
  match n with
  | 0 | 1 => [hi]
  | _ =>
      let delta := ((hi - lo) / of_int (Z.of_nat (n - 1)))%float in
      map (fun i => (lo + of_int (Z.of_nat i) * delta)%float) (seq 0 (n - 1)) ++ [hi]
  end.

(** Binary64 has no exponential of its own.  For the examples: the Taylor
    polynomial of degree 8 at [x / 2^10], squared ten times. *)
Definition exp_poly (y : float) : float :=
  (1 + y * (1 + y / 2 * (1 + y / 3 * (1 + y / 4 * (1 + y / 5 * (1 + y / 6
     * (1 + y / 7 * (1 + y / 8))))))))%float.

Fixpoint square_n (k : nat) (x : float) : float :=
  match k with
  | O => x
  | S k' => square_n k' (x * x)%float
  end.

Definition exp (x : float) : float := square_n 10 (exp_poly (x / 1024)%float).

#[global] Instance float_MathLib : MathLib float := {|
  std_exp := exp;
  arma_dot := dot;
  arma_norm := norm;
  arma_linspace := linspace;
|}.

(** An engine for the examples: the draws are read off a tape, round and
    round; the state is the position on the tape. *)
Definition unif_tape : list float := [0.25; 0.75; 0.5; 0; 0.875]%float.
Definition centered_tape : list float := [0.25; -0.5; 0; -0.125; 0.375; 0.125; -0.25]%float.

Definition tape_unif (g : nat) : float * nat :=
  (nth (g mod 5) unif_tape 0%float, S g).
Definition tape_centered (g : nat) : float * nat :=
  (nth (g mod 7) centered_tape 0%float, S g).

Lemma tape_unif_range (g : nat) :
  (d0 <=? fst (tape_unif g))%D = true /\ (fst (tape_unif g) <? d1)%D = true.
Proof.
  unfold tape_unif. cbv [fst].
  assert (g mod 5 < 5) as Hlt by (apply Nat.mod_upper_bound; lia).
  remember (g mod 5) as k eqn:Hk. clear Hk.
  destruct k as [|[|[|[|[|k]]]]]; try lia; split; vm_compute; reflexivity.
Qed.

Lemma tape_centered_range (g : nat) :
  (- d_half <=? fst (tape_centered g))%D = true
  /\ (fst (tape_centered g) <? d_half)%D = true.
Proof.
  unfold tape_centered. cbv [fst].
  assert (g mod 7 < 7) as Hlt by (apply Nat.mod_upper_bound; lia).
  remember (g mod 7) as k eqn:Hk. clear Hk.
  destruct k as [|[|[|[|[|[|[|k]]]]]]]; try lia; split; vm_compute; reflexivity.
Qed.

#[global] Instance tape_engine : RandomEngine float := {|
  rand_gen_t := nat;
  unif := tape_unif;
  centered := tape_centered;
  unif_range := tape_unif_range;
  centered_range := tape_centered_range;
|}.

End Binary64.

(** *** Real numbers *)

Module Exact.

Definition Rleb (x y : R) : bool := if Rle_dec x y then true else false.
Definition Rltb (x y : R) : bool := if Rlt_dec x y then true else false.

Definition to_int (x : R) : Z :=
  if Rle_dec 0 x then Int_part x else (- Int_part (- x))%Z.

#[global] Instance R_Double : Double R := {|
  d_of_int := IZR;
  d_to_int := to_int;
  dadd := Rplus;
  dsub := Rminus;
  dmul := Rmult;
  ddiv := Rdiv;
  dopp := Ropp;
  dle := Rleb;
  dlt := Rltb;
  d_max := IZR ((2 ^ 53 - 1) * 2 ^ 971);
|}.

Definition dot (u v : list R) : R :=
  fold_left Rplus (zip_with Rmult u v) 0%R.

Definition norm (v : list R) : R := sqrt (dot v v).

Definition linspace (lo hi N : R) : list R :=
  let n := Z.to_nat (to_int N) in
  match n with
  | 0 | 1 => [hi]
  | _ =>
      let delta := ((hi - lo) / INR (n - 1))%R in
      map (fun i => (lo + INR i * delta)%R) (seq 0 (n - 1)) ++ [hi]
  end.

#[global] Instance R_MathLib : MathLib R := {|
  std_exp := exp;
  arma_dot := dot;
  arma_norm := norm;
  arma_linspace := linspace;
|}.

(** An engine for the examples in the reals: the draws alternate between
    two values of each interval. *)
Definition step_unif (g : bool) : R * bool := ((if g then 1 / 4 else 3 / 4)%R, negb g).
Definition step_centered (g : bool) : R * bool := ((if g then 1 / 4 else - (1 / 4))%R, negb g).

Lemma step_unif_range (g : bool) :
  (d0 <=? fst (step_unif g))%D = true /\ (fst (step_unif g) <? d1)%D = true.
Proof.
  unfold step_unif. simpl. unfold Rleb, Rltb.
  destruct g; split;
    match goal with
    | |- context [Rle_dec ?a ?b] => destruct (Rle_dec a b); [reflexivity|lra]
    | |- context [Rlt_dec ?a ?b] => destruct (Rlt_dec a b); [reflexivity|lra]
    end.
Qed.

Lemma step_centered_range (g : bool) :
  (- d_half <=? fst (step_centered g))%D = true
  /\ (fst (step_centered g) <? d_half)%D = true.
Proof.
  unfold step_centered. simpl. unfold Rleb, Rltb.
  destruct g; split;
    match goal with
    | |- context [Rle_dec ?a ?b] => destruct (Rle_dec a b); [reflexivity|lra]
    | |- context [Rlt_dec ?a ?b] => destruct (Rlt_dec a b); [reflexivity|lra]
    end.
Qed.

#[global] Instance step_engine : RandomEngine R := {|
  rand_gen_t := bool;
  unif := step_unif;
  centered := step_centered;
  unif_range := step_unif_range;
  centered_range := step_centered_range;
|}.

End Exact.

(** ** The vocabulary of the specification *)

Section Vocabulary.
Context {D : Type} `{!Double D, !MathLib D, !RandomEngine D}.

(** The distance of particles [i] and [j] recomputed from the positions, as
    the cache functions compute it: [arma::norm(R.col(i) - R.col(j))]. *)
Definition distance (R : mat D) (i j : nat) : D :=
  arma_norm (vsub (col R i) (col R j)).

(** The same for a pair given in any order: the particle of lower index
    comes first, in [initialize_distance_matrix] and in both loops of
    [update_distance_matrix]. *)
Definition pair_distance (R : mat D) (i j : nat) : D :=
  distance R (Nat.min i j) (Nat.max i j).

(** The cache holds the distances of the configuration [R] at every pair
    [i < j] of particles. *)
Definition cache_consistent (self : VMCSolver D) (R : mat D) : Prop :=
  forall i j, i < j < n_of self -> mget (dist self) i j = distance R i j.

(** The diagonal and the strict lower triangle are zero. *)
Definition lower_zero (M : mat D) : Prop :=
  forall r c, c <= r -> mget M r c = d0.

(** When [E_kinetic] and [E_local] are called: without interaction the
    cache is not touched; with interaction it holds the distances of the
    configuration. *)
Definition cache_ready (self : VMCSolver D) (R : mat D) : Prop :=
  config.interaction (_config self) = InteractionType.OFF
  \/ (has_shape (n_of self) (n_of self) (dist self) /\ cache_consistent self R).

(** What a solver satisfies from its construction on. *)
Definition solver_wf (self : VMCSolver D) : Prop :=
  has_shape (n_of self) (n_of self) (dist self) /\ lower_zero (dist self).

(** All pairs [(i, j)] with [i < j < n], in the order in which the two
    nested loops visit them. *)
Definition pairs (n : nat) : list (nat * nat) :=
  flat_map (fun i => map (pair i) (seq (i + 1) (n - (i + 1)))) (seq 0 n).

(** Some cached pairwise distance is at or below the hard-sphere radius. *)
Definition overlap (self : VMCSolver D) : bool :=
  existsb (fun p => (mget (dist self) (fst p) (snd p) <=? config.a (_config self))%D)
          (pairs (n_of self)).

(** The two-body factor in the words of the specification: zero if any
    pairwise distance is at or below the hard-sphere radius, otherwise the
    product over all pairs of [1 - a / distance]; identically 1 with
    interaction off. *)
Definition jastrow_spec (self : VMCSolver D) : D :=
  match config.interaction (_config self) with
  | InteractionType.OFF => d1
  | InteractionType.ON =>
      if overlap self then d0
      else fold_left
             (fun f p => (f * (d1 - config.a (_config self) / mget (dist self) (fst p) (snd p)))%D)
             (pairs (n_of self)) d1
  end.

(** The line of the output for one grid point. *)
Definition row_of (r : Results D) : list (out_item D) :=
  [OutDouble (res.alpha r); OutText " "; OutDouble (res.beta r); OutText " ";
   OutDouble (res.E r); OutText " "; OutDouble (res.E2 r); OutText newline].

(** The number of lines sent to the stream: the newline characters of the
    texts (a formatted double has none). *)
Fixpoint newlines (s : string) : nat :=
  match s with
  | EmptyString => 0
  | String ch s' => (if Ascii.eqb ch (Ascii.ascii_of_nat 10) then 1 else 0) + newlines s'
  end.

Definition lines (items : list (out_item D)) : nat :=
  fold_right (fun item k => match item with OutText s => newlines s + k | _ => k end)
             0 items.

(** What holds of the variables of [run_MC] between two moves: the matrices
    have the dimensions of the configuration, the trial positions are the
    current ones, and the cache holds their distances. *)
Definition between_moves (c : VMCConfiguration D) (s : MCState D) : Prop :=
  _config (solver s) = c
  /\ solver_wf (solver s)
  /\ has_shape (dims_int (config.dims c)) (config.n_particles c) (R_old s)
  /\ R_new s = R_old s
  /\ cache_consistent (solver s) (R_old s).

(** The states of the walk of [run_MC] between two moves: the state before
    the first cycle, and the state after a move from such a state.  The
    value of [Psi_old] a move starts with is left free. *)
Inductive reachable (c : VMCConfiguration D) : MCState D -> Prop :=
  | reachable_start (self : VMCSolver D) (g : rand_gen_t) :
      _config self = c -> solver_wf self -> reachable c (mc_start self g)
  | reachable_move (i : nat) (Psi_old : D) (s : MCState D) :
      reachable c s -> i < config.n_particles c ->
      reachable c (snd (metropolis_move i (Psi_old, s))).

(** What a walk keeps, and how far the counter of accepted moves can go in
    [k] moves. *)
Definition walk_inv (c : VMCConfiguration D) (s0 : MCState D) (k : Z) (s : MCState D)
    : Prop :=
  between_moves c s
  /\ _alpha (solver s) = _alpha (solver s0)
  /\ _beta (solver s) = _beta (solver s0)
  /\ (accepted_moves s0 <= accepted_moves s <= accepted_moves s0 + k)%Z.

(** A grid point evaluated in the sweep: a result of [run_MC] at parameters
    of the two grids. *)
Definition evaluated (n_cycles : Z) (alphas betas : list D) (r : Results D) : Prop :=
  In (res.alpha r) alphas /\ In (res.beta r) betas
  /\ exists (self : VMCSolver D) (g : rand_gen_t),
       solver_wf self /\ r = fst (fst (run_MC self n_cycles g)).

(** The best record among the numbers: below every variance that is a
    number. *)
Definition below_numbers (b : Results D) (rs : list (Results D)) : Prop :=
  Forall (fun r => (res.variance r <=? res.variance r)%D = true ->
                   (res.variance b <=? res.variance r)%D = true) rs.

(** The variables of [vmc] after the grid points [rs]. *)
Definition sweep_inv (n_cycles : Z) (alphas betas : list D) (out0 : list (out_item D))
    (b0 : Results D) (rs : list (Results D)) (s : SweepState D) : Prop :=
  solver_wf (sweep_solver s)
  /\ out s = out0 ++ OutText header :: flat_map row_of rs
  /\ (best s = b0 \/ In (best s) rs)
  /\ (res.variance (best s) <=? res.variance (best s))%D = true
  /\ Forall (evaluated n_cycles alphas betas) rs
  /\ below_numbers (best s) rs.

End Vocabulary.

(** ** Configurations for the examples *)

Module Examples.
Import Binary64.

(* three particles in the plane, with interaction, numeric local energy *)
Definition cfg_plane : VMCConfiguration float := {|
  config.ho_type := SYMMETRIC;
  config.interaction := InteractionType.ON;
  config.acceleration := AnalyticAcceleration.OFF;
  config.dims := DIM_2;
  config.n_particles := 3;
  config.omega_ho := 1%float;
  config.omega_z := 1%float;
  config.a := 0.25%float;
  config.h := 0.125%float;
  config.h2 := 64%float;
  config.step_length := 1%float;
  config.time_step := 0.5%float;
|}.

(* three particles in the plane, one column each, at distances 5, 1 and
   sqrt 18 *)
Definition R0 : mat float := [[0; 0]; [3; 4]; [0; 1]]%float.
(* particle 1 moved *)
Definition R1 : mat float := [[0; 0]; [6; 8]; [0; 1]]%float.

(* a solver with the distances of [R0] in its cache *)
Definition cached : VMCSolver float :=
  initialize_distance_matrix (VMCSolver_new cfg_plane 0.5%float 1%float) R0.

(* a solver as the constructor leaves it *)
Definition fresh : VMCSolver float := VMCSolver_new cfg_plane 0.5%float 1%float.

(* the engine at the start of the tape *)
Definition g0 : @rand_gen_t float _ tape_engine := 0%nat.

(* the state before the first cycle, and the state after a move of particle 1 *)
Definition start : MCState float := mc_start fresh g0.
Definition moved : MCState float :=
  snd (metropolis_move 1 (Psi (solver start) (R_old start), start)).

(* the same particles with hard-sphere radius 2: particles 0 and 2 overlap *)
Definition cfg_wide : VMCConfiguration float := {|
  config.ho_type := SYMMETRIC;
  config.interaction := InteractionType.ON;
  config.acceleration := AnalyticAcceleration.OFF;
  config.dims := DIM_2;
  config.n_particles := 3;
  config.omega_ho := 1%float;
  config.omega_z := 1%float;
  config.a := 2%float;
  config.h := 0.125%float;
  config.h2 := 64%float;
  config.step_length := 1%float;
  config.time_step := 0.5%float;
|}.

Definition overlapping : VMCSolver float :=
  initialize_distance_matrix (VMCSolver_new cfg_wide 0.5%float 1%float) R0.

(* main.cpp's configuration at one dimension and two particles *)
Definition cfg_line : VMCConfiguration float := {|
  config.ho_type := SYMMETRIC;
  config.interaction := InteractionType.OFF;
  config.acceleration := AnalyticAcceleration.ON;
  config.dims := DIM_1;
  config.n_particles := 2;
  config.omega_ho := 1%float;
  config.omega_z := 1%float;
  config.a := 0x1.19ce075f6fd22p-8%float;    (* 0.0043 *)
  config.h := 0x1.0624dd2f1a9fcp-10%float;   (* 0.001 *)
  config.h2 := (1 / (0x1.0624dd2f1a9fcp-10 * 0x1.0624dd2f1a9fcp-10))%float;
  config.step_length := 1%float;
  config.time_step := 0x1.47ae147ae147bp-7%float;  (* 0.01 *)
|}.

Definition fixture : VMCSolver float :=
  set_beta (set_alpha (VMCSolver_new cfg_line 0%float 0%float) 0.5%float) 1%float.

(* three values of alpha and one of beta on that configuration *)
Definition sweep : SweepState float :=
  vmc fixture 2%Z [] 0.25%float 0.75%float 3%float 1%float 1%float 1%float
      (mc_results 0 (mc_start fixture g0)) g0.

(* Two particles on a line with a hard-sphere radius that covers the whole
   box: every configuration is an overlap. *)
Definition cfg_overlap : VMCConfiguration float := {|
  config.ho_type := SYMMETRIC;
  config.interaction := InteractionType.ON;
  config.acceleration := AnalyticAcceleration.ON;
  config.dims := DIM_1;
  config.n_particles := 2;
  config.omega_ho := 1%float;
  config.omega_z := 1%float;
  config.a := 4%float;
  config.h := 0.125%float;
  config.h2 := 64%float;
  config.step_length := 1%float;
  config.time_step := 0.5%float;
|}.

Definition solver_overlap : VMCSolver float := VMCSolver_new cfg_overlap 0%float 0%float.

(* what [Results best;] holds before the sweep: anything *)
Definition best0 : Results float := {|
  res.E := 0%float; res.E2 := 0%float; res.variance := 0%float;
  res.alpha := 0%float; res.beta := 0%float; res.acceptance_rate := 0%float;
|}.

(* one particle on a line under a narrow Gaussian, alpha = 400, in steps of
   up to 2 to either side *)
Definition cfg_narrow : VMCConfiguration float := {|
  config.ho_type := SYMMETRIC;
  config.interaction := InteractionType.OFF;
  config.acceleration := AnalyticAcceleration.ON;
  config.dims := DIM_1;
  config.n_particles := 1;
  config.omega_ho := 1%float;
  config.omega_z := 1%float;
  config.a := 0%float;
  config.h := 0.125%float;
  config.h2 := 64%float;
  config.step_length := 4%float;
  config.time_step := 0.5%float;
|}.

Definition narrow : VMCSolver float :=
  set_beta (set_alpha (VMCSolver_new cfg_narrow 0%float 0%float) 400%float) 1%float.

(* its state before the first cycle: the particle is at x = 1 *)
Definition start_narrow : MCState float := mc_start narrow g0.

End Examples.

(* One particle at the origin of a three-dimensional elliptical trap, without
   interaction, alpha = 1 and beta = 2, computed in the reals, with the
   finite-difference step h and h2 = 1 / h^2 as main.cpp sets it. *)
Module Elliptical.

Definition cfg (acc : AnalyticAcceleration.t) (h : R) : VMCConfiguration R := {|
  config.ho_type := ELLIPTICAL;
  config.interaction := InteractionType.OFF;
  config.acceleration := acc;
  config.dims := DIM_3;
  config.n_particles := 1;
  config.omega_ho := 1%R;
  config.omega_z := 1%R;
  config.a := 0%R;
  config.h := h;
  config.h2 := (1 / (h * h))%R;
  config.step_length := 1%R;
  config.time_step := 0%R;
|}.

Definition solver (acc : AnalyticAcceleration.t) (h : R) : VMCSolver R :=
  set_beta (set_alpha (VMCSolver_new (cfg acc h) 0%R 0%R) 1%R) 2%R.

Definition origin : mat R := zeros 3 1.

(* the local energy in the two modes *)
Definition E_numeric (h : R) : R :=
  fst (fst (E_local (solver AnalyticAcceleration.OFF h) origin)).
Definition E_analytic (h : R) : R :=
  fst (fst (E_local (solver AnalyticAcceleration.ON h) origin)).

End Elliptical.

(** ** Further vocabulary *)

Section Harmonic.
Context {D : Type} `{!Double D, !MathLib D}.

(** The sum over the particles of the squared distance to the origin, as
    [Psi_g] and [V_ext] accumulate it. *)
Definition sum_squares (self : VMCSolver D) (R : mat D) : D :=
  for_range 0 (n_of self) (fun i g => (g + arma_dot (col R i) (col R i))%D) d0.

End Harmonic.

Section SweepRuns.
Context {D : Type} `{!Double D, !MathLib D, !RandomEngine D}.

(** The grid points in the order in which the two nested loops of [vmc]
    visit them. *)
Definition grid (alphas betas : list D) : list (D * D) :=
  flat_map (fun alpha => map (pair alpha) betas) alphas.

(** The runs of a sweep: [run_MC] at each point in turn, each run on the
    solver and from the engine state that the run before it left; with the
    solver and the engine after the last one. *)
Fixpoint sweep_runs (n_cycles : Z) (points : list (D * D)) (self : VMCSolver D)
    (g : rand_gen_t) : list (Results D) * VMCSolver D * rand_gen_t :=
  match points with
  | [] => ([], self, g)
  | p :: rest =>
      let '(r, self, g) := run_MC (set_beta (set_alpha self (fst p)) (snd p)) n_cycles g in
      let '(rs, self, g) := sweep_runs n_cycles rest self g in
      (r :: rs, self, g)
  end.

(** The test of line 275 and its assignment. *)
Definition pick_best (b r : Results D) : Results D :=
  if (res.variance r <? res.variance b)%D then r else b.

End SweepRuns.

(** The pairs of the elements of a list, each element with those after it. *)
Fixpoint all_pairs {A : Type} (l : list A) : list (A * A) :=
  match l with
  | [] => []
  | x :: l' => map (pair x) l' ++ all_pairs l'
  end.

(** A binary64 value that is a zero of either sign, or NaN: what a product
    with a zero is. *)
Definition zero_or_nan (x : spec_float) : Prop :=
  match x with S754_zero _ | S754_nan => True | _ => False end.

(* Two particles in a symmetric three-dimensional trap, without interaction,
   analytic local energy, at the ground-state parameters alpha = 1/2 and
   beta = 1 of omega = 1 (main.cpp's omega), computed in the reals. *)
Module Ground.

Definition cfg : VMCConfiguration R := {|
  config.ho_type := SYMMETRIC;
  config.interaction := InteractionType.OFF;
  config.acceleration := AnalyticAcceleration.ON;
  config.dims := DIM_3;
  config.n_particles := 2;
  config.omega_ho := 1%R;
  config.omega_z := 1%R;
  config.a := 0%R;
  config.h := (1 / 1000)%R;
  config.h2 := 1000000%R;
  config.step_length := 1%R;
  config.time_step := 0%R;
|}.

Definition solver : VMCSolver R :=
  set_beta (set_alpha (VMCSolver_new cfg 0%R 0%R) (1 / 2)%R) 1%R.

(* the two particles at (1, 2, 3) and (0, -1, 1/2) *)
Definition positions : mat R := [[1; 2; 3]; [0; -1; 1 / 2]]%R.

(* the engine of the examples, at its first state *)
Definition g0 : @rand_gen_t R _ Exact.step_engine := true.

(* the same particles in an elliptical trap of frequency [omega_z] along z *)
Definition cfg_squeezed (omega_z : R) : VMCConfiguration R := {|
  config.ho_type := ELLIPTICAL;
  config.interaction := InteractionType.OFF;
  config.acceleration := AnalyticAcceleration.ON;
  config.dims := DIM_3;
  config.n_particles := 2;
  config.omega_ho := 1%R;
  config.omega_z := omega_z;
  config.a := 0%R;
  config.h := (1 / 1000)%R;
  config.h2 := 1000000%R;
  config.step_length := 1%R;
  config.time_step := 0%R;
|}.

Definition squeezed (omega_z : R) : VMCSolver R :=
  set_beta (set_alpha (VMCSolver_new (cfg_squeezed omega_z) 0%R 0%R) (1 / 2)%R) 1%R.

End Ground.

(** ** The system of bosons (system.hpp) *)

Module system.
Section System.
(** The class [Boson] is declared in boson.hpp, which is not among the
    sources: the type, its [get_dimensions] and its [operator<<] (what it
    sends to a stream) are parameters. *)
Context {Boson : Type} (Boson_get_dimensions : Boson -> Z) (Boson_print : Boson -> string).

Record System := { _bosons : list Boson }.

(** The conversions between [int] and [std::size_t] (64 bits), modulo
    2^32 and 2^64. *)
Definition INT_MAX : Z := 2 ^ 31 - 1.
Definition to_size_t (z : Z) : Z := z mod 2 ^ 64.
Definition to_int (z : Z) : Z := (z + 2 ^ 31) mod 2 ^ 32 - 2 ^ 31.

(** [_bosons[index]]: [std::vector::operator[]] takes a [size_t] and does
    not check it.  An index outside the vector is undefined behaviour:
    [None]. *)
Definition subscript (s : System) (index : Z) : option Boson :=
  _bosons s !! Z.to_nat (to_size_t index).

Definition get_bosons (s : System) : list Boson := _bosons s.

Definition get_dimensions (s : System) : option Z :=
  Boson_get_dimensions <$> subscript s 0.

Definition get_n_bosons (s : System) : Z :=
  to_int (Z.of_nat (length (_bosons s))).

(** [operator<<]: what the stream holds after the call, [None] when the call
    has undefined behaviour.  In [i < s.get_bosons().size() - 1] the
    subtraction is done in [size_t] and [i] is converted to it. *)
Definition print (strm : list string) (s : System) : option (list string) :=
  let strm := strm ++ ["System("] in
  let bound := to_size_t (Z.of_nat (length (get_bosons s)) - 1) in
  match
    for_range_ret 0 (Z.to_nat bound) (fun i strm =>
      if (INT_MAX <? Z.of_nat i)%Z then Return tt      (* i++ has overflowed *)
      else match subscript s (Z.of_nat i) with
           | None => Return tt
           | Some b => Continue (strm ++ [Boson_print b; ", "])
           end) strm
  with
  | Return _ => None
  | Continue strm =>
      match subscript s (to_int bound) with
      | None => None
      | Some b => Some (strm ++ [Boson_print b; ")"])
      end
  end.

End System.
Arguments System : clear implicits.
End system.

(** ** Process start-up and shut-down (mpiutil.cpp) *)

Module mpiutil.

(** The MPI library is not part of the repository.  Its state, as far as
    the four calls of mpiutil.cpp go, follows the MPI standard: [MPI_Init]
    may be called once, and not after [MPI_Finalize]; [MPI_Finalize] may be
    called once, after [MPI_Init]; a call against these rules is erroneous.
    [MPI_Initialized] and [MPI_Finalized] may be called at any time, and
    tell whether [MPI_Init] and [MPI_Finalize] have been called. *)
Record MPI := {
  initialized : bool;
  finalized : bool;
  erroneous : bool;
}.

Definition MPI_Init (m : MPI) : MPI :=
  {| initialized := true; finalized := finalized m;
     erroneous := erroneous m || initialized m || finalized m |}.

Definition MPI_Finalize (m : MPI) : MPI :=
  {| initialized := initialized m; finalized := true;
     erroneous := erroneous m || negb (initialized m) || finalized m |}.

Definition MPI_Initialized (m : MPI) : bool := initialized m.
Definition MPI_Finalized (m : MPI) : bool := finalized m.

(** The functions that are registered with [atexit]. *)
Inductive exit_handler := library_onexit_handler.

(** What mpiutil.cpp touches of the process: the MPI library, the handlers
    registered with [atexit] (the latest first) and the seeds given to the
    engine [rand_gen] (the latest first). *)
Record Process := {
  mpi : MPI;
  atexit_handlers : list exit_handler;
  seeds : list Z;
}.

Section Rank.
(** [get_rank()] is defined elsewhere in mpiutil: the rank of the process. *)
Variable get_rank : Z.

Definition initialize_mpi (p : Process) : Process :=
  let inited := MPI_Initialized (mpi p) in
  if negb inited then
    {| mpi := MPI_Init (mpi p);
       atexit_handlers := library_onexit_handler :: atexit_handlers p;
       (* Seed random number generator differently for each proc. *)
       seeds := (12345 + get_rank)%Z :: seeds p |}
  else p.

End Rank.

Definition library_onexit (p : Process) : Process :=
  let finalized := MPI_Finalized (mpi p) in
  if negb finalized then
    {| mpi := MPI_Finalize (mpi p); atexit_handlers := atexit_handlers p;
       seeds := seeds p |}
  else p.

(** [exit]: the registered handlers are called in the reverse order of
    their registration. *)
Definition run_handler (h : exit_handler) : Process -> Process :=
  match h with library_onexit_handler => library_onexit end.

Definition exit (p : Process) : Process :=
  fold_left (fun p h => run_handler h p) (atexit_handlers p) p.

(** A process in which MPI has not been touched. *)
Definition untouched (m : MPI) : Prop :=
  initialized m = false /\ finalized m = false /\ erroneous m = false.

(** The process as it starts. *)
Definition fresh_process : Process :=
  {| mpi := {| initialized := false; finalized := false; erroneous := false |};
     atexit_handlers := []; seeds := [] |}.

End mpiutil.

(** ** The driver (main.cpp) *)

Module driver.

(** What is sent to the standard output. *)
Inductive printed :=
  | Printf (text : string)                       (* a [printf] without conversions *)
  | PrintfCouldNotOpen (path : string)           (* "Could not open file '%s'\n" *)
  | PrintfRow (dims n_particles : Z) (analytic : string) (dt : float)
                                                 (* "%d, %3d, %3s, %5e, " *)
  | CoutResults (r : Results float)              (* cout << result *)
  | PrintfTime (milli_time : Z)                  (* ", %d\n" *)
  | CoutFlush.                                   (* cout << flush *)

Definition usage : string :=
  "Usage: ./main.x n_cycles alpha_min alpha_max alpha_step [filename]" +:+ newline.

Definition columns : string :=
  "Dims, Number of particles, Use analytic expressions, time step, Energy, Energy^2, "
  +:+ "Variance, alpha, beta, acceptance rate, time(ms)" +:+ newline.

(** The assignments to the fields of [config]. *)
Definition set_base (c : VMCConfiguration float) : VMCConfiguration float :=
  let h := 0x1.0624dd2f1a9fcp-10%float in     (* 0.001 *)
  {| config.ho_type := SYMMETRIC;
     config.interaction := InteractionType.OFF;
     config.acceleration := config.acceleration c;
     config.dims := config.dims c;
     config.n_particles := config.n_particles c;
     config.omega_ho := 1%float;
     config.omega_z := 1%float;
     config.a := 0x1.19ce075f6fd22p-8%float;  (* 0.0043 *)
     config.h := h;
     config.h2 := (1 / (h * h))%float;
     config.step_length := 1%float;
     config.time_step := config.time_step c |}.

Definition set_dims (c : VMCConfiguration float) (dims : Dimensions) :=
  {| config.ho_type := config.ho_type c; config.interaction := config.interaction c;
     config.acceleration := config.acceleration c; config.dims := dims;
     config.n_particles := config.n_particles c; config.omega_ho := config.omega_ho c;
     config.omega_z := config.omega_z c; config.a := config.a c; config.h := config.h c;
     config.h2 := config.h2 c; config.step_length := config.step_length c;
     config.time_step := config.time_step c |}.

Definition set_n_particles (c : VMCConfiguration float) (n_particles : nat) :=
  {| config.ho_type := config.ho_type c; config.interaction := config.interaction c;
     config.acceleration := config.acceleration c; config.dims := config.dims c;
     config.n_particles := n_particles; config.omega_ho := config.omega_ho c;
     config.omega_z := config.omega_z c; config.a := config.a c; config.h := config.h c;
     config.h2 := config.h2 c; config.step_length := config.step_length c;
     config.time_step := config.time_step c |}.

Definition set_acceleration (c : VMCConfiguration float) (analytic : AnalyticAcceleration.t) :=
  {| config.ho_type := config.ho_type c; config.interaction := config.interaction c;
     config.acceleration := analytic; config.dims := config.dims c;
     config.n_particles := config.n_particles c; config.omega_ho := config.omega_ho c;
     config.omega_z := config.omega_z c; config.a := config.a c; config.h := config.h c;
     config.h2 := config.h2 c; config.step_length := config.step_length c;
     config.time_step := config.time_step c |}.

Definition set_time_step (c : VMCConfiguration float) (dt : float) :=
  {| config.ho_type := config.ho_type c; config.interaction := config.interaction c;
     config.acceleration := config.acceleration c; config.dims := config.dims c;
     config.n_particles := config.n_particles c; config.omega_ho := config.omega_ho c;
     config.omega_z := config.omega_z c; config.a := config.a c; config.h := config.h c;
     config.h2 := config.h2 c; config.step_length := config.step_length c;
     config.time_step := dt |}.

Definition dimensions : list Dimensions := [DIM_1; DIM_2; DIM_3].
Definition particles : list nat := [1; 10; 100; 500].
Definition analytic_on_off : list AnalyticAcceleration.t :=
  [AnalyticAcceleration.ON; AnalyticAcceleration.OFF].
Definition time_steps : list float :=
  [0x1.47ae147ae147bp-7; 0x1.0624dd2f1a9fcp-10; 0x1.a36e2eb1c432dp-14]%float.
  (* 0.01, 0.001, 0.0001 *)

Section Main.
(** What main.cpp calls and is not among the sources: [atoi] and [atof],
    the opening of the output file, the clock, and the class
    [VMCImportanceSolver].  [W] is the state they work on (the random
    engine, the clock). *)
Context {W : Type}.
Variable atoi : string -> Z.
Variable atof : string -> float.
(* [out_file.is_open()] after [std::ofstream out_file (path)] *)
Variable is_open : string -> bool.
(* [VMCImportanceSolver vmc(config); vmc.vmc(n_cycles, out_file, alpha_min,
   alpha_max, alpha_n)]: the record returned, what [out_file] holds and the
   state afterwards *)
Variable VMCImportanceSolver_vmc :
  VMCConfiguration float -> Z -> list (out_item float) -> float -> float -> float -> W ->
  Results float * list (out_item float) * W.
(* the milliseconds between two states *)
Variable milliseconds : W -> W -> Z.

(** The variables of [main] that live across the loops. *)
Record MainState := {
  config : VMCConfiguration float;
  out_file : list (out_item float);
  stdout : list printed;
  world : W;
}.

(** Lines 64-86: the body of the innermost loop. *)
Definition run (n_cycles : Z) (alpha_min alpha_max alpha_n : float) (dt : float)
    (s : MainState) : MainState :=
  let config := set_time_step (config s) dt in
  let start_time := world s in
  let '(result, out_file, w) :=
    VMCImportanceSolver_vmc config n_cycles (out_file s) alpha_min alpha_max alpha_n
      (world s) in
  let end_time := w in
  let milli_time := milliseconds start_time end_time in
  {| config := config; out_file := out_file;
     stdout := stdout s ++
       [PrintfRow (Z.of_nat (dims_int (config.dims config)))
                  (Z.of_nat (config.n_particles config))
                  (match config.acceleration config with
                   | AnalyticAcceleration.ON => "ON"
                   | AnalyticAcceleration.OFF => "OFF"
                   end) dt;
        CoutResults result; PrintfTime milli_time; CoutFlush];
     world := w |}.

Definition with_config (s : MainState) (c : VMCConfiguration float) : MainState :=
  {| config := c; out_file := out_file s; stdout := stdout s; world := world s |}.

(** [main]: the exit status, the standard output, what the output file
    holds if it was opened, and the state afterwards; [None] if an element
    of [argv] is read that does not exist.  [config0] stands for what
    [VMCConfiguration config;] holds before the assignments. *)
Definition main (argc : Z) (argv : list string) (config0 : VMCConfiguration float) (w : W)
    : option (Z * list printed * option (list (out_item float)) * W) :=
  if (argc <? 6)%Z then Some (0%Z, [Printf usage], None, w)
  else
    (* Read in parameters. *)
    a1 ← argv !! 1; a2 ← argv !! 2; a3 ← argv !! 3; a4 ← argv !! 4; a5 ← argv !! 5;
    let n_cycles := atoi a1 in
    let alpha_min := atof a2 in
    let alpha_max := atof a3 in
    let alpha_n := atof a4 in
    if negb (is_open a5) then Some (1%Z, [PrintfCouldNotOpen a5], None, w)
    else
      (* Setup configuration. *)
      let s := {| config := set_base config0; out_file := [];
                  stdout := [Printf columns]; world := w |} in
      (* Run vmc for all versions wanted in c) *)
      let s :=
        fold_left (fun s dims =>
          let s := with_config s (set_dims (config s) dims) in
          fold_left (fun s n_particles =>
            let s := with_config s (set_n_particles (config s) n_particles) in
            fold_left (fun s analytic =>
              let s := with_config s (set_acceleration (config s) analytic) in
              fold_left (fun s dt => run n_cycles alpha_min alpha_max alpha_n dt s)
                time_steps s)
              analytic_on_off s)
            particles s)
          dimensions s in
      Some (0%Z, stdout s, Some (out_file s), world s).

End Main.

(** The configurations of the runs, in the order of the four loops. *)
Definition configurations : list (Dimensions * nat * AnalyticAcceleration.t * float) :=
  dims ← dimensions; n ← particles; analytic ← analytic_on_off; dt ← time_steps;
  [(dims, n, analytic, dt)].

(** The configuration of one run. *)
Definition configuration (p : Dimensions * nat * AnalyticAcceleration.t * float)
    : VMCConfiguration float :=
  let '(dims, n, analytic, dt) := p in
  let h := 0x1.0624dd2f1a9fcp-10%float in
  {| config.ho_type := SYMMETRIC;
     config.interaction := InteractionType.OFF;
     config.acceleration := analytic;
     config.dims := dims;
     config.n_particles := n;
     config.omega_ho := 1%float;
     config.omega_z := 1%float;
     config.a := 0x1.19ce075f6fd22p-8%float;
     config.h := h;
     config.h2 := 1000000%float;
     config.step_length := 1%float;
     config.time_step := dt |}.

End driver.

(** ** The finite-difference local energy *)

Section FiniteDifference.
Import Exact.
Implicit Types (self : VMCSolver R) (X : mat R).
Open Scope R_scope.

(** The second difference of the Gaussian in one coordinate [x], over the
    Gaussian: [(Psi(x + h) + Psi(x - h) - 2 Psi(x)) / Psi(x)]. *)
Definition second_difference (alpha h x : R) : R :=
  exp (- alpha * (h * h + 2 * h * x)) + exp (- alpha * (h * h - 2 * h * x)) - 2.

(** The sum of a function of one coordinate over all coordinates of all
    particles, in the order of the loops of [E_kinetic]. *)
Definition coordinate_sum (n dims : nat) (F : R -> R) X : R :=
  for_range 0 n (fun i acc =>
    for_range 0 dims (fun d acc => acc + F (mget X d i)) acc) 0.

Definition sum_second_differences self X : R :=
  coordinate_sum (n_of self) (dims_of self)
    (second_difference (_alpha self) (config.h (_config self))) X.

(** A function of the step [h] that is [O(h^2)] as [h] goes to zero. *)
Definition order_h2 (f : R -> R) : Prop :=
  exists C h0 : R, (0 < h0)%R /\
    forall h : R, (0 < Rabs h <= h0)%R -> (Rabs (f h) <= C * (h * h))%R.

End FiniteDifference.

(** The solver in the numeric mode with the step [h], and [h2] computed from
    it as main.cpp does ([config.h2 = 1 / (config.h * config.h)]); and the
    solver in the analytic mode. *)
Definition set_mode {D : Type} (c : VMCConfiguration D) (acceleration : AnalyticAcceleration.t)
    (h h2 : D) : VMCConfiguration D :=
  {| config.ho_type := config.ho_type c; config.interaction := config.interaction c;
     config.acceleration := acceleration; config.dims := config.dims c;
     config.n_particles := config.n_particles c; config.omega_ho := config.omega_ho c;
     config.omega_z := config.omega_z c; config.a := config.a c; config.h := h;
     config.h2 := h2; config.step_length := config.step_length c;
     config.time_step := config.time_step c |}.

Definition numeric {D : Type} `{!Double D} (self : VMCSolver D) (h : D) : VMCSolver D :=
  {| _config := set_mode (_config self) AnalyticAcceleration.OFF h (d1 / (h * h))%D;
     _alpha := _alpha self; _beta := _beta self; dist := dist self |}.

Definition analytic {D : Type} (self : VMCSolver D) : VMCSolver D :=
  {| _config := set_mode (_config self) AnalyticAcceleration.ON
                  (config.h (_config self)) (config.h2 (_config self));
     _alpha := _alpha self; _beta := _beta self; dist := dist self |}.

(** * Properties *)

(** ** Loops *)

Lemma for_range_empty {S : Type} (lo hi : nat) (body : nat -> S -> S) (s : S) :
  hi <= lo -> for_range lo hi body s = s.
Proof.
  intros Hle. unfold for_range.
  replace (hi - lo) with 0 by lia. reflexivity.
Qed.

Lemma for_range_snoc {S : Type} (lo hi : nat) (body : nat -> S -> S) (s : S) :
  lo <= hi -> for_range lo (hi + 1) body s = body hi (for_range lo hi body s).
Proof.
  intros Hle. unfold for_range.
  replace (hi + 1 - lo) with ((hi - lo) + 1) by lia.
  rewrite seq_app, fold_left_app. simpl.
  replace (lo + (hi - lo)) with hi by lia. reflexivity.
Qed.

(** The loop invariant rule. *)
Lemma for_range_ind {S : Type} (P : nat -> S -> Prop) (lo hi : nat)
    (body : nat -> S -> S) (s : S) :
  lo <= hi ->
  P lo s ->
  (forall i t, lo <= i < hi -> P i t -> P (i + 1) (body i t)) ->
  P hi (for_range lo hi body s).
Proof.
  intros Hle Hstart Hstep.
  induction hi as [|hi IH].
  - assert (lo = 0) as -> by lia. rewrite for_range_empty by lia. exact Hstart.
  - destruct (decide (lo = Datatypes.S hi)) as [->|Hne].
    + rewrite for_range_empty by lia. exact Hstart.
    + replace (Datatypes.S hi) with (hi + 1) by lia.
      rewrite for_range_snoc by lia.
      apply Hstep; [lia|]. apply IH; [lia|].
      intros i t Hi. apply Hstep. lia.
Qed.

(** An invariant that does not mention the counter. *)
Lemma for_range_inv {S : Type} (P : S -> Prop) (lo hi : nat)
    (body : nat -> S -> S) (s : S) :
  P s ->
  (forall i t, lo <= i < hi -> P t -> P (body i t)) ->
  P (for_range lo hi body s).
Proof.
  intros Hstart Hstep.
  destruct (decide (lo <= hi)) as [Hle|Hgt].
  - apply (for_range_ind (fun _ => P)); auto.
  - rewrite for_range_empty by lia. exact Hstart.
Qed.

(** ** Matrices *)

Section MatrixFacts.
Context {D : Type} `{!Double D}.
Implicit Types (M : mat D) (v : D).

Lemma col_mset M r c v c' :
  col (mset M r c v) c' = if decide (c = c') then <[r := v]> (col M c) else col M c'.
Proof.
  unfold col, mset. rewrite list_lookup_alter.
  destruct (decide (c = c')) as [->|Hne]; [|reflexivity].
  destruct (M !! c'); reflexivity.
Qed.

Lemma col_mset_ne M r c v c' : c <> c' -> col (mset M r c v) c' = col M c'.
Proof. intros Hne. rewrite col_mset. destruct (decide (c = c')); congruence. Qed.

Lemma mget_mset M r c v r' c' :
  mget (mset M r c v) r' c' =
  if decide (c = c' /\ r = r' /\ r < length (col M c)) then v else mget M r' c'.
Proof.
  unfold mget, vget. rewrite col_mset.
  destruct (decide (c = c')) as [->|Hne].
  - rewrite list_lookup_insert.
    destruct (decide (r = r' /\ r < length (col M c'))) as [[-> Hlt]|Hno].
    + rewrite decide_True by auto. reflexivity.
    + rewrite decide_False by tauto. reflexivity.
  - rewrite decide_False by tauto. reflexivity.
Qed.

Lemma mget_mset_ne M r c v r' c' :
  (r, c) <> (r', c') -> mget (mset M r c v) r' c' = mget M r' c'.
Proof.
  intros Hne. rewrite mget_mset.
  destruct (decide (c = c' /\ r = r' /\ r < length (col M c))) as [(-> & -> & _)|];
    congruence.
Qed.

Lemma mset_mget_id M r c : mset M r c (mget M r c) = M.
Proof.
  unfold mset, mget, vget, col.
  apply list_eq. intros k. rewrite list_lookup_alter.
  destruct (decide (c = k)) as [->|]; [|reflexivity].
  destruct (M !! k) as [column|] eqn:Hk; simpl; [|reflexivity].
  f_equal. destruct (column !! r) as [x|] eqn:Hr; simpl.
  - apply list_insert_id. exact Hr.
  - apply list_insert_ge. apply lookup_ge_None. exact Hr.
Qed.

Lemma mset_mset M r c v w : mset (mset M r c v) r c w = mset M r c w.
Proof.
  unfold mset. rewrite list_alter_alter_eq.
  apply list_alter_ext; [|reflexivity].
  intros column _. simpl. apply list_insert_insert_eq.
Qed.

Lemma has_shape_mset n_rows n_cols M r c v :
  has_shape n_rows n_cols M -> has_shape n_rows n_cols (mset M r c v).
Proof.
  intros [Hlen Hcols]. split.
  - unfold mset. rewrite length_alter. exact Hlen.
  - unfold mset. rewrite Forall_lookup in Hcols |- *.
    intros k column. rewrite list_lookup_alter.
    destruct (decide (c = k)) as [->|].
    + destruct (M !! k) as [column0|] eqn:Hk; simpl; [|discriminate].
      intros [= <-]. rewrite length_insert. eauto.
    + eauto.
Qed.

Lemma has_shape_zeros n_rows n_cols : has_shape n_rows n_cols (zeros n_rows n_cols).
Proof.
  split.
  - unfold zeros. apply length_replicate.
  - unfold zeros. apply Forall_replicate. apply length_replicate.
Qed.

Lemma length_col n_rows n_cols M c :
  has_shape n_rows n_cols M -> c < n_cols -> length (col M c) = n_rows.
Proof.
  intros [Hlen Hcols] Hc. unfold col.
  destruct (M !! c) as [column|] eqn:Hk; simpl.
  - rewrite Forall_lookup in Hcols. eauto.
  - apply lookup_ge_None in Hk. lia.
Qed.

Lemma mget_mset_eq n_rows n_cols M r c v :
  has_shape n_rows n_cols M -> r < n_rows -> c < n_cols ->
  mget (mset M r c v) r c = v.
Proof.
  intros Hshape Hr Hc. rewrite mget_mset.
  rewrite decide_True; [reflexivity|].
  rewrite (length_col _ _ _ _ Hshape Hc). auto.
Qed.

Lemma mget_zeros n_rows n_cols r c : mget (zeros n_rows n_cols) r c = d0.
Proof.
  unfold mget, vget, col, zeros, zeros_vec.
  destruct (decide (c < n_cols)) as [Hc|Hc].
  - rewrite lookup_replicate_2 by exact Hc. simpl.
    destruct (decide (r < n_rows)) as [Hr|Hr].
    + rewrite lookup_replicate_2 by exact Hr. reflexivity.
    + rewrite (proj1 (lookup_replicate_None _ _ _)) by lia. reflexivity.
  - rewrite (proj1 (lookup_replicate_None _ _ _)) by lia. reflexivity.
Qed.

(** Two matrices of one shape with the same elements are equal. *)
Lemma mat_ext n_rows n_cols (A B : mat D) :
  has_shape n_rows n_cols A -> has_shape n_rows n_cols B ->
  (forall r c, r < n_rows -> c < n_cols -> mget A r c = mget B r c) ->
  A = B.
Proof.
  intros [HlenA HcolsA] [HlenB HcolsB] Hget.
  rewrite Forall_lookup in HcolsA, HcolsB.
  apply list_eq_same_length with n_cols; [exact HlenB|exact HlenA|].
  intros c ca cb Hc Ha Hb.
  apply list_eq_same_length with n_rows; [eauto|eauto|].
  intros r x y Hr Hx Hy.
  specialize (Hget r c Hr Hc). unfold mget, vget, col in Hget.
  rewrite Ha, Hb in Hget. simpl in Hget. rewrite Hx, Hy in Hget.
  exact Hget.
Qed.

End MatrixFacts.

(** ** The distance cache *)

Section CacheFacts.
Context {D : Type} `{!Double D, !MathLib D}.
Implicit Types (M R : mat D) (self : VMCSolver D).

(** The loop over a row: the entries [(p, c)], [p < c < n]. *)
Lemma fill_row_spec (n p : nat) (f : nat -> D) M :
  has_shape n n M ->
  has_shape n n (for_range (p + 1) n (fun other dist => mset dist p other (f other)) M)
  /\ forall r c,
       mget (for_range (p + 1) n (fun other dist => mset dist p other (f other)) M) r c
       = if decide (r = p /\ p < c < n) then f c else mget M r c.
Proof.
  intros Hshape.
  destruct (decide (p + 1 <= n)) as [Hle|Hgt].
  - refine (for_range_ind (fun k M' =>
      has_shape n n M' /\
      forall r c, mget M' r c = if decide (r = p /\ p < c < k) then f c else mget M r c)
      _ _ _ _ Hle _ _).
    + split; [exact Hshape|]. intros r c. rewrite decide_False by lia. reflexivity.
    + intros i t Hi [Ht Hget]. split; [apply has_shape_mset; exact Ht|].
      intros r c. rewrite mget_mset, (length_col n n) by (auto; lia).
      destruct (decide (i = c /\ p = r /\ p < n)) as [(-> & -> & _)|Hno].
      * rewrite decide_True by lia. reflexivity.
      * rewrite Hget.
        destruct (decide (r = p /\ p < c < i)) as [Hin|Hout].
        -- rewrite decide_True by lia. reflexivity.
        -- rewrite decide_False by lia. reflexivity.
  - rewrite for_range_empty by lia. split; [exact Hshape|].
    intros r c. rewrite decide_False by lia. reflexivity.
Qed.

(** The loop over a column: the entries [(r, p)], [r < p], when the matrix
    has a column [p]. *)
Lemma fill_col_spec (n p : nat) (f : nat -> D) M :
  has_shape n n M ->
  has_shape n n (for_range 0 p (fun other dist => mset dist other p (f other)) M)
  /\ forall r c,
       mget (for_range 0 p (fun other dist => mset dist other p (f other)) M) r c
       = if decide (c = p /\ r < p /\ p < n) then f r else mget M r c.
Proof.
  intros Hshape.
  refine (for_range_ind (fun k M' =>
    has_shape n n M' /\
    forall r c, mget M' r c = if decide (c = p /\ r < k /\ p < n) then f r else mget M r c)
    _ _ _ _ (Nat.le_0_l p) _ _).
  - split; [exact Hshape|]. intros r c. rewrite decide_False by lia. reflexivity.
  - intros i t Hi [Ht Hget]. split; [apply has_shape_mset; exact Ht|].
    intros r c. rewrite mget_mset.
    destruct (decide (p < n)) as [Hp|Hp].
    + rewrite (length_col n n) by auto.
      destruct (decide (p = c /\ i = r /\ i < n)) as [(-> & -> & _)|Hno].
      * rewrite decide_True by lia. reflexivity.
      * rewrite Hget.
        destruct (decide (c = p /\ r < i /\ p < n)) as [Hin|Hout].
        -- rewrite decide_True by lia. reflexivity.
        -- rewrite decide_False by lia. reflexivity.
    + assert (length (col t p) = 0) as ->.
      { unfold col. destruct Ht as [Hlen _].
        rewrite (proj2 (lookup_ge_None t p)) by lia. reflexivity. }
      rewrite decide_False by lia. rewrite Hget.
      rewrite !(decide_False (P := _ /\ _ /\ p < n)) by lia. reflexivity.
Qed.

(** What [initialize_distance_matrix] leaves in the cache. *)
Lemma initialize_spec self R :
  has_shape (n_of self) (n_of self) (dist self) ->
  has_shape (n_of self) (n_of self) (dist (initialize_distance_matrix self R))
  /\ forall r c,
       mget (dist (initialize_distance_matrix self R)) r c
       = if decide (r < c < n_of self) then distance R r c else mget (dist self) r c.
Proof.
  intros Hshape. unfold initialize_distance_matrix. simpl.
  set (n := n_of self) in *.
  cut (has_shape n n (for_range 0 n (fun i dist0 =>
         for_range (i + 1) n (fun j dist0 =>
           mset dist0 i j (arma_norm (vsub (col R i) (col R j)))) dist0) (dist self))
       /\ forall r c,
            mget (for_range 0 n (fun i dist0 =>
              for_range (i + 1) n (fun j dist0 =>
                mset dist0 i j (arma_norm (vsub (col R i) (col R j)))) dist0) (dist self)) r c
            = if decide (r < n /\ r < c < n) then distance R r c else mget (dist self) r c).
  { intros [Hs Hget]. split; [exact Hs|].
    intros r c. rewrite Hget.
    destruct (decide (r < c < n)) as [Hin|Hout].
    + rewrite decide_True by lia. reflexivity.
    + rewrite decide_False by lia. reflexivity. }
  refine (for_range_ind (fun k M' =>
    has_shape n n M' /\
    forall r c, mget M' r c
      = if decide (r < k /\ r < c < n) then distance R r c else mget (dist self) r c)
    _ _ _ _ (Nat.le_0_l n) _ _).
  - split; [exact Hshape|]. intros r c. rewrite decide_False by lia. reflexivity.
  - intros i t Hi [Ht Hget].
    destruct (fill_row_spec n i (fun j => arma_norm (vsub (col R i) (col R j))) t Ht)
      as [Hshape' Hrow].
    split; [exact Hshape'|].
    intros r c. rewrite Hrow.
    destruct (decide (r = i /\ i < c < n)) as [[-> Hc]|Hno].
    + rewrite decide_True by lia. reflexivity.
    + rewrite Hget.
      destruct (decide (r < i /\ r < c < n)) as [Hin|Hout].
      * rewrite decide_True by lia. reflexivity.
      * rewrite decide_False by lia. reflexivity.
Qed.

(** What [update_distance_matrix] leaves in the cache. *)
Lemma update_spec self p R :
  has_shape (n_of self) (n_of self) (dist self) ->
  has_shape (n_of self) (n_of self) (dist (update_distance_matrix self p R))
  /\ forall r c,
       mget (dist (update_distance_matrix self p R)) r c
       = if decide (r < c < n_of self /\ (r = p \/ c = p))
         then distance R r c else mget (dist self) r c.
Proof.
  intros Hshape. unfold update_distance_matrix. simpl.
  set (n := n_of self) in *.
  destruct (fill_row_spec n p (fun other => arma_norm (vsub (col R p) (col R other)))
              (dist self) Hshape) as [Hshape1 Hrow].
  destruct (fill_col_spec n p (fun other => arma_norm (vsub (col R other) (col R p)))
              _ Hshape1) as [Hshape2 Hcol].
  split; [exact Hshape2|].
  intros r c. rewrite Hcol.
  destruct (decide (c = p /\ r < p /\ p < n)) as [(-> & Hr & Hp)|Hno].
  - rewrite decide_True by lia. reflexivity.
  - rewrite Hrow.
    destruct (decide (r = p /\ p < c < n)) as [[-> Hc]|Hno'].
    + rewrite decide_True by lia. reflexivity.
    + rewrite decide_False by lia. reflexivity.
Qed.

End CacheFacts.


(** ** What the cache functions leave alone *)

Section Frames.
Context {D : Type} `{!Double D, !MathLib D}.
Implicit Types (M R : mat D) (self : VMCSolver D).

(** Both write above the diagonal only, whatever the shape of the matrix and
    whatever the index [p]. *)
Lemma update_lower self p R r c :
  c <= r -> mget (dist (update_distance_matrix self p R)) r c = mget (dist self) r c.
Proof.
  intros Hrc. unfold update_distance_matrix. simpl.
  etransitivity.
  - apply (for_range_inv (fun M => mget M r c = mget
      (for_range (p + 1) (n_of self) (fun other dist0 =>
         mset dist0 p other (arma_norm (vsub (col R p) (col R other)))) (dist self)) r c)).
    + reflexivity.
    + intros i t Hi Ht. rewrite mget_mset_ne; [exact Ht|]. intros [= -> ->]. lia.
  - apply (for_range_inv (fun M => mget M r c = mget (dist self) r c)).
    + reflexivity.
    + intros i t Hi Ht. rewrite mget_mset_ne; [exact Ht|]. intros [= -> ->]. lia.
Qed.

Lemma initialize_lower self R r c :
  c <= r -> mget (dist (initialize_distance_matrix self R)) r c = mget (dist self) r c.
Proof.
  intros Hrc. unfold initialize_distance_matrix. simpl.
  apply (for_range_inv (fun M => mget M r c = mget (dist self) r c)).
  - reflexivity.
  - intros i t Hi Ht.
    apply (for_range_inv (fun M => mget M r c = mget (dist self) r c)).
    + exact Ht.
    + intros j t' Hj Ht'. rewrite mget_mset_ne; [exact Ht'|]. intros [= -> ->]. lia.
Qed.

Lemma update_if_interacting_lower self p R r c :
  c <= r -> mget (dist (update_if_interacting self p R)) r c = mget (dist self) r c.
Proof.
  intros Hrc. unfold update_if_interacting.
  destruct (config.interaction (_config self)); [apply update_lower; exact Hrc|reflexivity].
Qed.

Lemma update_if_interacting_fields self p R :
  _config (update_if_interacting self p R) = _config self
  /\ _alpha (update_if_interacting self p R) = _alpha self
  /\ _beta (update_if_interacting self p R) = _beta self.
Proof.
  unfold update_if_interacting.
  destruct (config.interaction (_config self)); auto.
Qed.

(** Updating for [p] on the configuration the cache is consistent with
    outside row and column [p] makes it consistent. *)
Lemma update_consistent self p R :
  has_shape (n_of self) (n_of self) (dist self) ->
  (forall i j, i < j < n_of self -> i <> p -> j <> p ->
     mget (dist self) i j = distance R i j) ->
  cache_consistent (update_distance_matrix self p R) R.
Proof.
  intros Hshape Hoff i j Hij.
  change (n_of (update_distance_matrix self p R)) with (n_of self) in Hij.
  destruct (update_spec self p R Hshape) as [_ ->].
  destruct (decide (i < j < n_of self /\ (i = p \/ j = p))) as [_|Hno].
  - reflexivity.
  - apply Hoff; lia.
Qed.

(** An update for [p] keeps what lies outside row and column [p]. *)
Lemma update_off self p R i j :
  has_shape (n_of self) (n_of self) (dist self) ->
  i <> p -> j <> p ->
  mget (dist (update_distance_matrix self p R)) i j = mget (dist self) i j.
Proof.
  intros Hshape Hi Hj.
  destruct (update_spec self p R Hshape) as [_ ->].
  rewrite decide_False by lia. reflexivity.
Qed.

(** On a consistent cache an update for the configuration itself changes
    nothing. *)
Lemma update_same self p R :
  has_shape (n_of self) (n_of self) (dist self) ->
  cache_consistent self R ->
  update_distance_matrix self p R = self.
Proof.
  intros Hshape Hcache.
  destruct (update_spec self p R Hshape) as [Hshape' Hget].
  assert (dist (update_distance_matrix self p R) = dist self) as Hdist.
  { apply (mat_ext (n_of self) (n_of self)); [exact Hshape'|exact Hshape|].
    intros r c Hr Hc. rewrite Hget.
    destruct (decide (r < c < n_of self /\ (r = p \/ c = p))) as [[Hrc _]|_].
    - symmetry. apply Hcache. exact Hrc.
    - reflexivity. }
  destruct self as [cfg al be di]. unfold update_distance_matrix, set_dist in *.
  simpl in *. rewrite Hdist. reflexivity.
Qed.

(** Two updates for the same particle: the second one overwrites the first. *)
Lemma update_update self p R R' :
  has_shape (n_of self) (n_of self) (dist self) ->
  update_distance_matrix (update_distance_matrix self p R') p R
  = update_distance_matrix self p R.
Proof.
  intros Hshape.
  destruct (update_spec self p R' Hshape) as [Hshape1 Hget1].
  destruct (update_spec (update_distance_matrix self p R') p R Hshape1) as [Hshape2 Hget2].
  destruct (update_spec self p R Hshape) as [Hshape3 Hget3].
  assert (dist (update_distance_matrix (update_distance_matrix self p R') p R)
          = dist (update_distance_matrix self p R)) as Hdist.
  { apply (mat_ext (n_of self) (n_of self)); [exact Hshape2|exact Hshape3|].
    intros r c Hr Hc. rewrite Hget2, Hget3.
    change (n_of (update_distance_matrix self p R')) with (n_of self).
    destruct (decide (r < c < n_of self /\ (r = p \/ c = p))) as [Hin|Hout].
    - reflexivity.
    - rewrite Hget1. rewrite decide_False by exact Hout. reflexivity. }
  unfold update_distance_matrix, set_dist in *. simpl in *.
  rewrite Hdist. reflexivity.
Qed.

End Frames.

(** ** Update against initialisation *)

Section CacheLaws.
Context {D : Type} `{!Double D, !MathLib D}.
Implicit Types (M R : mat D) (self : VMCSolver D).

(** The distance of a pair depends on the two columns only. *)
Lemma distance_ext R R' i j :
  col R' i = col R i -> col R' j = col R j -> distance R' i j = distance R i j.
Proof. intros Hi Hj. unfold distance. rewrite Hi, Hj. reflexivity. Qed.

(** C1.  Let the cache hold the distances of the configuration [R], and let
    [R'] be [R] with particle [p] moved (every other column is the same).
    Then [update_distance_matrix] for [p] on [R'] leaves, at every pair
    [i < j] of particles, what [initialize_distance_matrix] computes from
    scratch (on a newly constructed solver) on [R']; and when the entries on
    and below the diagonal are the zeros of the constructor, the two caches
    are the same matrix.  This holds for every particle count, every index
    [p] and columns of any length. *)
Theorem update_agrees_with_initialize self p R R' (alpha0 beta0 : D) :
  has_shape (n_of self) (n_of self) (dist self) ->
  cache_consistent self R ->
  (forall k, k <> p -> col R' k = col R k) ->
  (forall i j, i < j < n_of self ->
     mget (dist (update_distance_matrix self p R')) i j
     = mget (dist (initialize_distance_matrix
                     (VMCSolver_new (_config self) alpha0 beta0) R')) i j)
  /\ (lower_zero (dist self) ->
      dist (update_distance_matrix self p R')
      = dist (initialize_distance_matrix
                (VMCSolver_new (_config self) alpha0 beta0) R')).
Proof.
  intros Hshape Hcache Hmoved.
  destruct (update_spec self p R' Hshape) as [Hshape1 Hupd].
  destruct (initialize_spec (VMCSolver_new (_config self) alpha0 beta0) R'
              (has_shape_zeros _ _)) as [Hshape2 Hinit].
  change (n_of (VMCSolver_new (_config self) alpha0 beta0)) with (n_of self) in *.
  assert (forall i j, i < j < n_of self ->
            mget (dist (update_distance_matrix self p R')) i j
            = mget (dist (initialize_distance_matrix
                            (VMCSolver_new (_config self) alpha0 beta0) R')) i j)
    as Hupper.
  { intros i j Hij. rewrite Hupd, Hinit.
    rewrite (decide_True (P := i < j < n_of self)) by exact Hij.
    destruct (decide (i < j < n_of self /\ (i = p \/ j = p))) as [_|Hno].
    - reflexivity.
    - rewrite (Hcache i j Hij). symmetry.
      apply distance_ext; apply Hmoved; lia. }
  split; [exact Hupper|].
  intros Hlow.
  apply (mat_ext (n_of self) (n_of self)); [exact Hshape1|exact Hshape2|].
  intros r c Hr Hc.
  destruct (decide (r < c)) as [Hrc|Hrc]; [apply Hupper; lia|].
  rewrite update_lower, initialize_lower by lia.
  rewrite (Hlow r c) by lia. simpl. rewrite mget_zeros. reflexivity.
Qed.

End CacheLaws.

Module CacheExample.
Import Binary64 Examples.

Lemma cached_consistent : cache_consistent cached R0.
Proof.
  intros i j Hij. change (n_of cached) with 3 in Hij.
  destruct i as [|[|i]]; destruct j as [|[|[|j]]]; try lia; vm_compute; reflexivity.
Qed.

Lemma R1_moves_particle_1 (k : nat) : k <> 1 -> col R1 k = col R0 k.
Proof. intros Hk. destruct k as [|[|[|k]]]; try lia; reflexivity. Qed.

Lemma update_agrees_with_initialize_witness :
  mget (dist (update_distance_matrix cached 1 R1)) 0 1
  = mget (dist (initialize_distance_matrix (VMCSolver_new cfg_plane 0%float 0%float) R1)) 0 1.
Proof.
  apply (update_agrees_with_initialize cached 1 R0 R1 0%float 0%float).
  - vm_compute. split; [reflexivity|]. repeat constructor.
  - exact cached_consistent.
  - exact R1_moves_particle_1.
  - change (n_of cached) with 3. lia.
Defined.

End CacheExample.

(** ** The local energy leaves the positions and the cache as it found them *)

Section Restore.
Context {D : Type} `{!Double D, !MathLib D}.
Implicit Types (M R : mat D) (self : VMCSolver D).

Lemma perturb_restore self R i R1 R2 :
  cache_ready self R ->
  update_if_interacting
    (update_if_interacting (update_if_interacting self i R1) i R2) i R = self.
Proof.
  intros Hready. unfold update_if_interacting.
  destruct (config.interaction (_config self)) eqn:Hint.
  - simpl. rewrite Hint. simpl. rewrite Hint.
    destruct Hready as [Hoff|[Hshape Hcache]]; [congruence|].
    rewrite update_update.
    + rewrite update_update by exact Hshape. apply update_same; assumption.
    + exact (proj1 (update_spec self i R1 Hshape)).
  - rewrite Hint. rewrite Hint. reflexivity.
Qed.

Lemma E_kinetic_restores self R :
  cache_ready self R ->
  E_kinetic self R = (fst (fst (E_kinetic self R)), self, R).
Proof.
  intros Hready. unfold E_kinetic.
  match goal with
  | |- context [for_range 0 ?n ?body ?s] =>
      assert (snd (fst (for_range 0 n body s)) = self /\ snd (for_range 0 n body s) = R)
        as Hloop
  end.
  { apply (for_range_inv (fun st : D * VMCSolver D * mat D =>
             snd (fst st) = self /\ snd st = R)).
    - split; reflexivity.
    - intros i st _ Hst.
      apply (for_range_inv (fun st : D * VMCSolver D * mat D =>
               snd (fst st) = self /\ snd st = R)).
      + exact Hst.
      + intros d [[Ek s'] R'] _ [Hs HR]. simpl in Hs, HR. subst s' R'. simpl.
        rewrite !mset_mset, mset_mget_id. split; [|reflexivity].
        apply perturb_restore. exact Hready. }
  destruct (for_range 0 _ _ _) as [[Ek s'] R'].
  simpl in Hloop. destruct Hloop as [-> ->]. reflexivity.
Qed.

Lemma E_local_restores self R :
  cache_ready self R ->
  E_local self R = (fst (fst (E_local self R)), self, R).
Proof.
  intros Hready. unfold E_local.
  destruct (config.acceleration (_config self)).
  - reflexivity.
  - rewrite (E_kinetic_restores self R Hready). reflexivity.
Qed.

End Restore.

(** ** The pieces of a move *)

Section MoveFacts.
Context {D : Type} `{!Double D, !MathLib D, !RandomEngine D}.
Implicit Types (M R : mat D) (self : VMCSolver D) (c : VMCConfiguration D).

(** A proposal changes the column of the particle only. *)
Lemma propose_spec c i R_old0 R_new0 (g : rand_gen_t) n_rows n_cols :
  has_shape n_rows n_cols R_new0 ->
  has_shape n_rows n_cols (fst (propose c i R_old0 R_new0 g))
  /\ forall k, k <> i -> col (fst (propose c i R_old0 R_new0 g)) k = col R_new0 k.
Proof.
  intros Hshape. unfold propose.
  apply (for_range_inv (fun st : mat D * rand_gen_t =>
           has_shape n_rows n_cols (fst st)
           /\ forall k, k <> i -> col (fst st) k = col R_new0 k)).
  - split; [exact Hshape|reflexivity].
  - intros d [R' g'] _ [Hs Hcols]. simpl in Hs, Hcols.
    destruct (centered g') as [x g'']. simpl. split.
    + apply has_shape_mset. exact Hs.
    + intros k Hk. rewrite col_mset_ne by congruence. apply Hcols. exact Hk.
Qed.

Lemma copy_particle_spec c i (src dst : mat D) n_cols :
  has_shape (dims_int (config.dims c)) n_cols dst -> i < n_cols ->
  has_shape (dims_int (config.dims c)) n_cols (copy_particle c i src dst)
  /\ (forall k, k <> i -> col (copy_particle c i src dst) k = col dst k)
  /\ (forall r, r < dims_int (config.dims c) ->
        mget (copy_particle c i src dst) r i = mget src r i).
Proof.
  intros Hshape Hi. unfold copy_particle.
  set (dims := dims_int (config.dims c)) in *.
  refine (for_range_ind (fun k M' =>
    has_shape dims n_cols M'
    /\ (forall k', k' <> i -> col M' k' = col dst k')
    /\ (forall r, r < k -> mget M' r i = mget src r i))
    _ _ _ _ (Nat.le_0_l dims) _ _).
  - split; [exact Hshape|]. split; [reflexivity|]. intros r Hr. lia.
  - intros d t Hd (Hs & Hcols & Hget). split; [apply has_shape_mset; exact Hs|]. split.
    + intros k' Hk'. rewrite col_mset_ne by congruence. apply Hcols. exact Hk'.
    + intros r Hr. rewrite mget_mset, (length_col dims n_cols) by auto.
      destruct (decide (i = i /\ d = r /\ d < dims)) as [(_ & -> & _)|Hno].
      * reflexivity.
      * apply Hget. lia.
Qed.

(** Copying back the one column in which two matrices differ makes them
    equal. *)
Lemma copy_particle_eq c i (src dst : mat D) n_cols :
  has_shape (dims_int (config.dims c)) n_cols src ->
  has_shape (dims_int (config.dims c)) n_cols dst ->
  i < n_cols ->
  (forall k, k <> i -> col dst k = col src k) ->
  copy_particle c i src dst = src.
Proof.
  intros Hsrc Hdst Hi Hcols.
  destruct (copy_particle_spec c i src dst n_cols Hdst Hi) as (Hs & Hc & Hget).
  apply (mat_ext (dims_int (config.dims c)) n_cols); [exact Hs|exact Hsrc|].
  intros r k Hr Hk.
  destruct (decide (k = i)) as [->|Hne].
  - apply Hget. exact Hr.
  - unfold mget. rewrite Hc by exact Hne. rewrite Hcols by exact Hne. reflexivity.
Qed.

(** The starting point: both matrices hold the same positions. *)
Lemma random_start_spec c (g : rand_gen_t) :
  let st := random_start c g in
  snd (fst st) = fst (fst st)
  /\ has_shape (dims_int (config.dims c)) (config.n_particles c) (fst (fst st)).
Proof.
  unfold random_start.
  apply (for_range_inv (fun st : mat D * mat D * rand_gen_t =>
           snd (fst st) = fst (fst st)
           /\ has_shape (dims_int (config.dims c)) (config.n_particles c) (fst (fst st)))).
  - split; [reflexivity|apply has_shape_zeros].
  - intros i st _ Hst.
    apply (for_range_inv (fun st : mat D * mat D * rand_gen_t =>
           snd (fst st) = fst (fst st)
           /\ has_shape (dims_int (config.dims c)) (config.n_particles c) (fst (fst st)))).
    + exact Hst.
    + intros d [[Ro Rn] g'] _ [Heq Hs]. simpl in Heq, Hs. subst Rn.
      destruct (centered g') as [x g'']. simpl.
      split; [reflexivity|apply has_shape_mset; exact Hs].
Qed.

(** The move, with its intermediate values named. *)
Lemma metropolis_move_unfold i (Psi_old : D) (s : MCState D) :
  let c := _config (solver s) in
  let trial := fst (propose c i (R_old s) (R_new s) (rand_gen s)) in
  let g1 := snd (propose c i (R_old s) (R_new s) (rand_gen s)) in
  let self1 := update_distance_matrix (solver s) i trial in
  let Psi_new := Psi self1 trial in
  let u := fst (unif g1) in
  let accept := (u <=? acceptance_ratio Psi_new Psi_old)%D in
  let self2 := if accept then self1 else update_distance_matrix self1 i (R_old s) in
  let Rn := if accept then trial else copy_particle c i (R_old s) trial in
  let el := E_local self2 Rn in
  metropolis_move i (Psi_old, s) =
  (if accept then Psi_new else Psi_old,
   {| solver := snd (fst el);
      R_old := if accept then copy_particle c i trial (R_old s) else R_old s;
      R_new := snd el;
      E_sum := (E_sum s + fst (fst el))%D;
      E2_sum := (E2_sum s + fst (fst el) * fst (fst el))%D;
      accepted_moves := if accept then (accepted_moves s + 1)%Z else accepted_moves s;
      rand_gen := snd (unif g1) |}).
Proof.
  unfold metropolis_move. simpl.
  destruct (propose _ i (R_old s) (R_new s) (rand_gen s)) as [trial g1]. simpl.
  destruct (unif g1) as [u g2]. simpl.
  destruct (u <=? acceptance_ratio _ Psi_old)%D.
  - destruct (E_local _ trial) as [[E self'] R']. reflexivity.
  - destruct (E_local _ _) as [[E self'] R']. reflexivity.
Qed.

End MoveFacts.

(** ** One move *)

Section Move.
Context {D : Type} `{!Double D, !MathLib D, !RandomEngine D}.
Implicit Types (M R : mat D) (self : VMCSolver D) (c : VMCConfiguration D).

(** The trial configuration and the cache updated for it. *)
Lemma trial_spec c i (s : MCState D) :
  between_moves c s -> i < config.n_particles c ->
  let trial := fst (propose c i (R_old s) (R_new s) (rand_gen s)) in
  let self1 := update_distance_matrix (solver s) i trial in
  has_shape (dims_int (config.dims c)) (config.n_particles c) trial
  /\ (forall k, k <> i -> col trial k = col (R_old s) k)
  /\ has_shape (n_of self1) (n_of self1) (dist self1)
  /\ cache_consistent self1 trial.
Proof.
  intros (Hc & [Hshape Hlow] & HR & Hnew & Hcache) Hi. simpl.
  destruct (propose_spec c i (R_old s) (R_new s) (rand_gen s) _ _
              ltac:(rewrite Hnew; exact HR)) as [Htrial Hcols].
  assert (forall k, k <> i ->
            col (fst (propose c i (R_old s) (R_new s) (rand_gen s))) k = col (R_old s) k)
    as Hcols'.
  { intros k Hk. rewrite (Hcols k Hk), Hnew. reflexivity. }
  clear Hcols. rename Hcols' into Hcols.
  split; [exact Htrial|]. split; [exact Hcols|].
  split; [exact (proj1 (update_spec (solver s) i _ Hshape))|].
  apply update_consistent; [exact Hshape|].
  intros k j Hkj Hk Hj. rewrite (Hcache k j Hkj). symmetry.
  apply distance_ext; apply Hcols; assumption.
Qed.

(** The move in closed form.  Accepted: the trial configuration, its cache
    and its wavefunction value become the current ones.  Rejected: the
    state is the one before the move, but for the sums and the engine. *)
Lemma metropolis_move_closed c i (Psi_old : D) (s : MCState D) :
  between_moves c s -> i < config.n_particles c ->
  let trial := fst (propose c i (R_old s) (R_new s) (rand_gen s)) in
  let g1 := snd (propose c i (R_old s) (R_new s) (rand_gen s)) in
  let self1 := update_distance_matrix (solver s) i trial in
  let Psi_new := Psi self1 trial in
  metropolis_move i (Psi_old, s) =
  if (fst (unif g1) <=? acceptance_ratio Psi_new Psi_old)%D
  then
    let E := fst (fst (E_local self1 trial)) in
    (Psi_new,
     {| solver := self1; R_old := trial; R_new := trial;
        E_sum := (E_sum s + E)%D; E2_sum := (E2_sum s + E * E)%D;
        accepted_moves := (accepted_moves s + 1)%Z; rand_gen := snd (unif g1) |})
  else
    let E := fst (fst (E_local (solver s) (R_old s))) in
    (Psi_old,
     {| solver := solver s; R_old := R_old s; R_new := R_old s;
        E_sum := (E_sum s + E)%D; E2_sum := (E2_sum s + E * E)%D;
        accepted_moves := accepted_moves s; rand_gen := snd (unif g1) |}).
Proof.
  intros Hbetween Hi.
  destruct (trial_spec c i s Hbetween Hi) as (Htrial & Hcols & Hshape1 & Hcache1).
  destruct Hbetween as (Hc & [Hshape Hlow] & HR & Hnew & Hcache).
  cbv zeta. rewrite metropolis_move_unfold. cbv zeta. rewrite Hc.
  destruct (fst (unif _) <=? acceptance_ratio _ Psi_old)%D.
  - rewrite (E_local_restores _ _ (or_intror (conj Hshape1 Hcache1))). simpl.
    rewrite (copy_particle_eq c i _ (R_old s) _ Htrial HR Hi)
      by (intros k Hk; symmetry; apply Hcols; exact Hk).
    reflexivity.
  - rewrite (copy_particle_eq c i (R_old s) _ _ HR Htrial Hi Hcols).
    rewrite update_update by exact Hshape.
    rewrite (update_same _ i _ Hshape Hcache).
    rewrite (E_local_restores _ _ (or_intror (conj Hshape Hcache))). simpl.
    reflexivity.
Qed.

(** A move leads from a state between moves to a state between moves. *)
Lemma between_moves_step c i (Psi_old : D) (s : MCState D) :
  between_moves c s -> i < config.n_particles c ->
  between_moves c (snd (metropolis_move i (Psi_old, s))).
Proof.
  intros Hbetween Hi.
  rewrite (metropolis_move_closed c i Psi_old s Hbetween Hi).
  destruct (trial_spec c i s Hbetween Hi) as (Htrial & Hcols & Hshape1 & Hcache1).
  destruct Hbetween as (Hc & [Hshape Hlow] & HR & Hnew & Hcache).
  destruct (fst (unif _) <=? _)%D; cbv zeta; unfold between_moves;
    cbn [snd solver R_old R_new].
  2: { exact (conj Hc (conj (conj Hshape Hlow) (conj HR (conj eq_refl Hcache)))). }
  split; [exact Hc|]. split.
  - split; [exact Hshape1|]. intros r k Hrk. rewrite update_lower by exact Hrk.
    apply Hlow. exact Hrk.
  - split; [exact Htrial|]. split; [reflexivity|exact Hcache1].
Qed.

Lemma solver_wf_new c (alpha0 beta0 : D) : solver_wf (VMCSolver_new c alpha0 beta0).
Proof.
  split.
  - apply has_shape_zeros.
  - intros r k _. apply mget_zeros.
Qed.

Lemma between_moves_start c self (g : rand_gen_t) :
  _config self = c -> solver_wf self -> between_moves c (mc_start self g).
Proof.
  intros Hc [Hshape Hlow]. unfold mc_start.
  pose proof (random_start_spec (_config self) g) as [Heq HR].
  destruct (random_start (_config self) g) as [[Ro Rn] g']. simpl in Heq, HR. subst Rn.
  destruct (initialize_spec self Ro Hshape) as [Hshape' Hget].
  unfold between_moves. simpl. rewrite <- Hc.
  split; [reflexivity|]. split; [split|].
  - exact Hshape'.
  - intros r k Hrk. rewrite initialize_lower by exact Hrk. apply Hlow. exact Hrk.
  - split; [exact HR|]. split; [reflexivity|].
    intros i j Hij. rewrite Hget. rewrite decide_True by exact Hij. reflexivity.
Qed.

Lemma reachable_between_moves c (s : MCState D) :
  reachable c s -> between_moves c s.
Proof.
  induction 1 as [self g Hc Hwf|i Psi_old s Hreach IH Hi].
  - apply between_moves_start; assumption.
  - apply between_moves_step; assumption.
Qed.

End Move.

(** ** The walk *)

Section Walk.
Context {D : Type} `{!Double D, !MathLib D, !RandomEngine D}.
Implicit Types (M R : mat D) (self : VMCSolver D) (c : VMCConfiguration D).

Lemma reachable_cycle c (s : MCState D) : reachable c s -> reachable c (mc_cycle s).
Proof.
  intros Hreach. unfold mc_cycle.
  pose proof (reachable_between_moves c s Hreach) as (Hc & _).
  apply (for_range_inv (fun st : D * MCState D => reachable c (snd st))).
  - exact Hreach.
  - intros i [Psi_old s'] Hi Hs'. simpl in Hs'.
    apply reachable_move; [exact Hs'|].
    unfold n_of in Hi. rewrite Hc in Hi. lia.
Qed.

Lemma reachable_walk c n_cycles (s : MCState D) :
  reachable c s -> reachable c (mc_walk n_cycles s).
Proof.
  intros Hreach. unfold mc_walk.
  apply (for_range_inv (reachable c)); [exact Hreach|].
  intros _ t _ Ht. apply reachable_cycle. exact Ht.
Qed.

(** The state in which [run_MC] leaves its loops is one of the reachable
    states: it returns [mc_results] of it. *)
Lemma run_MC_reachable self n_cycles (g : rand_gen_t) :
  solver_wf self ->
  reachable (_config self) (mc_walk n_cycles (mc_start self g))
  /\ run_MC self n_cycles g =
     (mc_results n_cycles (mc_walk n_cycles (mc_start self g)),
      solver (mc_walk n_cycles (mc_start self g)),
      rand_gen (mc_walk n_cycles (mc_start self g))).
Proof.
  intros Hwf. split; [|reflexivity].
  apply reachable_walk. apply reachable_start; [reflexivity|exact Hwf].
Qed.

(** The numeric kinetic energy writes above the diagonal only, in any state. *)
Lemma E_kinetic_lower self R r k :
  k <= r -> mget (dist (snd (fst (E_kinetic self R)))) r k = mget (dist self) r k.
Proof.
  intros Hrk. unfold E_kinetic.
  match goal with
  | |- context [for_range 0 ?n ?body ?s] =>
      assert (mget (dist (snd (fst (for_range 0 n body s)))) r k = mget (dist self) r k)
        as Hloop
  end.
  { apply (for_range_inv (fun st : D * VMCSolver D * mat D =>
             mget (dist (snd (fst st))) r k = mget (dist self) r k)).
    - reflexivity.
    - intros i st _ Hst.
      apply (for_range_inv (fun st : D * VMCSolver D * mat D =>
               mget (dist (snd (fst st))) r k = mget (dist self) r k)).
      + exact Hst.
      + intros d [[Ek s'] R'] _ Hs. simpl in Hs. simpl.
        rewrite !update_if_interacting_lower by exact Hrk. exact Hs. }
  destruct (for_range 0 _ _ _) as [[Ek s'] R']. exact Hloop.
Qed.

End Walk.

(** ** The cache between the moves *)

Section CacheInvariant.
Context {D : Type} `{!Double D, !MathLib D, !RandomEngine D}.
Implicit Types (M R : mat D) (self : VMCSolver D) (c : VMCConfiguration D).

Lemma dist_min_max_consistent self R i j :
  cache_consistent self R -> i < n_of self -> j < n_of self -> i <> j ->
  dist_min_max self i j = pair_distance R i j.
Proof.
  intros Hcache Hi Hj Hne. unfold dist_min_max, pair_distance.
  apply Hcache. lia.
Qed.

(** C4.  In every state of the walk between two moves, the read of the
    cache normalised as the code does it, [dist(min(i, j), max(i, j))], gives
    the same value for the pair [(i, j)] and the pair [(j, i)] of two
    particles, and this value is the distance recomputed from the accepted
    configuration [R_old] (which is also [R_new] there).  Within a move, once
    the cache is updated for the proposal (line 207), the same holds of the
    trial configuration, which is the one in effect until the decision. *)
Theorem cache_symmetric_and_current c (s : MCState D) :
  reachable c s ->
  forall i j, i < config.n_particles c -> j < config.n_particles c -> i <> j ->
    dist_min_max (solver s) i j = dist_min_max (solver s) j i
    /\ dist_min_max (solver s) i j = pair_distance (R_old s) i j
    /\ R_new s = R_old s
    /\ (forall p, p < config.n_particles c ->
          let trial := fst (propose c p (R_old s) (R_new s) (rand_gen s)) in
          let self1 := update_distance_matrix (solver s) p trial in
          dist_min_max self1 i j = dist_min_max self1 j i
          /\ dist_min_max self1 i j = pair_distance trial i j).
Proof.
  intros Hreach i j Hi Hj Hne.
  pose proof (reachable_between_moves c s Hreach) as Hbetween.
  assert (forall self, dist_min_max self i j = dist_min_max self j i) as Hsym.
  { intros self. unfold dist_min_max. rewrite Nat.min_comm, Nat.max_comm. reflexivity. }
  split; [apply Hsym|].
  destruct Hbetween as (Hc & Hwf & HR & Hnew & Hcache).
  assert (n_of (solver s) = config.n_particles c) as Hn by (unfold n_of; rewrite Hc; reflexivity).
  split; [apply dist_min_max_consistent; [exact Hcache|lia|lia|exact Hne]|].
  split; [exact Hnew|].
  intros p Hp trial self1. split; [apply Hsym|].
  destruct (trial_spec c p s (conj Hc (conj Hwf (conj HR (conj Hnew Hcache)))) Hp)
    as (_ & _ & _ & Hcache1).
  apply dist_min_max_consistent; [exact Hcache1| | |exact Hne].
  - change (n_of self1) with (n_of (solver s)). lia.
  - change (n_of self1) with (n_of (solver s)). lia.
Qed.

(** C10.  The constructor fills the cache with zeros; [initialize_distance_matrix],
    [update_distance_matrix] (for any index) and [E_kinetic] leave every entry
    [(r, k)] with [k <= r] as it was, whatever the state.  So in every state
    of the walk between two moves, for particles [i < j]: the entries [(j, i)]
    and [(i, i)] are zero, and it is the read [dist(min, max)] of the analytic
    local energy that gives the distance, in either order of the pair. *)
Theorem writes_above_diagonal_only :
  (forall c (alpha0 beta0 : D) r k, mget (dist (VMCSolver_new c alpha0 beta0)) r k = d0)
  /\ (forall self R r k, k <= r ->
        mget (dist (initialize_distance_matrix self R)) r k = mget (dist self) r k)
  /\ (forall self p R r k, k <= r ->
        mget (dist (update_distance_matrix self p R)) r k = mget (dist self) r k)
  /\ (forall self R r k, k <= r ->
        mget (dist (snd (fst (E_kinetic self R)))) r k = mget (dist self) r k)
  /\ (forall c (s : MCState D), reachable c s ->
        forall i j, i < j < config.n_particles c ->
          mget (dist (solver s)) j i = d0
          /\ mget (dist (solver s)) i i = d0
          /\ dist_min_max (solver s) j i = distance (R_old s) i j
          /\ dist_min_max (solver s) i j = distance (R_old s) i j).
Proof.
  split; [intros; apply mget_zeros|].
  split; [intros; apply initialize_lower; assumption|].
  split; [intros; apply update_lower; assumption|].
  split; [intros; apply E_kinetic_lower; assumption|].
  intros c s Hreach i j Hij.
  destruct (reachable_between_moves c s Hreach) as (Hc & [Hshape Hlow] & HR & Hnew & Hcache).
  assert (n_of (solver s) = config.n_particles c) as Hn by (unfold n_of; rewrite Hc; reflexivity).
  split; [apply Hlow; lia|]. split; [apply Hlow; lia|].
  unfold dist_min_max.
  rewrite (Nat.min_r j i), (Nat.max_l j i), (Nat.min_l i j), (Nat.max_r i j) by lia.
  split; apply Hcache; lia.
Qed.

End CacheInvariant.

Module WalkExample.
Import Binary64 Examples.

Lemma start_reachable : reachable cfg_plane start.
Proof. apply reachable_start; [reflexivity|apply solver_wf_new]. Qed.

Lemma moved_reachable : reachable cfg_plane moved.
Proof.
  apply reachable_move; [exact start_reachable|].
  change (config.n_particles cfg_plane) with 3. lia.
Qed.

Lemma cache_symmetric_and_current_witness :
  dist_min_max (solver moved) 2 1 = dist_min_max (solver moved) 1 2
  /\ dist_min_max (solver moved) 2 1 = pair_distance (R_old moved) 2 1.
Proof.
  assert (2 < config.n_particles cfg_plane) as H2 by (change (config.n_particles cfg_plane) with 3; lia).
  assert (1 < config.n_particles cfg_plane) as H1 by (change (config.n_particles cfg_plane) with 3; lia).
  destruct (cache_symmetric_and_current cfg_plane moved moved_reachable 2 1 H2 H1 ltac:(lia))
    as (Hsym & Hdist & _).
  exact (conj Hsym Hdist).
Defined.

(** Within the first move of particle 1 from [start], after the update of
    line 207 and before the decision: the cache holds the distance of
    particles 0 and 1 in the trial configuration, which is not their distance
    in the accepted configuration [R_old]. *)
Lemma cache_follows_trial_within_move :
  let trial := fst (propose cfg_plane 1 (R_old start) (R_new start) (rand_gen start)) in
  let self1 := update_distance_matrix (solver start) 1 trial in
  dist_min_max self1 0 1 = pair_distance trial 0 1
  /\ (dist_min_max self1 0 1 =? pair_distance (R_old start) 0 1)%float = false
  /\ dist_min_max self1 0 1 <> pair_distance (R_old start) 0 1.
Proof.
  cbv zeta. split; [vm_compute; reflexivity|].
  split; [vm_compute; reflexivity|].
  intros Heq.
  assert ((dist_min_max
             (update_distance_matrix (solver start) 1
                (fst (propose cfg_plane 1 (R_old start) (R_new start) (rand_gen start))))
             0 1
           =? pair_distance (R_old start) 0 1)%float = false) as Hne
    by (vm_compute; reflexivity).
  rewrite Heq in Hne. vm_compute in Hne. discriminate.
Qed.

Lemma writes_above_diagonal_only_witness :
  mget (dist (solver moved)) 2 1 = 0%float
  /\ dist_min_max (solver moved) 2 1 = distance (R_old moved) 1 2.
Proof.
  destruct (@writes_above_diagonal_only float _ _ _) as (_ & _ & _ & _ & Hwalk).
  assert (1 < 2 < config.n_particles cfg_plane) as H12 by (change (config.n_particles cfg_plane) with 3; lia).
  destruct (Hwalk cfg_plane moved moved_reachable 1 2 H12) as (Hzero & _ & Hread & _).
  exact (conj Hzero Hread).
Defined.

End WalkExample.

(** ** The Metropolis decision *)

Section Decision.
Context {D : Type} `{!Double D, !MathLib D, !RandomEngine D}.
Implicit Types (M R : mat D) (self : VMCSolver D) (c : VMCConfiguration D).

Lemma metropolis_move_decision c i (Psi_old : D) (s : MCState D) :
  reachable c s -> i < config.n_particles c ->
  let trial := fst (propose c i (R_old s) (R_new s) (rand_gen s)) in
  let g1 := snd (propose c i (R_old s) (R_new s) (rand_gen s)) in
  let self1 := update_distance_matrix (solver s) i trial in
  let Psi_new := Psi self1 trial in
  let ratio := (Psi_new * Psi_new / (Psi_old * Psi_old))%D in
  let u := fst (unif g1) in
  let result := metropolis_move i (Psi_old, s) in
  ((d0 <=? u)%D = true /\ (u <? d1)%D = true)
  /\ rand_gen (snd result) = snd (unif g1)
  /\ ((u <=? ratio)%D = true ->
        fst result = Psi_new
        /\ R_old (snd result) = trial /\ R_new (snd result) = trial
        /\ solver (snd result) = self1
        /\ accepted_moves (snd result) = (accepted_moves s + 1)%Z)
  /\ ((u <=? ratio)%D = false ->
        fst result = Psi_old
        /\ R_old (snd result) = R_old s /\ R_new (snd result) = R_old s
        /\ solver (snd result) = solver s
        /\ accepted_moves (snd result) = accepted_moves s)
  /\ cache_consistent (solver (snd result)) (R_old (snd result))
  /\ (Psi_old = Psi (solver s) (R_old s) ->
        fst result = Psi (solver (snd result)) (R_old (snd result))).
Proof.
  intros Hreach Hi trial g1 self1 Psi_new ratio u result.
  pose proof (reachable_between_moves c s Hreach) as Hbetween.
  pose proof (between_moves_step c i Psi_old s Hbetween Hi) as (_ & _ & _ & _ & Hcache').
  pose proof (metropolis_move_closed c i Psi_old s Hbetween Hi) as Hclosed.
  cbv zeta in Hclosed. fold trial g1 self1 Psi_new in Hclosed.
  unfold acceptance_ratio in Hclosed. fold ratio u in Hclosed. fold result in Hclosed, Hcache'.
  split; [apply unif_range|].
  split; [rewrite Hclosed; destruct (u <=? ratio)%D; reflexivity|].
  split; [intros Hacc; rewrite Hclosed, Hacc; simpl; auto|].
  split; [intros Hrej; rewrite Hclosed, Hrej; simpl; auto|].
  split; [exact Hcache'|].
  intros HPsi. rewrite Hclosed.
  destruct (u <=? ratio)%D; simpl; [reflexivity|exact HPsi].
Qed.

End Decision.

(** C5.  A move of particle [i] from a state between two moves.  The ratio of
    the test is [Psi_new * Psi_new / (Psi_old * Psi_old)], where [Psi_new] is
    the wavefunction at the trial configuration (with the cache updated for
    it) and [Psi_old] the value the loop carries, which is the wavefunction at
    the current configuration and stays so after the move; in the real
    numbers this quotient is [(Psi_new / Psi_old)^2] (in binary64 it is not:
    the two squares can underflow where the quotient of the wavefunctions
    does not).  One value [u] is drawn
    from [unif], it lies in [0, 1), and the move is accepted exactly when
    [u <= ratio].  Accepted: the trial positions and [Psi_new] become the
    current ones, the cache is the one updated for the trial, and the counter
    of accepted moves grows by one.  Rejected: [R_new] is [R_old] again,
    [Psi_old] and the counter are kept, and the cache, updated again for
    [R_old], is the one before the move.  Either way the cache holds the
    distances of the current configuration. *)
Theorem metropolis_move_law :
  (forall (D : Type) (HD : Double D) (HM : MathLib D) (HR : RandomEngine D)
          (c : VMCConfiguration D) (i : nat) (Psi_old : D) (s : MCState D),
     reachable c s -> i < config.n_particles c ->
     let trial := fst (propose c i (R_old s) (R_new s) (rand_gen s)) in
     let g1 := snd (propose c i (R_old s) (R_new s) (rand_gen s)) in
     let self1 := update_distance_matrix (solver s) i trial in
     let Psi_new := Psi self1 trial in
     let ratio := (Psi_new * Psi_new / (Psi_old * Psi_old))%D in
     let u := fst (unif g1) in
     let result := metropolis_move i (Psi_old, s) in
     ((d0 <=? u)%D = true /\ (u <? d1)%D = true)
     /\ rand_gen (snd result) = snd (unif g1)
     /\ ((u <=? ratio)%D = true ->
           fst result = Psi_new
           /\ R_old (snd result) = trial /\ R_new (snd result) = trial
           /\ solver (snd result) = self1
           /\ accepted_moves (snd result) = (accepted_moves s + 1)%Z)
     /\ ((u <=? ratio)%D = false ->
           fst result = Psi_old
           /\ R_old (snd result) = R_old s /\ R_new (snd result) = R_old s
           /\ solver (snd result) = solver s
           /\ accepted_moves (snd result) = accepted_moves s)
     /\ cache_consistent (solver (snd result)) (R_old (snd result))
     /\ (Psi_old = Psi (solver s) (R_old s) ->
           fst result = Psi (solver (snd result)) (R_old (snd result))))
  /\ (forall Psi_new Psi_old : R,
        @acceptance_ratio R Exact.R_Double Psi_new Psi_old = ((Psi_new / Psi_old) ^ 2)%R).
Proof.
  split.
  - intros D HD HM HR c i Psi_old s Hreach Hi.
    exact (metropolis_move_decision c i Psi_old s Hreach Hi).
  - intros x y. unfold acceptance_ratio. simpl.
    unfold Rdiv. rewrite Rinv_mult. ring.
Qed.

Module MoveExample.
Import Binary64 Examples WalkExample.

(* The first move of particle 1 from [start]: the draw is 0, the move is
   accepted. *)
Lemma metropolis_move_law_witness :
  accepted_moves moved = 1%Z /\ cache_consistent (solver moved) (R_old moved).
Proof.
  destruct metropolis_move_law as [Hlaw _].
  assert (1 < config.n_particles cfg_plane) as H1 by (change (config.n_particles cfg_plane) with 3; lia).
  destruct (Hlaw float _ _ _ cfg_plane 1 (Psi (solver start) (R_old start)) start
              start_reachable H1) as (_ & _ & Haccept & _ & Hcache & _).
  split; [|exact Hcache].
  destruct Haccept as (_ & _ & _ & _ & Hcount); [vm_compute; reflexivity|].
  etransitivity; [exact Hcount|]. vm_compute. reflexivity.
Defined.

(** In binary64 the ratio of line 212 is not the square of the quotient.
    One particle on a line under a narrow Gaussian starts at [x = 1]; the
    proposal is the mirror point [x = -1], where the wavefunction has the
    same value, about 1.9e-174: finite and not zero.  The quotient of the two
    wavefunctions is 1 and so is its square, and the draw, 0.5, is below it.
    The code squares first: both squares underflow to zero, the ratio is
    0 / 0, not a number, and the move is rejected.  The same on two values
    alone, [2^-541] over [2^-540]: the square of the quotient is 0.25, the
    quotient of the squares is not a number, and a draw of 0.125 is accepted
    by the one and rejected by the other. *)
Lemma ratio_of_squares_underflows :
  let s := start_narrow in
  let Psi_old := Psi (solver s) (R_old s) in
  let trial := fst (propose cfg_narrow 0 (R_old s) (R_new s) (rand_gen s)) in
  let g1 := snd (propose cfg_narrow 0 (R_old s) (R_new s) (rand_gen s)) in
  let Psi_new := Psi (update_distance_matrix (solver s) 0 trial) trial in
  let u := fst (unif g1) in
  let result := metropolis_move 0 (Psi_old, s) in
  reachable cfg_narrow s
  /\ ((0 <? Psi_old)%float = true /\ (Psi_old <? 1)%float = true)
  /\ ((0 <? Psi_new)%float = true /\ (Psi_new <? 1)%float = true)
  /\ (u <=? (Psi_new / Psi_old) * (Psi_new / Psi_old))%float = true
  /\ PrimFloat.is_nan (Psi_new * Psi_new / (Psi_old * Psi_old))%float = true
  /\ (u <=? Psi_new * Psi_new / (Psi_old * Psi_old))%float = false
  /\ accepted_moves (snd result) = accepted_moves s
  /\ R_old (snd result) = R_old s /\ R_new (snd result) = R_old s
  /\ (0.125 <=? (0x1p-541 / 0x1p-540) * (0x1p-541 / 0x1p-540))%float = true
  /\ (0.125 <=? acceptance_ratio 0x1p-541 0x1p-540)%float = false.
Proof.
  cbv zeta. split.
  - apply reachable_start; [reflexivity|].
    exact (solver_wf_new cfg_narrow 0%float 0%float).
  - vm_compute. repeat split.
Qed.

End MoveExample.

(** ** Loops that return *)

Lemma for_each_ret_app {A S R : Type} (l1 l2 : list A) (body : A -> S -> flow S R) (s : S) :
  for_each_ret (l1 ++ l2) body s =
  match for_each_ret l1 body s with
  | Continue s' => for_each_ret l2 body s'
  | Return r => Return r
  end.
Proof.
  revert s. induction l1 as [|x l1 IH]; intros s; simpl; [reflexivity|].
  destruct (body x s); [apply IH|reflexivity].
Qed.

Lemma for_each_ret_map {A B S R : Type} (f : A -> B) (l : list A)
    (body : B -> S -> flow S R) (s : S) :
  for_each_ret (map f l) body s = for_each_ret l (fun x => body (f x)) s.
Proof.
  revert s. induction l as [|x l IH]; intros s; simpl; [reflexivity|].
  destruct (body (f x) s); [apply IH|reflexivity].
Qed.

Lemma for_each_ret_ext {A S R : Type} (l : list A) (f g : A -> S -> flow S R) (s : S) :
  (forall x t, f x t = g x t) -> for_each_ret l f s = for_each_ret l g s.
Proof.
  intros Hfg. revert s. induction l as [|x l IH]; intros s; simpl; [reflexivity|].
  rewrite Hfg. destruct (g x s); [apply IH|reflexivity].
Qed.

(** Two nested loops are one loop over the pairs. *)
Lemma for_each_ret_nested {S R : Type} (l : list nat) (inner : nat -> list nat)
    (body : nat * nat -> S -> flow S R) (s : S) :
  for_each_ret l (fun i s' => for_each_ret (inner i) (fun j => body (i, j)) s') s
  = for_each_ret (flat_map (fun i => map (pair i) (inner i)) l) body s.
Proof.
  revert s. induction l as [|i l IH]; intros s; simpl; [reflexivity|].
  rewrite for_each_ret_app, for_each_ret_map.
  destruct (for_each_ret (inner i) _ s); [apply IH|reflexivity].
Qed.

(** A loop that returns [r] at the first element passing [test], and folds
    [step] until then. *)
Lemma for_each_ret_test {A S R : Type} (test : A -> bool) (step : S -> A -> S) (r : R)
    (l : list A) (s : S) :
  for_each_ret l (fun x s' => if test x then Return r else Continue (step s' x)) s
  = if existsb test l then Return r else Continue (fold_left step l s).
Proof.
  revert s. induction l as [|x l IH]; intros s; simpl; [reflexivity|].
  destruct (test x); simpl; [reflexivity|apply IH].
Qed.

Lemma in_pairs (n i j : nat) : i < j < n -> In (i, j) (pairs n).
Proof.
  intros Hij. unfold pairs. apply in_flat_map. exists i. split.
  - apply in_seq. lia.
  - apply in_map. apply in_seq. lia.
Qed.

Lemma pairs_in (n i j : nat) : In (i, j) (pairs n) -> i < j < n.
Proof.
  unfold pairs. rewrite in_flat_map. intros (k & Hk & Hin).
  apply in_map_iff in Hin. destruct Hin as (j' & [= -> ->] & Hj).
  apply in_seq in Hk. apply in_seq in Hj. lia.
Qed.

(** ** The two-body factor and the interaction potential *)

Section Jastrow.
Context {D : Type} `{!Double D}.
Implicit Types (self : VMCSolver D).

Lemma overlap_true self :
  overlap self = true <->
  exists i j, i < j < n_of self
              /\ (mget (dist self) i j <=? config.a (_config self))%D = true.
Proof.
  unfold overlap. rewrite existsb_exists. split.
  - intros ([i j] & Hin & Hle). exists i, j. split; [apply pairs_in; exact Hin|exact Hle].
  - intros (i & j & Hij & Hle). exists (i, j). split; [apply in_pairs; exact Hij|exact Hle].
Qed.

Lemma Psi_f_refines self : Psi_f self = jastrow_spec self.
Proof.
  unfold Psi_f, jastrow_spec, overlap, for_range_ret.
  destruct (config.interaction (_config self)); [|reflexivity].
  rewrite Nat.sub_0_r.
  rewrite (for_each_ret_nested (seq 0 (n_of self))
             (fun i => seq (i + 1) (n_of self - (i + 1)))
             (fun p f =>
                if (mget (dist self) (fst p) (snd p) <=? config.a (_config self))%D
                then Return d0
                else Continue (f * (d1 - config.a (_config self)
                                         / mget (dist self) (fst p) (snd p)))%D)).
  fold (pairs (n_of self)).
  rewrite (for_each_ret_test
             (fun p => (mget (dist self) (fst p) (snd p) <=? config.a (_config self))%D)
             (fun f p => (f * (d1 - config.a (_config self)
                                    / mget (dist self) (fst p) (snd p)))%D)).
  destruct (existsb _ _); reflexivity.
Qed.

(** C6.  [Psi_f] is the two-body factor of the specification: with
    interaction on it is exactly zero as soon as one cached distance of a
    pair [i < j] is at or below the hard-sphere radius (so, on a cache that
    holds the distances of the configuration [R], as soon as two particles of
    [R] are that close), otherwise it is the product, over the pairs [i < j]
    in the order of the loops, of [1 - a / dist(i, j)]; with interaction off
    it is 1. *)
Theorem Psi_f_is_jastrow_factor `{!MathLib D} self :
  Psi_f self = jastrow_spec self
  /\ (config.interaction (_config self) = InteractionType.ON ->
      (exists i j, i < j < n_of self
                   /\ (mget (dist self) i j <=? config.a (_config self))%D = true) ->
      Psi_f self = d0)
  /\ (forall R, cache_consistent self R ->
      config.interaction (_config self) = InteractionType.ON ->
      (exists i j, i < j < n_of self
                   /\ (distance R i j <=? config.a (_config self))%D = true) ->
      Psi_f self = d0)
  /\ (config.interaction (_config self) = InteractionType.ON ->
      (forall i j, i < j < n_of self ->
                   (mget (dist self) i j <=? config.a (_config self))%D = false) ->
      Psi_f self =
      fold_left
        (fun f p => (f * (d1 - config.a (_config self) / mget (dist self) (fst p) (snd p)))%D)
        (pairs (n_of self)) d1)
  /\ (config.interaction (_config self) = InteractionType.OFF -> Psi_f self = d1).
Proof.
  split; [apply Psi_f_refines|].
  rewrite Psi_f_refines. unfold jastrow_spec.
  assert (config.interaction (_config self) = InteractionType.ON ->
          (exists i j, i < j < n_of self
             /\ (mget (dist self) i j <=? config.a (_config self))%D = true) ->
          match config.interaction (_config self) with
          | InteractionType.ON =>
              if overlap self then d0
              else fold_left
                     (fun f p => (f * (d1 - config.a (_config self)
                                            / mget (dist self) (fst p) (snd p)))%D)
                     (pairs (n_of self)) d1
          | InteractionType.OFF => d1
          end = d0) as Hzero.
  { intros -> Hex. apply overlap_true in Hex. rewrite Hex. reflexivity. }
  split; [exact Hzero|]. split; [|split].
  - intros R Hcache Hon (i & j & Hij & Hle). apply Hzero; [exact Hon|].
    exists i, j. split; [exact Hij|]. rewrite (Hcache i j Hij). exact Hle.
  - intros -> Hall.
    destruct (overlap self) eqn:Hov; [|reflexivity].
    apply overlap_true in Hov. destruct Hov as (i & j & Hij & Hle).
    rewrite (Hall i j Hij) in Hle. discriminate.
  - intros ->. reflexivity.
Qed.

End Jastrow.

(** ** The order of binary64 *)

Module Binary64Order.
Import Binary64.

Lemma SFcompare_key (x y : spec_float) :
  x <> S754_nan -> y <> S754_nan ->
  exists c, SFcompare x y = Some c
            /\ match c with
               | Lt => lex_lt (key x) (key y)
               | Eq => lex_eq (key x) (key y)
               | Gt => lex_lt (key y) (key x)
               end.
Proof.
  intros Hx Hy.
  destruct x as [sx|sx| |sx mx ex]; [| |congruence|];
    (destruct y as [sy|sy| |sy my ey]; [| |congruence|]);
    try (destruct sx); try (destruct sy);
    try (eexists; split; [reflexivity|]; unfold lex_lt, lex_eq; simpl; lia).
  - simpl. change (PosDef.Pos.compare_cont Eq mx my) with (Pos.compare mx my).
    destruct (Z.compare_spec ex ey) as [->|Hlt|Hgt].
    + destruct (Pos.compare_spec mx my) as [->|Hm|Hm];
        (eexists; split; [reflexivity|]; unfold lex_lt, lex_eq; simpl; lia).
    + eexists; split; [reflexivity|]; unfold lex_lt; simpl; lia.
    + eexists; split; [reflexivity|]; unfold lex_lt; simpl; lia.
  - simpl. change (PosDef.Pos.compare_cont Eq mx my) with (Pos.compare mx my).
    destruct (Z.compare_spec ex ey) as [->|Hlt|Hgt].
    + destruct (Pos.compare_spec mx my) as [->|Hm|Hm];
        (eexists; split; [reflexivity|]; unfold lex_lt, lex_eq; simpl; lia).
    + eexists; split; [reflexivity|]; unfold lex_lt; simpl; lia.
    + eexists; split; [reflexivity|]; unfold lex_lt; simpl; lia.
Qed.

Lemma SFcompare_nan_l (y : spec_float) : SFcompare S754_nan y = None.
Proof. reflexivity. Qed.

Lemma SFcompare_nan_r (x : spec_float) : SFcompare x S754_nan = None.
Proof. destruct x; reflexivity. Qed.

(** [x <= y] holds of numbers only, and says that the key of [y] is not
    below the key of [x]. *)
Lemma SFleb_key (x y : spec_float) :
  SFleb x y = true <->
  x <> S754_nan /\ y <> S754_nan /\ ~ lex_lt (key y) (key x).
Proof.
  unfold SFleb. split.
  - intros Hle.
    assert (x <> S754_nan) as Hx by (intros ->; rewrite SFcompare_nan_l in Hle; discriminate).
    assert (y <> S754_nan) as Hy by (intros ->; rewrite SFcompare_nan_r in Hle; discriminate).
    split; [exact Hx|]. split; [exact Hy|].
    destruct (SFcompare_key x y Hx Hy) as (c & Hc & Hkey). rewrite Hc in Hle.
    destruct c; try discriminate; unfold lex_lt, lex_eq in *; lia.
  - intros (Hx & Hy & Hkey).
    destruct (SFcompare_key x y Hx Hy) as (c & -> & Hc).
    destruct c; try reflexivity. contradiction.
Qed.

Lemma SFltb_key (x y : spec_float) :
  SFltb x y = true <->
  x <> S754_nan /\ y <> S754_nan /\ lex_lt (key x) (key y).
Proof.
  unfold SFltb. split.
  - intros Hlt.
    assert (x <> S754_nan) as Hx by (intros ->; rewrite SFcompare_nan_l in Hlt; discriminate).
    assert (y <> S754_nan) as Hy by (intros ->; rewrite SFcompare_nan_r in Hlt; discriminate).
    split; [exact Hx|]. split; [exact Hy|].
    destruct (SFcompare_key x y Hx Hy) as (c & Hc & Hkey). rewrite Hc in Hlt.
    destruct c; try discriminate. exact Hkey.
  - intros (Hx & Hy & Hkey).
    destruct (SFcompare_key x y Hx Hy) as (c & -> & Hc).
    destruct c; try reflexivity; unfold lex_lt, lex_eq in *; lia.
Qed.

Lemma is_nan_false (x : float) : PrimFloat.is_nan x = false <-> Prim2SF x <> S754_nan.
Proof.
  unfold PrimFloat.is_nan. rewrite FloatAxioms.eqb_spec. unfold SFeqb. split.
  - intros Heq Hnan. rewrite Hnan in Heq. discriminate.
  - intros Hx. destruct (SFcompare_key _ _ Hx Hx) as (c & -> & Hc).
    destruct c; try reflexivity; unfold lex_lt in Hc; lia.
Qed.

(** On numbers, [x <= y] is the negation of [y < x]. *)
Lemma leb_ltb (x y : float) :
  PrimFloat.is_nan x = false -> PrimFloat.is_nan y = false ->
  (x <=? y)%float = negb (y <? x)%float.
Proof.
  intros Hx Hy. apply is_nan_false in Hx, Hy.
  destruct (y <? x)%float eqn:Hlt; simpl.
  - rewrite FloatAxioms.ltb_spec in Hlt. apply SFltb_key in Hlt as (_ & _ & Hkey).
    destruct (x <=? y)%float eqn:Hle; [|reflexivity].
    rewrite FloatAxioms.leb_spec in Hle. apply SFleb_key in Hle as (_ & _ & Hno).
    contradiction.
  - rewrite FloatAxioms.leb_spec. apply SFleb_key.
    split; [exact Hx|]. split; [exact Hy|]. intros Hkey.
    assert (SFltb (Prim2SF y) (Prim2SF x) = true) as Habs by (apply SFltb_key; auto).
    rewrite <- FloatAxioms.ltb_spec in Habs. congruence.
Qed.

Lemma leb_trans (x y z : float) :
  (x <=? y)%float = true -> (y <=? z)%float = true -> (x <=? z)%float = true.
Proof.
  rewrite !FloatAxioms.leb_spec, !SFleb_key.
  intros (Hx & Hy & Hxy) (_ & Hz & Hyz).
  split; [exact Hx|]. split; [exact Hz|]. unfold lex_lt in *. lia.
Qed.

Lemma ltb_leb (x y : float) : (x <? y)%float = true -> (x <=? y)%float = true.
Proof.
  rewrite FloatAxioms.ltb_spec, FloatAxioms.leb_spec, SFltb_key, SFleb_key.
  intros (Hx & Hy & Hxy).
  split; [exact Hx|]. split; [exact Hy|]. unfold lex_lt in *. lia.
Qed.

Lemma leb_refl_number (x : float) :
  (x <=? x)%float = true <-> PrimFloat.is_nan x = false.
Proof.
  rewrite is_nan_false, FloatAxioms.leb_spec, SFleb_key. unfold lex_lt. split.
  - intros (Hx & _). exact Hx.
  - intros Hx. split; [exact Hx|]. split; [exact Hx|]. lia.
Qed.

End Binary64Order.

(** The comparisons of binary64 and of the reals are orders on numbers. *)
#[global] Instance float_DoubleOrder : DoubleOrder float.
Proof.
  split.
  - exact Binary64Order.leb_trans.
  - exact Binary64Order.ltb_leb.
  - intros x y Hlt. simpl in *. apply Binary64Order.leb_refl_number.
    apply Binary64Order.is_nan_false.
    rewrite FloatAxioms.ltb_spec in Hlt.
    apply Binary64Order.SFltb_key in Hlt. tauto.
  - intros x y Hx Hy Hlt. simpl in *.
    apply Binary64Order.leb_refl_number in Hx, Hy.
    rewrite (Binary64Order.leb_ltb y x Hy Hx), Hlt. reflexivity.
  - vm_compute. reflexivity.
Qed.

#[global] Instance R_DoubleOrder : DoubleOrder R.
Proof.
  split; simpl; unfold Exact.Rleb, Exact.Rltb.
  - intros x y z. destruct (Rle_dec x y), (Rle_dec y z), (Rle_dec x z); auto; lra.
  - intros x y. destruct (Rlt_dec x y), (Rle_dec x y); auto; lra.
  - intros x y _. destruct (Rle_dec x x); auto; lra.
  - intros x y _ _. destruct (Rlt_dec x y), (Rle_dec y x); auto; lra.
  - match goal with |- context [Rle_dec ?a ?b] => destruct (Rle_dec a b) end; auto; lra.
Qed.

(** ** The interaction potential *)

Section Interaction.
Context {D : Type} `{!Double D}.
Implicit Types (self : VMCSolver D).

Lemma V_int_refines self :
  V_int self =
  match config.interaction (_config self) with
  | InteractionType.OFF => d0
  | InteractionType.ON => if overlap self then d_max else d0
  end.
Proof.
  unfold V_int, overlap, for_range_ret.
  destruct (config.interaction (_config self)); [|reflexivity].
  rewrite Nat.sub_0_r.
  rewrite (for_each_ret_ext _ _
             (fun i (s' : unit) =>
                for_each_ret (seq (i + 1) (n_of self - (i + 1)))
                  (fun j (_ : unit) =>
                     if (mget (dist self) i j <=? config.a (_config self))%D
                     then Return d_max else Continue tt) s'))
    by (intros i []; reflexivity).
  rewrite (for_each_ret_nested (seq 0 (n_of self))
             (fun i => seq (i + 1) (n_of self - (i + 1)))
             (fun p (_ : unit) =>
                if (mget (dist self) (fst p) (snd p) <=? config.a (_config self))%D
                then Return d_max else Continue tt)).
  fold (pairs (n_of self)).
  rewrite (for_each_ret_test
             (fun p => (mget (dist self) (fst p) (snd p) <=? config.a (_config self))%D)
             (fun (_ : unit) (_ : nat * nat) => tt)).
  destruct (existsb _ _); reflexivity.
Qed.

End Interaction.

(** C7.  In binary64: [V_int] returns either zero or [DBL_MAX], the largest
    finite double (its successor is infinity), so never an infinity and never
    a NaN.  It returns zero if the interaction is off or no cached distance of
    a pair [i < j] is at or below the hard-sphere radius, and [DBL_MAX] if the
    interaction is on and some cached distance is at or below the radius.
    When the radius and the cached distances are numbers, a distance is not
    at or below the radius exactly when it exceeds it. *)
Theorem V_int_sentinel (self : VMCSolver float) :
  ((V_int self = 0%float \/ V_int self = Binary64.DBL_MAX)
   /\ PrimFloat.is_infinity (V_int self) = false
   /\ PrimFloat.is_nan (V_int self) = false
   /\ PrimFloat.is_finite Binary64.DBL_MAX = true
   /\ PrimFloat.next_up Binary64.DBL_MAX = PrimFloat.infinity)
  /\ ((config.interaction (_config self) = InteractionType.OFF
       \/ (forall i j, i < j < n_of self ->
             (mget (dist self) i j <=? config.a (_config self))%float = false)) ->
      V_int self = 0%float)
  /\ (config.interaction (_config self) = InteractionType.ON ->
      (exists i j, i < j < n_of self
         /\ (mget (dist self) i j <=? config.a (_config self))%float = true) ->
      V_int self = Binary64.DBL_MAX)
  /\ (PrimFloat.is_nan (config.a (_config self)) = false ->
      (forall i j, i < j < n_of self ->
         PrimFloat.is_nan (mget (dist self) i j) = false) ->
      forall i j, i < j < n_of self ->
        (config.a (_config self) <? mget (dist self) i j)%float
        = negb (mget (dist self) i j <=? config.a (_config self))%float).
Proof.
  rewrite V_int_refines. split; [|split; [|split]].
  - assert (match config.interaction (_config self) with
            | InteractionType.ON => if overlap self then d_max else d0
            | InteractionType.OFF => d0
            end = 0%float
            \/ match config.interaction (_config self) with
               | InteractionType.ON => if overlap self then d_max else d0
               | InteractionType.OFF => d0
               end = Binary64.DBL_MAX) as Hcases.
    { destruct (config.interaction (_config self)); [|left; reflexivity].
      destruct (overlap self); [right|left]; reflexivity. }
    split; [exact Hcases|].
    split; [destruct Hcases as [-> | ->]; vm_compute; reflexivity|].
    split; [destruct Hcases as [-> | ->]; vm_compute; reflexivity|].
    split; vm_compute; reflexivity.
  - intros [-> | Hall]; [reflexivity|].
    destruct (config.interaction (_config self)); [|reflexivity].
    destruct (overlap self) eqn:Hov; [|reflexivity].
    apply overlap_true in Hov. destruct Hov as (i & j & Hij & Hle).
    simpl in Hle. rewrite (Hall i j Hij) in Hle. discriminate.
  - intros -> (i & j & Hij & Hle).
    assert (overlap self = true) as ->; [|reflexivity].
    apply overlap_true. exists i, j. split; [exact Hij|exact Hle].
  - intros Ha Hdist i j Hij.
    rewrite (Binary64Order.leb_ltb _ _ (Hdist i j Hij) Ha).
    destruct (config.a (_config self) <? mget (dist self) i j)%float; reflexivity.
Qed.

Module PotentialExample.
Import Binary64 Examples.

Lemma cached_apart (i j : nat) :
  i < j < n_of cached ->
  (mget (dist cached) i j <=? config.a (_config cached))%float = false.
Proof.
  change (n_of cached) with 3. intros Hij.
  destruct i as [|[|i]]; destruct j as [|[|[|j]]]; try lia; vm_compute; reflexivity.
Qed.

Lemma V_int_sentinel_witness :
  V_int cached = 0%float /\ V_int overlapping = DBL_MAX.
Proof.
  split.
  - destruct (V_int_sentinel cached) as (_ & Hzero & _).
    apply Hzero. right. exact cached_apart.
  - destruct (V_int_sentinel overlapping) as (_ & _ & Hmax & _).
    apply Hmax; [reflexivity|].
    exists 0, 2. split; [change (n_of overlapping) with 3; lia|].
    vm_compute. reflexivity.
Defined.

Lemma Psi_f_is_jastrow_factor_witness : Psi_f overlapping = 0%float.
Proof.
  destruct (Psi_f_is_jastrow_factor overlapping) as (_ & Hzero & _).
  apply Hzero; [reflexivity|].
  exists 0, 2. split; [change (n_of overlapping) with 3; lia|].
  vm_compute. reflexivity.
Defined.

End PotentialExample.

(** ** The regression fixture of the analytic local energy *)

Module Fixture.

Lemma is_finite_cases (x : float) :
  PrimFloat.is_finite x = true ->
  (exists s, Prim2SF x = S754_zero s) \/ (exists s m e, Prim2SF x = S754_finite s m e).
Proof.
  unfold PrimFloat.is_finite, PrimFloat.is_nan, PrimFloat.is_infinity.
  rewrite !FloatAxioms.eqb_spec, abs_spec.
  destruct (Prim2SF x) as [s|s| |s m e] eqn:Hx.
  - intros _. left. eauto.
  - destruct s; vm_compute; discriminate.
  - vm_compute; discriminate.
  - intros _. right. eauto.
Qed.

(** A finite frequency times a zero, added to zero, is zero. *)
Lemma add_mul_zero (x : float) :
  PrimFloat.is_finite x = true -> (0 + x * 0)%float = 0%float.
Proof.
  intros Hfin. apply Prim2SF_inj.
  rewrite FloatAxioms.add_spec, FloatAxioms.mul_spec.
  destruct (is_finite_cases x Hfin) as [[s ->]|(s & m & e & ->)];
    destruct s; reflexivity.
Qed.

(** C3.  In binary64: one dimension, two particles, both at the origin,
    interaction off, analytic mode, alpha = 0.5 (and any beta, trap shape and
    finite trap frequency).  The external and the interaction potential are
    zero and the local energy is exactly 1 = dims * n_particles * alpha.
    [arma::dot] is asked to give 0 for the two zero vectors. *)
Theorem E_local_origin_fixture (M : MathLib float) (self : VMCSolver float) :
  config.dims (_config self) = DIM_1 ->
  config.n_particles (_config self) = 2 ->
  config.interaction (_config self) = InteractionType.OFF ->
  config.acceleration (_config self) = AnalyticAcceleration.ON ->
  _alpha self = 0.5%float ->
  PrimFloat.is_finite (config.omega_ho (_config self)) = true ->
  arma_dot [0%float] [0%float] = 0%float ->
  V_ext self (zeros 1 2) = 0%float
  /\ V_int self = 0%float
  /\ fst (fst (E_local self (zeros 1 2))) = 1%float
  /\ (d_of_int (Z.of_nat (dims_of self)) * d_of_int (Z.of_nat (n_of self)) * _alpha self)%D
     = 1%float.
Proof.
  intros Hd Hn Hi Ha Hal Hfin Hdot.
  assert (V_ext self (zeros 1 2) = 0%float) as HVext.
  { unfold V_ext, n_of. rewrite Hd, Hn.
    cbn [for_range seq fold_left Nat.sub].
    change (col (zeros 1 2) 0) with [0%float].
    change (col (zeros 1 2) 1) with [0%float].
    rewrite Hdot. change (@d0 float _) with 0%float. simpl dadd. simpl dmul.
    destruct (config.ho_type (_config self));
      rewrite !(add_mul_zero _ Hfin); vm_compute; reflexivity. }
  assert (V_int self = 0%float) as HVint.
  { unfold V_int. rewrite Hi. reflexivity. }
  split; [exact HVext|]. split; [exact HVint|]. split.
  - unfold E_local. rewrite Ha. cbn [fst].
    rewrite HVext, HVint. unfold one_body_beta_term. rewrite Hd, Hn, Hi, Hal.
    cbn [for_range seq fold_left Nat.sub].
    change (col (zeros 1 2) 0) with [0%float].
    change (col (zeros 1 2) 1) with [0%float].
    rewrite Hdot. vm_compute. reflexivity.
  - unfold dims_of, n_of. rewrite Hd, Hn, Hal. vm_compute. reflexivity.
Qed.

Lemma E_local_origin_fixture_witness :
  fst (fst (@E_local float _ Binary64.float_MathLib Examples.fixture (zeros 1 2))) = 1%float.
Proof.
  apply (E_local_origin_fixture Binary64.float_MathLib Examples.fixture);
    vm_compute; reflexivity.
Defined.

End Fixture.

(** ** Numeric against analytic local energy, in the reals *)

Module TruncationExample.
Import Elliptical.
Open Scope R_scope.

Lemma to_int_minus_4 : Exact.to_int (- (2 + 2)) = (-4)%Z.
Proof.
  unfold Exact.to_int. destruct (Rle_dec 0 (- (2 + 2))) as [Hle|_]; [lra|].
  rewrite <- (Int_part_spec (- - (2 + 2)) 4); [reflexivity|]. lra.
Qed.

Lemma E_analytic_value h : E_analytic h = 4.
Proof.
  unfold E_analytic. cbn -[exp Rplus Rmult Rminus Rdiv Ropp IZR Exact.to_int].
  rewrite to_int_minus_4. lra.
Qed.

Lemma E_numeric_value h : h <> 0 -> E_numeric h = 3 * (1 - exp (- (h * h))) / (h * h).
Proof.
  intros Hh. unfold E_numeric, E_local, E_kinetic.
  cbn -[exp Rplus Rmult Rminus Rdiv Ropp IZR].
  repeat match goal with
  | |- context [exp ?t] =>
      lazymatch t with
      | 0 => fail
      | - (h * h) => fail
      | _ => first [replace t with 0 by ring | replace t with (- (h * h)) by ring]
      end
  end.
  rewrite exp_0. change (IZR (-2 * (Z.of_nat 1 * Z.of_nat 3))) with (IZR (-6)).
  field. exact Hh.
Qed.

Lemma E_numeric_le_3 h : h <> 0 -> E_numeric h <= 3.
Proof.
  intros Hh. rewrite (E_numeric_value h Hh).
  assert (0 < h * h) as Hpos by nra.
  pose proof (exp_ineq1_le (- (h * h))) as Hexp.
  replace 3 with (3 * (h * h) / (h * h)) at 2 by (field; exact Hh).
  unfold Rdiv. apply Rmult_le_compat_r.
  - left. apply Rinv_0_lt_compat. exact Hpos.
  - lra.
Qed.

(** C2, at the failing input.  In exact arithmetic, where the difference of
    the two modes is the truncation error of the finite difference: for one
    particle at the origin in three dimensions with beta = 2 the analytic
    local energy is 4 and the numeric one is 3 (1 - exp (- h^2)) / h^2, at
    most 3, whatever the step [h]; so the two differ by at least 1 for every
    step, and no bound [C h^2] holds. *)
Theorem modes_disagree_in_three_dimensions :
  (forall h, h <> 0 -> E_analytic h = 4 /\ E_numeric h <= 3
                       /\ 1 <= E_analytic h - E_numeric h)
  /\ ~ (exists C, forall h, h <> 0 ->
                    Rabs (E_numeric h - E_analytic h) <= C * (h * h)).
Proof.
  assert (forall h, h <> 0 -> E_analytic h = 4 /\ E_numeric h <= 3
                              /\ 1 <= E_analytic h - E_numeric h) as Hgap.
  { intros h Hh. pose proof (E_numeric_le_3 h Hh) as Hle.
    rewrite E_analytic_value. repeat split; lra. }
  split; [exact Hgap|].
  intros [C HC].
  set (k := Rabs C + 1).
  assert (1 <= k) as Hk by (unfold k; pose proof (Rabs_pos C); lra).
  assert (0 < / k) as Hinv by (apply Rinv_0_lt_compat; lra).
  assert (/ k * k = 1) as Hone by (apply Rinv_l; lra).
  assert (/ k <> 0) as Hne by lra.
  specialize (HC (/ k) Hne). destruct (Hgap (/ k) Hne) as (_ & _ & Hdiff).
  assert (1 <= Rabs (E_numeric (/ k) - E_analytic (/ k))) as Habs.
  { unfold Rabs. destruct (Rcase_abs _); lra. }
  pose proof (Rle_abs C) as HCabs.
  assert (C * (/ k * / k) < 1) as Hsmall; [|lra].
  assert (/ k <= 1) as Hle1 by nra.
  assert (C * (/ k * / k) <= Rabs C * (/ k * / k)) as H1
    by (apply Rmult_le_compat_r; nra).
  assert (Rabs C * (/ k * / k) < k * (/ k * / k)) as H2
    by (apply Rmult_lt_compat_r; [nra|unfold k; lra]).
  nra.
Qed.

Lemma modes_disagree_in_three_dimensions_witness :
  1 <= E_analytic 1 - E_numeric 1.
Proof.
  destruct modes_disagree_in_three_dimensions as [Hgap _].
  destruct (Hgap 1 ltac:(lra)) as (_ & _ & Hdiff). exact Hdiff.
Defined.

End TruncationExample.

(** ** Counting the accepted moves *)

Section Counting.
Context {D : Type} `{!Double D, !MathLib D, !RandomEngine D}.
Implicit Types (self : VMCSolver D) (c : VMCConfiguration D).

Lemma walk_inv_move c s0 k i (Psi_old : D) (s : MCState D) :
  walk_inv c s0 k s -> i < config.n_particles c ->
  walk_inv c s0 (k + 1) (snd (metropolis_move i (Psi_old, s))).
Proof.
  intros (Hbetween & Hal & Hbe & Hacc) Hi.
  split; [apply between_moves_step; assumption|].
  rewrite (metropolis_move_closed c i Psi_old s Hbetween Hi).
  destruct (fst (unif _) <=? _)%D; cbv zeta; cbn [snd solver accepted_moves].
  - split; [exact Hal|]. split; [exact Hbe|]. lia.
  - split; [exact Hal|]. split; [exact Hbe|]. lia.
Qed.

Lemma walk_inv_cycle c s0 k (s : MCState D) :
  walk_inv c s0 k s ->
  walk_inv c s0 (k + Z.of_nat (config.n_particles c)) (mc_cycle s).
Proof.
  intros Hinv. unfold mc_cycle.
  assert (n_of (solver s) = config.n_particles c) as ->.
  { destruct Hinv as ((Hc & _) & _). unfold n_of. rewrite Hc. reflexivity. }
  refine (for_range_ind
            (fun j (st : D * MCState D) => walk_inv c s0 (k + Z.of_nat j) (snd st))
            _ _ _ _ (Nat.le_0_l _) _ _).
  - simpl. rewrite Z.add_0_r. exact Hinv.
  - intros i [Psi_old s'] Hi Hs'. simpl in Hs'.
    replace (k + Z.of_nat (i + 1))%Z with (k + Z.of_nat i + 1)%Z by lia.
    apply walk_inv_move; [exact Hs'|lia].
Qed.

Lemma walk_inv_walk c n_cycles (s : MCState D) :
  between_moves c s ->
  walk_inv c s (Z.of_nat (Z.to_nat n_cycles) * Z.of_nat (config.n_particles c))
           (mc_walk n_cycles s).
Proof.
  intros Hbetween. unfold mc_walk.
  replace (Z.of_nat (Z.to_nat n_cycles))
    with (Z.of_nat (Z.to_nat n_cycles + 1 - 1)) by (f_equal; lia).
  assert (1 <= Z.to_nat n_cycles + 1) as Hle by lia.
  refine (for_range_ind
            (fun j (t : MCState D) =>
               walk_inv c s (Z.of_nat (j - 1) * Z.of_nat (config.n_particles c)) t)
            _ _ _ _ Hle _ _).
  - simpl. split; [exact Hbetween|]. split; [reflexivity|]. split; [reflexivity|]. lia.
  - intros j t Hj Ht.
    replace (Z.of_nat (j + 1 - 1)) with (Z.of_nat (j - 1) + 1)%Z by lia.
    rewrite Z.mul_add_distr_r, Z.mul_1_l.
    apply walk_inv_cycle. exact Ht.
Qed.

(** [run_MC] on a well-formed solver. *)
Lemma run_MC_spec self n_cycles (g : rand_gen_t) :
  solver_wf self ->
  let s := mc_walk n_cycles (mc_start self g) in
  run_MC self n_cycles g = (mc_results n_cycles s, solver s, rand_gen s)
  /\ solver_wf (solver s)
  /\ _config (solver s) = _config self
  /\ _alpha (solver s) = _alpha self
  /\ _beta (solver s) = _beta self
  /\ (0 <= accepted_moves s
      <= Z.of_nat (Z.to_nat n_cycles) * Z.of_nat (n_of self))%Z.
Proof.
  intros Hwf s. split; [reflexivity|].
  pose proof (between_moves_start (_config self) self g eq_refl Hwf) as Hstart.
  destruct (walk_inv_walk (_config self) n_cycles _ Hstart)
    as ((Hc & Hwf' & _) & Hal & Hbe & Hacc).
  fold s in Hc, Hwf', Hal, Hbe, Hacc.
  assert (_alpha (solver (mc_start self g)) = _alpha self
          /\ _beta (solver (mc_start self g)) = _beta self
          /\ accepted_moves (mc_start self g) = 0%Z) as (Hal0 & Hbe0 & Hacc0).
  { unfold mc_start. destruct (random_start (_config self) g) as [[Ro Rn] g'].
    repeat split. }
  rewrite Hal0 in Hal. rewrite Hbe0 in Hbe. rewrite Hacc0 in Hacc.
  repeat split; try assumption; try (apply Hwf'); unfold n_of; lia.
Qed.

End Counting.


Module RunExample.
Import Binary64 Examples.



End RunExample.

(** ** The sweep *)

Lemma fold_left_ind {A S : Type} (P : nat -> S -> Prop) (f : S -> A -> S)
    (l : list A) (s : S) :
  P 0 s ->
  (forall k x t, k < length l -> In x l -> P k t -> P (Datatypes.S k) (f t x)) ->
  P (length l) (fold_left f l s).
Proof.
  intros Hstart Hstep.
  assert (forall pre post t, l = pre ++ post -> P (length pre) t ->
            P (length l) (fold_left f post t)) as Hgen.
  { intros pre post. revert pre. induction post as [|x post IH]; intros pre t Hl Hpre.
    - rewrite app_nil_r in Hl. subst pre. exact Hpre.
    - simpl. apply (IH (pre ++ [x])).
      + rewrite <- app_assoc. exact Hl.
      + rewrite length_app. simpl. rewrite Nat.add_1_r. apply Hstep.
        * rewrite Hl, length_app. simpl. lia.
        * rewrite Hl. apply in_or_app. right. left. reflexivity.
        * exact Hpre. }
  apply (Hgen [] l s); [reflexivity|exact Hstart].
Qed.

Section Sweep.
Context {D : Type} `{!Double D, !MathLib D, !RandomEngine D, !DoubleOrder D}.
Implicit Types (self : VMCSolver D) (r : Results D).

Lemma lines_app (xs ys : list (out_item D)) : lines (xs ++ ys) = lines xs + lines ys.
Proof.
  induction xs as [|x xs IH]; simpl; [reflexivity|].
  destruct x; simpl; rewrite IH; lia.
Qed.

Lemma lines_rows (rs : list (Results D)) : lines (flat_map row_of rs) = length rs.
Proof.
  induction rs as [|r rs IH]; simpl; [reflexivity|].
  rewrite IH. reflexivity.
Qed.

Lemma solver_wf_set_beta self (beta : D) : solver_wf self -> solver_wf (set_beta self beta).
Proof. intros Hwf. exact Hwf. Qed.

Lemma solver_wf_set_alpha self (alpha : D) : solver_wf self -> solver_wf (set_alpha self alpha).
Proof. intros Hwf. exact Hwf. Qed.

Lemma sweep_point_spec n_cycles alphas betas out0 b0 rs (beta : D) (s : SweepState D) :
  sweep_inv n_cycles alphas betas out0 b0 rs s ->
  In (_alpha (sweep_solver s)) alphas -> In beta betas ->
  exists r,
    sweep_inv n_cycles alphas betas out0 b0 (rs ++ [r]) (sweep_point n_cycles beta s)
    /\ _alpha (sweep_solver (sweep_point n_cycles beta s)) = _alpha (sweep_solver s).
Proof.
  intros (Hwf & Hout & Hbest & Hnum & Heval & Hbelow) Halpha Hbeta.
  unfold sweep_point.
  pose proof (run_MC_spec (set_beta (sweep_solver s) beta) n_cycles (sweep_gen s)
                (solver_wf_set_beta _ beta Hwf)) as (Hrun & Hwf' & _ & Hal & Hbe & _).
  cbv zeta in Hrun, Hwf', Hal, Hbe.
  set (w := mc_walk n_cycles (mc_start (set_beta (sweep_solver s) beta) (sweep_gen s))) in *.
  assert (fst (fst (run_MC (set_beta (sweep_solver s) beta) n_cycles (sweep_gen s)))
          = mc_results n_cycles w) as Hres by (rewrite Hrun; reflexivity).
  rewrite Hrun.
  set (r := mc_results n_cycles w) in *.
  exists r. cbn [sweep_solver best out sweep_gen]. split; [|exact Hal].
  assert (evaluated n_cycles alphas betas r) as Hr.
  { split; [|split].
    - unfold r, mc_results. cbn. rewrite Hal. exact Halpha.
    - unfold r, mc_results. cbn. rewrite Hbe. exact Hbeta.
    - exists (set_beta (sweep_solver s) beta), (sweep_gen s).
      split; [exact Hwf|]. symmetry. exact Hres. }
  split; [exact Hwf'|]. split.
  { rewrite Hout, flat_map_app. simpl. rewrite <- app_assoc. reflexivity. }
  assert (Forall (evaluated n_cycles alphas betas) (rs ++ [r])) as Heval'.
  { apply Forall_app. split; [exact Heval|]. constructor; [exact Hr|constructor]. }
  destruct (res.variance r <? res.variance (best s))%D eqn:Hlt.
  - (* the new point has the smaller variance *)
    pose proof (dlt_dle _ _ Hlt) as Hle.
    pose proof (dlt_number _ _ Hlt) as Hrnum.
    split; [right; apply in_or_app; right; left; reflexivity|].
    split; [exact Hrnum|]. split; [exact Heval'|].
    apply Forall_app. split.
    + unfold below_numbers in Hbelow. rewrite Forall_forall in Hbelow.
      apply Forall_forall. intros r' Hin Hnum'.
      apply (dle_trans _ (res.variance (best s))); [exact Hle|].
      apply Hbelow; assumption.
    + constructor; [|constructor]. intros _. exact Hrnum.
  - (* the best so far is kept *)
    split; [destruct Hbest as [Hb|Hb]; [left; exact Hb|right; apply in_or_app; left; exact Hb]|].
    split; [exact Hnum|]. split; [exact Heval'|].
    apply Forall_app. split; [exact Hbelow|].
    constructor; [|constructor]. intros Hrnum.
    apply dle_total; assumption.
Qed.

End Sweep.

Section SweepLaw.
Context {D : Type} `{!Double D, !MathLib D, !RandomEngine D, !DoubleOrder D}.
Implicit Types (self : VMCSolver D) (r : Results D).

(** The inner loop: one value of alpha, all values of beta. *)
Lemma sweep_row_spec n_cycles alphas betas out0 b0 rs (alpha : D) (s : SweepState D) :
  sweep_inv n_cycles alphas betas out0 b0 rs s -> In alpha alphas ->
  exists rs',
    length rs' = length betas
    /\ sweep_inv n_cycles alphas betas out0 b0 (rs ++ rs')
         (fold_left (fun t beta => sweep_point n_cycles beta t) betas
            {| sweep_solver := set_alpha (sweep_solver s) alpha; best := best s;
               out := out s; sweep_gen := sweep_gen s |}).
Proof.
  intros Hinv Halpha.
  cut (exists rs',
         length rs' = length betas
         /\ sweep_inv n_cycles alphas betas out0 b0 (rs ++ rs')
              (fold_left (fun t beta => sweep_point n_cycles beta t) betas
                 {| sweep_solver := set_alpha (sweep_solver s) alpha; best := best s;
                    out := out s; sweep_gen := sweep_gen s |})
         /\ _alpha (sweep_solver
              (fold_left (fun t beta => sweep_point n_cycles beta t) betas
                 {| sweep_solver := set_alpha (sweep_solver s) alpha; best := best s;
                    out := out s; sweep_gen := sweep_gen s |})) = alpha).
  { intros (rs' & Hlen & Hinv' & _). exists rs'. split; assumption. }
  refine (fold_left_ind
            (fun k t => exists rs',
               length rs' = k
               /\ sweep_inv n_cycles alphas betas out0 b0 (rs ++ rs') t
               /\ _alpha (sweep_solver t) = alpha)
            _ betas _ _ _).
  - exists []. split; [reflexivity|]. rewrite app_nil_r. split; [|reflexivity].
    destruct Hinv as (Hwf & Hout & Hbest & Hnum & Heval & Hbelow).
    exact (conj (solver_wf_set_alpha _ alpha Hwf)
             (conj Hout (conj Hbest (conj Hnum (conj Heval Hbelow))))).
  - intros k beta t Hk Hbeta (rs' & Hlen & Hinv' & Hal).
    destruct (sweep_point_spec n_cycles alphas betas out0 b0 (rs ++ rs') beta t Hinv'
                ltac:(rewrite Hal; exact Halpha) Hbeta) as (r & Hinv'' & Hal').
    exists (rs' ++ [r]). split; [rewrite length_app; simpl; lia|].
    rewrite app_assoc. split; [exact Hinv''|]. rewrite Hal'. exact Hal.
Qed.


End SweepLaw.

Module SweepExample.
Import Binary64 Examples.



End SweepExample.

(** * Further properties of the code *)

(** ** The distance cache, from any content *)

Section CacheRebuild.
Context {D : Type} `{!Double D, !MathLib D}.
Implicit Types (M R : mat D) (self : VMCSolver D).

(** Two solvers with the same members are the same solver. *)
Lemma solver_eq self self' :
  _config self' = _config self -> _alpha self' = _alpha self ->
  _beta self' = _beta self -> dist self' = dist self ->
  self' = self.
Proof.
  destruct self, self'. simpl. intros -> -> -> ->. reflexivity.
Qed.

(** The cache after the updates for the particles below [k], all on the
    same configuration. *)
Lemma updates_spec self R k :
  has_shape (n_of self) (n_of self) (dist self) ->
  let s := for_range 0 k (fun i s => update_distance_matrix s i R) self in
  _config s = _config self /\ _alpha s = _alpha self /\ _beta s = _beta self
  /\ has_shape (n_of self) (n_of self) (dist s)
  /\ forall r c,
       mget (dist s) r c
       = if decide (r < c < n_of self /\ (r < k \/ c < k))
         then distance R r c else mget (dist self) r c.
Proof.
  intros Hshape. cbv zeta.
  refine (for_range_ind (fun k s =>
    _config s = _config self /\ _alpha s = _alpha self /\ _beta s = _beta self
    /\ has_shape (n_of self) (n_of self) (dist s)
    /\ forall r c,
         mget (dist s) r c
         = if decide (r < c < n_of self /\ (r < k \/ c < k))
           then distance R r c else mget (dist self) r c)
    _ _ _ _ (Nat.le_0_l k) _ _).
  - repeat (split; [reflexivity|]). split; [exact Hshape|].
    intros r c. rewrite decide_False by lia. reflexivity.
  - intros i t Hi (Hc & Ha & Hb & Hs & Hget).
    assert (n_of t = n_of self) as Hn by (unfold n_of; rewrite Hc; reflexivity).
    rewrite <- Hn in Hs.
    destruct (update_spec t i R Hs) as [Hs' Hget'].
    rewrite Hn in Hs', Hget'.
    split; [exact Hc|]. split; [exact Ha|]. split; [exact Hb|]. split; [exact Hs'|].
    intros r c. rewrite Hget', Hget.
    destruct (decide (r < c < n_of self /\ (r = i \/ c = i))) as [Hin|Hout].
    + rewrite decide_True by lia. reflexivity.
    + destruct (decide (r < c < n_of self /\ (r < i \/ c < i))) as [Hin'|Hout'].
      * rewrite decide_True by lia. reflexivity.
      * rewrite decide_False by lia. reflexivity.
Qed.

(** X1.  [initialize_distance_matrix] does not depend on what the cache held:
    whatever a cache of the right dimensions contains, it makes it consistent
    with the configuration it is given; a second call overrides the first;
    and on a cache that is consistent already it changes nothing. *)
Theorem initialize_rebuilds_cache self R R' :
  has_shape (n_of self) (n_of self) (dist self) ->
  cache_consistent (initialize_distance_matrix self R) R
  /\ initialize_distance_matrix (initialize_distance_matrix self R') R
     = initialize_distance_matrix self R
  /\ (cache_consistent self R -> initialize_distance_matrix self R = self).
Proof.
  intros Hshape.
  destruct (initialize_spec self R Hshape) as [Hs Hget].
  destruct (initialize_spec self R' Hshape) as [Hs' Hget'].
  destruct (initialize_spec (initialize_distance_matrix self R') R Hs') as [Hs2 Hget2].
  change (n_of (initialize_distance_matrix self R')) with (n_of self) in Hs2, Hget2.
  split; [|split].
  - intros i j Hij.
    change (n_of (initialize_distance_matrix self R)) with (n_of self) in Hij.
    rewrite Hget, decide_True by exact Hij. reflexivity.
  - apply solver_eq; try reflexivity.
    apply (mat_ext (n_of self) (n_of self)); [exact Hs2|exact Hs|].
    intros r c _ _. rewrite Hget2, Hget, Hget'.
    destruct (decide (r < c < n_of self)); reflexivity.
  - intros Hcache. apply solver_eq; try reflexivity.
    apply (mat_ext (n_of self) (n_of self)); [exact Hs|exact Hshape|].
    intros r c _ _. rewrite Hget.
    destruct (decide (r < c < n_of self)) as [Hin|_]; [|reflexivity].
    symmetry. apply Hcache. exact Hin.
Qed.

(** X2.  How updates compose: updates for two particles on the same
    configuration commute; and the update for every particle in turn is
    [initialize_distance_matrix]. *)
Theorem updates_commute_and_rebuild self p q R :
  has_shape (n_of self) (n_of self) (dist self) ->
  update_distance_matrix (update_distance_matrix self p R) q R
  = update_distance_matrix (update_distance_matrix self q R) p R
  /\ for_range 0 (n_of self) (fun i s => update_distance_matrix s i R) self
     = initialize_distance_matrix self R.
Proof.
  intros Hshape. split.
  - destruct (update_spec self p R Hshape) as [Hp Hgp].
    destruct (update_spec self q R Hshape) as [Hq Hgq].
    destruct (update_spec _ q R Hp) as [Hpq Hgpq].
    destruct (update_spec _ p R Hq) as [Hqp Hgqp].
    apply solver_eq; try reflexivity.
    apply (mat_ext (n_of self) (n_of self)); [exact Hpq|exact Hqp|].
    intros r c _ _. rewrite Hgqp, Hgpq, Hgp, Hgq.
    change (n_of (update_distance_matrix self q R)) with (n_of self).
    change (n_of (update_distance_matrix self p R)) with (n_of self).
    destruct (decide (r < c < n_of self /\ (r = p \/ c = p)));
      destruct (decide (r < c < n_of self /\ (r = q \/ c = q))); reflexivity.
  - destruct (updates_spec self R (n_of self) Hshape) as (Hc & Ha & Hb & Hs & Hget).
    destruct (initialize_spec self R Hshape) as [Hs' Hget'].
    apply solver_eq; try assumption.
    apply (mat_ext (n_of self) (n_of self)); [exact Hs|exact Hs'|].
    intros r c _ _. rewrite Hget, Hget'.
    destruct (decide (r < c < n_of self)) as [Hin|Hout].
    + rewrite decide_True by lia. reflexivity.
    + rewrite decide_False by tauto. reflexivity.
Qed.

End CacheRebuild.

Module RebuildExample.
Import Binary64 Examples.

Lemma cached_shape : has_shape (n_of cached) (n_of cached) (dist cached).
Proof. vm_compute. split; [reflexivity|]. repeat constructor. Qed.

Lemma initialize_rebuilds_cache_witness :
  cache_consistent (initialize_distance_matrix cached R0) R0
  /\ initialize_distance_matrix (initialize_distance_matrix cached R1) R0
     = initialize_distance_matrix cached R0
  /\ initialize_distance_matrix cached R0 = cached.
Proof.
  destruct (initialize_rebuilds_cache cached R0 R1 cached_shape) as (H1 & H2 & H3).
  split; [exact H1|]. split; [exact H2|].
  apply H3. exact CacheExample.cached_consistent.
Defined.

Lemma updates_commute_and_rebuild_witness :
  update_distance_matrix (update_distance_matrix cached 0 R1) 2 R1
  = update_distance_matrix (update_distance_matrix cached 2 R1) 0 R1
  /\ for_range 0 (n_of cached) (fun i s => update_distance_matrix s i R1) cached
     = initialize_distance_matrix cached R1.
Proof. exact (updates_commute_and_rebuild cached 0 2 R1 cached_shape). Defined.

End RebuildExample.

(** ** What the local energy leaves behind, from any cache *)

Section LocalEnergyFrames.
Context {D : Type} `{!Double D, !MathLib D}.
Implicit Types (M R : mat D) (self : VMCSolver D).

(** [E_kinetic] writes every coordinate back and assigns no parameter,
    whatever the cache holds. *)
Lemma E_kinetic_positions self R :
  snd (E_kinetic self R) = R
  /\ _config (snd (fst (E_kinetic self R))) = _config self
  /\ _alpha (snd (fst (E_kinetic self R))) = _alpha self
  /\ _beta (snd (fst (E_kinetic self R))) = _beta self.
Proof.
  unfold E_kinetic.
  match goal with
  | |- context [for_range 0 ?n ?body ?s] =>
      assert (snd (for_range 0 n body s) = R
              /\ _config (snd (fst (for_range 0 n body s))) = _config self
              /\ _alpha (snd (fst (for_range 0 n body s))) = _alpha self
              /\ _beta (snd (fst (for_range 0 n body s))) = _beta self) as Hloop
  end.
  { apply (for_range_inv (fun st : D * VMCSolver D * mat D =>
             snd st = R /\ _config (snd (fst st)) = _config self
             /\ _alpha (snd (fst st)) = _alpha self /\ _beta (snd (fst st)) = _beta self)).
    - repeat split; reflexivity.
    - intros i st _ Hst.
      apply (for_range_inv (fun st : D * VMCSolver D * mat D =>
             snd st = R /\ _config (snd (fst st)) = _config self
             /\ _alpha (snd (fst st)) = _alpha self /\ _beta (snd (fst st)) = _beta self)).
      + exact Hst.
      + intros d [[Ek s'] R'] _ (HR & Hc & Ha & Hb). simpl in HR, Hc, Ha, Hb. subst R'.
        simpl. rewrite !mset_mset, mset_mget_id. split; [reflexivity|].
        split; [|split].
        * rewrite !(proj1 (update_if_interacting_fields _ _ _)). exact Hc.
        * rewrite !(proj1 (proj2 (update_if_interacting_fields _ _ _))). exact Ha.
        * rewrite !(proj2 (proj2 (update_if_interacting_fields _ _ _))). exact Hb. }
  destruct (for_range 0 _ _ _) as [[Ek s'] R']. exact Hloop.
Qed.

(** With interaction, the three updates of one perturbation amount to the
    update on the configuration itself. *)
Lemma perturb_updates self R i R1 R2 :
  config.interaction (_config self) = InteractionType.ON ->
  has_shape (n_of self) (n_of self) (dist self) ->
  update_if_interacting
    (update_if_interacting (update_if_interacting self i R1) i R2) i R
  = update_distance_matrix self i R.
Proof.
  intros Hint Hshape. unfold update_if_interacting.
  rewrite Hint. simpl. rewrite Hint. simpl. rewrite Hint.
  rewrite update_update.
  - apply update_update. exact Hshape.
  - exact (proj1 (update_spec self i R1 Hshape)).
Qed.

(** With interaction, [E_kinetic] leaves the cache that
    [initialize_distance_matrix] builds for the configuration. *)
Lemma E_kinetic_rebuilds self R :
  config.interaction (_config self) = InteractionType.ON ->
  has_shape (n_of self) (n_of self) (dist self) ->
  snd (fst (E_kinetic self R)) = initialize_distance_matrix self R.
Proof.
  intros Hint Hshape.
  assert (0 < dims_int (config.dims (_config self))) as Hdims
    by (destruct (config.dims (_config self)); simpl; lia).
  unfold E_kinetic.
  match goal with
  | |- context [for_range 0 ?n ?body ?s] =>
      assert (let st := for_range 0 n body s in
              _config (snd (fst st)) = _config self
              /\ _alpha (snd (fst st)) = _alpha self
              /\ _beta (snd (fst st)) = _beta self
              /\ snd st = R
              /\ has_shape (n_of self) (n_of self) (dist (snd (fst st)))
              /\ forall r c,
                   mget (dist (snd (fst st))) r c
                   = if decide (r < c < n_of self /\ (r < n \/ c < n))
                     then distance R r c else mget (dist self) r c) as Hloop
  end.
  { cbv zeta.
    refine (for_range_ind (fun k (st : D * VMCSolver D * mat D) =>
      _config (snd (fst st)) = _config self
      /\ _alpha (snd (fst st)) = _alpha self
      /\ _beta (snd (fst st)) = _beta self
      /\ snd st = R
      /\ has_shape (n_of self) (n_of self) (dist (snd (fst st)))
      /\ forall r c,
           mget (dist (snd (fst st))) r c
           = if decide (r < c < n_of self /\ (r < k \/ c < k))
             then distance R r c else mget (dist self) r c)
      _ _ _ _ (Nat.le_0_l _) _ _).
    - repeat (split; [reflexivity|]). split; [exact Hshape|].
      intros r c. rewrite decide_False by lia. reflexivity.
    - intros i st Hi Hst.
      cut (let st' := for_range 0 (dims_int (config.dims (_config self)))
             (fun d '(Ek, self0, R0) =>
                let temp := mget R0 d i in
                let R1 := mset R0 d i (temp + config.h (_config self))%D in
                let self1 := update_if_interacting self0 i R1 in
                let Ek1 := (Ek + Psi self1 R1)%D in
                let R2 := mset R1 d i (temp - config.h (_config self))%D in
                let self2 := update_if_interacting self1 i R2 in
                let Ek2 := (Ek1 + Psi self2 R2)%D in
                let R3 := mset R2 d i temp in
                let self3 := update_if_interacting self2 i R3 in
                (Ek2, self3, R3)) st in
           _config (snd (fst st')) = _config self
           /\ _alpha (snd (fst st')) = _alpha self
           /\ _beta (snd (fst st')) = _beta self
           /\ snd st' = R
           /\ has_shape (n_of self) (n_of self) (dist (snd (fst st')))
           /\ forall r c,
                mget (dist (snd (fst st'))) r c
                = if decide (r < c < n_of self
                             /\ (r < i \/ c < i
                                 \/ (0 < dims_int (config.dims (_config self))
                                     /\ (r = i \/ c = i))))
                  then distance R r c else mget (dist self) r c).
      { cbv zeta. intros (Hc & Ha & Hb & HR & Hs & Hget).
        repeat (split; [assumption|]).
        intros r c. rewrite Hget.
        destruct (decide (r < c < n_of self /\ (r < i + 1 \/ c < i + 1))) as [Hin|Hout].
        - rewrite decide_True by lia. reflexivity.
        - rewrite decide_False by lia. reflexivity. }
      cbv zeta.
      refine (for_range_ind (fun d (st : D * VMCSolver D * mat D) =>
        _config (snd (fst st)) = _config self
        /\ _alpha (snd (fst st)) = _alpha self
        /\ _beta (snd (fst st)) = _beta self
        /\ snd st = R
        /\ has_shape (n_of self) (n_of self) (dist (snd (fst st)))
        /\ forall r c,
             mget (dist (snd (fst st))) r c
             = if decide (r < c < n_of self
                          /\ (r < i \/ c < i \/ (0 < d /\ (r = i \/ c = i))))
               then distance R r c else mget (dist self) r c)
        _ _ _ _ (Nat.le_0_l _) _ _).
      + destruct Hst as (Hc & Ha & Hb & HR & Hs & Hget).
        repeat (split; [assumption|]).
        intros r c. rewrite Hget.
        destruct (decide (r < c < n_of self /\ (r < i \/ c < i))) as [Hin|Hout].
        * rewrite decide_True by lia. reflexivity.
        * rewrite decide_False by lia. reflexivity.
      + intros d [[Ek s'] R'] Hd (Hc & Ha & Hb & HR & Hs & Hget).
        simpl in Hc, Ha, Hb, HR, Hs, Hget. subst R'.
        assert (n_of s' = n_of self) as Hn by (unfold n_of; rewrite Hc; reflexivity).
        assert (config.interaction (_config s') = InteractionType.ON) as Hint'
          by (rewrite Hc; exact Hint).
        rewrite <- Hn in Hs.
        cbn [fst snd]. rewrite !mset_mset, mset_mget_id.
        rewrite (perturb_updates s' R i _ _ Hint' Hs).
        destruct (update_spec s' i R Hs) as [Hs' Hget'].
        rewrite Hn in Hs', Hget'.
        split; [exact Hc|]. split; [exact Ha|]. split; [exact Hb|].
        split; [reflexivity|]. split; [exact Hs'|].
        intros r c. rewrite Hget', Hget.
        destruct (decide (r < c < n_of self /\ (r = i \/ c = i))) as [Hin|Hout].
        * rewrite decide_True by lia. reflexivity.
        * destruct (decide (r < c < n_of self
                            /\ (r < i \/ c < i \/ (0 < d /\ (r = i \/ c = i)))))
            as [Hin'|Hout'].
          -- rewrite decide_True by lia. reflexivity.
          -- rewrite decide_False by lia. reflexivity. }
  cbv zeta in Hloop.
  destruct (for_range 0 _ _ _) as [[Ek s'] R'].
  cbn [fst snd] in *. destruct Hloop as (Hc & Ha & Hb & HR & Hs & Hget).
  destruct (initialize_spec self R Hshape) as [Hs' Hget'].
  apply solver_eq; try assumption.
  apply (mat_ext (n_of self) (n_of self)); [exact Hs|exact Hs'|].
  intros r c _ _. rewrite Hget, Hget'.
  destruct (decide (r < c < n_of self)) as [Hin|Hout].
  - rewrite decide_True by (unfold n_of in *; lia). reflexivity.
  - rewrite decide_False by tauto. reflexivity.
Qed.

(** X3.  What a call of [E_local] leaves behind, whatever the cache held: the
    positions are returned as they were passed and no parameter is assigned;
    in the analytic mode, and without interaction, the solver is untouched;
    in the numeric mode with interaction the cache is left as
    [initialize_distance_matrix] builds it for the positions, so that a
    stale cache is repaired by the call (after the value was computed). *)
Theorem E_local_leaves self R :
  snd (E_local self R) = R
  /\ _config (snd (fst (E_local self R))) = _config self
  /\ _alpha (snd (fst (E_local self R))) = _alpha self
  /\ _beta (snd (fst (E_local self R))) = _beta self
  /\ (config.acceleration (_config self) = AnalyticAcceleration.ON
      \/ config.interaction (_config self) = InteractionType.OFF ->
      snd (fst (E_local self R)) = self)
  /\ (config.acceleration (_config self) = AnalyticAcceleration.OFF ->
      config.interaction (_config self) = InteractionType.ON ->
      has_shape (n_of self) (n_of self) (dist self) ->
      snd (fst (E_local self R)) = initialize_distance_matrix self R).
Proof.
  unfold E_local.
  destruct (config.acceleration (_config self)) eqn:Hacc.
  - do 4 (split; [reflexivity|]). split; [reflexivity|discriminate].
  - destruct (E_kinetic_positions self R) as (HR & Hc & Ha & Hb).
    pose proof (E_kinetic_restores self R) as Hoff.
    pose proof (E_kinetic_rebuilds self R) as Hon.
    destruct (E_kinetic self R) as [[Ek s'] R']. cbn [fst snd] in *.
    do 4 (split; [assumption|]). split.
    + intros [Habs|Hint]; [discriminate|].
      specialize (Hoff (or_introl Hint)). congruence.
    + intros _ Hint Hshape. exact (Hon Hint Hshape).
Qed.

End LocalEnergyFrames.

Module LocalEnergyExample.
Import Binary64 Examples.

Lemma E_local_leaves_witness :
  snd (fst (E_local cached R1)) = initialize_distance_matrix cached R1
  /\ snd (fst (E_local fixture [[1]; [2]]%float)) = fixture.
Proof.
  split.
  - destruct (E_local_leaves cached R1) as (_ & _ & _ & _ & _ & H).
    apply H; [reflexivity|reflexivity|exact RebuildExample.cached_shape].
  - destruct (E_local_leaves fixture [[1]; [2]]%float) as (_ & _ & _ & _ & H & _).
    apply H. left. reflexivity.
Defined.

End LocalEnergyExample.

(** ** Two runs side by side *)

(** Two loops over the same range keep a relation that their bodies keep. *)
Lemma for_range_rel {S T : Type} (Rel : S -> T -> Prop) (lo hi : nat)
    (f : nat -> S -> S) (g : nat -> T -> T) (s : S) (t : T) :
  Rel s t ->
  (forall i s' t', lo <= i < hi -> Rel s' t' -> Rel (f i s') (g i t')) ->
  Rel (for_range lo hi f s) (for_range lo hi g t).
Proof.
  intros Hst Hstep. unfold for_range.
  assert (forall i, In i (seq lo (hi - lo)) -> lo <= i < hi) as Hin
    by (intros i Hi; apply in_seq in Hi; lia).
  revert s t Hst. induction (seq lo (hi - lo)) as [|i l IH]; intros s t Hst.
  - exact Hst.
  - simpl. apply IH.
    + intros j Hj. apply Hin. right. exact Hj.
    + apply Hstep; [apply Hin; left; reflexivity|exact Hst].
Qed.

Section EngineUse.
Context {D : Type} `{!Double D, !MathLib D, !RandomEngine D}.
Implicit Types (M R : mat D) (self : VMCSolver D) (c : VMCConfiguration D).

(** [E_local] returns the positions and assigns no parameter. *)
Lemma E_local_frame self R :
  snd (E_local self R) = R
  /\ _config (snd (fst (E_local self R))) = _config self
  /\ _alpha (snd (fst (E_local self R))) = _alpha self
  /\ _beta (snd (fst (E_local self R))) = _beta self.
Proof.
  unfold E_local.
  destruct (config.acceleration (_config self)).
  - repeat split; reflexivity.
  - destruct (E_kinetic_positions self R) as (HR & Hc & Ha & Hb).
    destruct (E_kinetic self R) as [[Ek s'] R']. cbn [fst snd] in *. auto.
Qed.

(** A move assigns no parameter and draws from the engine what its
    dimension asks for, whatever it decides. *)
Lemma metropolis_move_frame i (Psi_old : D) (s : MCState D) :
  let s' := snd (metropolis_move i (Psi_old, s)) in
  _config (solver s') = _config (solver s)
  /\ _alpha (solver s') = _alpha (solver s)
  /\ _beta (solver s') = _beta (solver s)
  /\ rand_gen s'
     = snd (unif (snd (propose (_config (solver s)) i (R_old s) (R_new s) (rand_gen s)))).
Proof.
  cbv zeta. rewrite metropolis_move_unfold. cbn [snd solver rand_gen].
  match goal with
  | |- context [E_local ?s2 ?Rn] =>
      destruct (E_local_frame s2 Rn) as (_ & Hc & Ha & Hb)
  end.
  rewrite Hc, Ha, Hb.
  destruct (_ <=? _)%D; repeat split; reflexivity.
Qed.

(** The engine after a proposal depends on the engine before it and on the
    dimension only. *)
Lemma propose_engine c c' i i' (Ro Rn Ro' Rn' : mat D) (g : rand_gen_t) :
  config.dims c' = config.dims c ->
  snd (propose c' i' Ro' Rn' g) = snd (propose c i Ro Rn g).
Proof.
  intros Hd. unfold propose. rewrite Hd.
  apply (for_range_rel (fun st' st : mat D * rand_gen_t => snd st' = snd st)).
  - reflexivity.
  - intros d [R1 g1] [R2 g2] _ Hg. simpl in Hg. subst g2.
    destruct (centered g1) as [x g']. reflexivity.
Qed.

Lemma random_start_engine c c' (g : rand_gen_t) :
  config.dims c' = config.dims c -> config.n_particles c' = config.n_particles c ->
  snd (random_start c' g) = snd (random_start c g).
Proof.
  intros Hd Hn. unfold random_start. rewrite Hd, Hn.
  apply (for_range_rel (fun st' st : mat D * mat D * rand_gen_t => snd st' = snd st)).
  - reflexivity.
  - intros i st' st _ Hst.
    apply (for_range_rel (fun st' st : mat D * mat D * rand_gen_t => snd st' = snd st)).
    + exact Hst.
    + intros d [[R1 R2] g1] [[R3 R4] g2] _ Hg. simpl in Hg. subst g2.
      destruct (centered g1) as [x g']. reflexivity.
Qed.

(** X4.  How much of the random stream a run consumes depends on the number
    of cycles, of particles and of dimensions only: two runs from the same
    engine state leave the engine in the same state, whatever the trap, the
    interaction, the mode, the variational parameters and the cache of the
    two solvers, and whichever moves they accept. *)
Theorem run_MC_engine self self' n_cycles (g : rand_gen_t) :
  config.dims (_config self') = config.dims (_config self) ->
  config.n_particles (_config self') = config.n_particles (_config self) ->
  snd (run_MC self' n_cycles g) = snd (run_MC self n_cycles g).
Proof.
  intros Hd Hn. unfold run_MC. cbn [snd].
  set (Rel := fun s' s : MCState D =>
    rand_gen s' = rand_gen s
    /\ config.dims (_config (solver s')) = config.dims (_config (solver s))
    /\ config.n_particles (_config (solver s')) = config.n_particles (_config (solver s))).
  cut (Rel (mc_walk n_cycles (mc_start self' g)) (mc_walk n_cycles (mc_start self g))).
  { intros (Hg & _). exact Hg. }
  unfold mc_walk. apply (for_range_rel Rel).
  - unfold Rel, mc_start.
    pose proof (random_start_engine _ _ g Hd Hn) as Hg.
    destruct (random_start (_config self') g) as [[Ro' Rn'] g'].
    destruct (random_start (_config self) g) as [[Ro Rn] g1].
    simpl in Hg. subst g'. cbn. auto.
  - intros _ s' s _ (Hg & Hd' & Hn'). unfold mc_cycle.
    assert (n_of (solver s') = n_of (solver s)) as -> by exact Hn'.
    apply (for_range_rel (fun st' st : D * MCState D => Rel (snd st') (snd st))).
    + exact (conj Hg (conj Hd' Hn')).
    + intros i [P' t'] [P t] _ (Hg1 & Hd1 & Hn1). cbn [snd] in *.
      destruct (metropolis_move_frame i P' t') as (Hc' & _ & _ & Hr').
      destruct (metropolis_move_frame i P t) as (Hc & _ & _ & Hr).
      unfold Rel. rewrite Hc', Hc, Hr', Hr, Hg1.
      split; [|split; assumption].
      do 2 f_equal. apply propose_engine. exact Hd1.
Qed.

End EngineUse.

Module EngineExample.
Import Binary64 Examples.

Lemma run_MC_engine_witness :
  snd (run_MC overlapping 2 g0) = snd (run_MC fresh 2 g0).
Proof. apply (run_MC_engine fresh overlapping 2 g0); reflexivity. Defined.

End EngineExample.

(** ** Where the parameter beta is read *)

Section BetaUse.
Context {D : Type} `{!Double D, !MathLib D, !RandomEngine D}.
Implicit Types (M R : mat D) (self : VMCSolver D) (c : VMCConfiguration D).

Lemma update_beta self (b : D) i R :
  update_distance_matrix (set_beta self b) i R
  = set_beta (update_distance_matrix self i R) b.
Proof. reflexivity. Qed.

Lemma update_if_interacting_beta self (b : D) i R :
  update_if_interacting (set_beta self b) i R
  = set_beta (update_if_interacting self i R) b.
Proof.
  unfold update_if_interacting. cbn [set_beta _config].
  destruct (config.interaction (_config self)); reflexivity.
Qed.

(** The trial wavefunction has no beta in it. *)
Lemma Psi_beta self (b : D) R : Psi (set_beta self b) R = Psi self R.
Proof. reflexivity. Qed.

Lemma E_kinetic_beta self (b : D) R :
  E_kinetic (set_beta self b) R
  = (fst (fst (E_kinetic self R)), set_beta (snd (fst (E_kinetic self R))) b,
     snd (E_kinetic self R)).
Proof.
  unfold E_kinetic. cbn [set_beta _config]. rewrite Psi_beta.
  match goal with
  | |- context [for_range 0 ?n ?body (?Ek, set_beta self b, R)] =>
      pose proof (for_range_rel
        (fun st' st : D * VMCSolver D * mat D =>
           fst (fst st') = fst (fst st)
           /\ snd (fst st') = set_beta (snd (fst st)) b
           /\ snd st' = snd st)
        0 n body body (Ek, set_beta self b, R) (Ek, self, R)) as Hloop
  end.
  match type of Hloop with
  | ?A -> ?B -> ?C => assert C as Hrel; [apply Hloop|clear Hloop]
  end.
  - repeat split; reflexivity.
  - intros i st' st _ Hst.
    apply (for_range_rel
        (fun st' st : D * VMCSolver D * mat D =>
           fst (fst st') = fst (fst st)
           /\ snd (fst st') = set_beta (snd (fst st)) b
           /\ snd st' = snd st)).
    + exact Hst.
    + intros d [[Ek' s'] R'] [[Ek s0] R0] _ (HEk & Hs & HR).
      cbn [fst snd] in *. subst Ek' s' R'.
      rewrite !update_if_interacting_beta, !Psi_beta. repeat split; reflexivity.
  - destruct (for_range 0 _ _ (_, set_beta self b, R)) as [[Ek' s'] R'].
    destruct (for_range 0 _ _ (_, self, R)) as [[Ek s0] R0].
    cbn [fst snd] in *. destruct Hrel as (-> & -> & ->). reflexivity.
Qed.

(** [E_local] reads beta in the analytic mode in three dimensions, and
    nowhere else. *)
Lemma E_local_beta self (b : D) R :
  snd (fst (E_local (set_beta self b) R)) = set_beta (snd (fst (E_local self R))) b
  /\ snd (E_local (set_beta self b) R) = snd (E_local self R)
  /\ (config.acceleration (_config self) = AnalyticAcceleration.OFF
      \/ config.dims (_config self) <> DIM_3 ->
      fst (fst (E_local (set_beta self b) R)) = fst (fst (E_local self R))).
Proof.
  unfold E_local, one_body_beta_term. cbn [set_beta _config _alpha _beta].
  destruct (config.acceleration (_config self)) eqn:Hacc.
  - split; [reflexivity|]. split; [reflexivity|].
    intros [Habs|Hd]; [discriminate|].
    destruct (config.dims (_config self)) eqn:Hdims; [reflexivity|reflexivity|congruence].
  - rewrite E_kinetic_beta.
    destruct (E_kinetic self R) as [[Ek s'] R']. cbn [fst snd].
    repeat split; reflexivity.
Qed.

(** One move of two walks that differ in beta only. *)
Lemma metropolis_move_beta (b : D) (energies : Prop) c i (P : D) (t' t : MCState D) :
  (energies ->
   config.acceleration c = AnalyticAcceleration.OFF \/ config.dims c <> DIM_3) ->
  _config (solver t) = c ->
  solver t' = set_beta (solver t) b -> R_old t' = R_old t -> R_new t' = R_new t ->
  accepted_moves t' = accepted_moves t -> rand_gen t' = rand_gen t ->
  (energies -> E_sum t' = E_sum t /\ E2_sum t' = E2_sum t) ->
  let r' := metropolis_move i (P, t') in
  let r := metropolis_move i (P, t) in
  fst r' = fst r
  /\ solver (snd r') = set_beta (solver (snd r)) b
  /\ R_old (snd r') = R_old (snd r) /\ R_new (snd r') = R_new (snd r)
  /\ accepted_moves (snd r') = accepted_moves (snd r)
  /\ rand_gen (snd r') = rand_gen (snd r)
  /\ (energies -> E_sum (snd r') = E_sum (snd r) /\ E2_sum (snd r') = E2_sum (snd r)).
Proof.
  intros Hcond Hc Hs Ho Hn Ha Hg HE. cbv zeta.
  rewrite !metropolis_move_unfold. cbv zeta.
  rewrite Hs, Ho, Hn, Ha, Hg. cbn [set_beta _config].
  rewrite !update_beta, !Psi_beta.
  cbn [fst snd solver R_old R_new E_sum E2_sum accepted_moves rand_gen].
  destruct (_ <=? _)%D.
  - match goal with
    | |- context [E_local (set_beta ?s b) ?Rn] =>
        destruct (E_local_beta s b Rn) as (H1 & H2 & H3)
    end.
    rewrite H1, H2.
    do 6 (split; [reflexivity|]).
    intros He. destruct (HE He) as [-> ->].
    rewrite H3; [split; reflexivity|]. cbn [update_distance_matrix set_dist _config].
    rewrite Hc. exact (Hcond He).
  - match goal with
    | |- context [E_local (set_beta ?s b) ?Rn] =>
        destruct (E_local_beta s b Rn) as (H1 & H2 & H3)
    end.
    rewrite H1, H2.
    do 6 (split; [reflexivity|]).
    intros He. destruct (HE He) as [-> ->].
    rewrite H3; [split; reflexivity|]. cbn [update_distance_matrix set_dist _config].
    rewrite Hc. exact (Hcond He).
Qed.

(** X5.  Two runs that differ in beta only, from the same engine state: the
    walks are the same (the same moves are accepted, the positions, the cache
    and the engine end the same), because the trial wavefunction has no beta
    in it; the record of the second run carries its own beta; and unless the
    local energy is the analytic one in three dimensions, the energies and
    the variance are the same as well. *)
Theorem beta_read_in_analytic_3d_only self (b : D) n_cycles (g : rand_gen_t) :
  let r := run_MC self n_cycles g in
  let r' := run_MC (set_beta self b) n_cycles g in
  snd r' = snd r
  /\ snd (fst r') = set_beta (snd (fst r)) b
  /\ res.acceptance_rate (fst (fst r')) = res.acceptance_rate (fst (fst r))
  /\ res.alpha (fst (fst r')) = res.alpha (fst (fst r))
  /\ res.beta (fst (fst r')) = b
  /\ (config.acceleration (_config self) = AnalyticAcceleration.OFF
      \/ config.dims (_config self) <> DIM_3 ->
      res.E (fst (fst r')) = res.E (fst (fst r))
      /\ res.E2 (fst (fst r')) = res.E2 (fst (fst r))
      /\ res.variance (fst (fst r')) = res.variance (fst (fst r))).
Proof.
  cbv zeta. unfold run_MC. cbn [fst snd].
  set (energies := config.acceleration (_config self) = AnalyticAcceleration.OFF
                   \/ config.dims (_config self) <> DIM_3).
  set (Rel := fun t' t : MCState D =>
    _config (solver t) = _config self
    /\ solver t' = set_beta (solver t) b
    /\ R_old t' = R_old t /\ R_new t' = R_new t
    /\ accepted_moves t' = accepted_moves t
    /\ rand_gen t' = rand_gen t
    /\ (energies -> E_sum t' = E_sum t /\ E2_sum t' = E2_sum t)).
  assert (Rel (mc_walk n_cycles (mc_start (set_beta self b) g))
              (mc_walk n_cycles (mc_start self g))) as Hwalk.
  { unfold mc_walk. apply (for_range_rel Rel).
    - unfold Rel, mc_start. cbn [set_beta _config].
      destruct (random_start (_config self) g) as [[Ro Rn] g']. cbn.
      repeat split; reflexivity.
    - intros _ t' t _ (Hc & Hs & Ho & Hn & Ha & Hg & HE). unfold mc_cycle.
      rewrite Hs, Ho, Psi_beta.
      change (n_of (set_beta (solver t) b)) with (n_of (solver t)).
      cut (let st' := for_range 0 (n_of (solver t)) metropolis_move
                        (Psi (solver t) (R_old t), t') in
           let st := for_range 0 (n_of (solver t)) metropolis_move
                        (Psi (solver t) (R_old t), t) in
           fst st' = fst st /\ Rel (snd st') (snd st)).
      { cbv zeta. intros [_ H]. exact H. }
      cbv zeta.
      apply (for_range_rel (fun st' st : D * MCState D =>
               fst st' = fst st /\ Rel (snd st') (snd st))).
      + split; [reflexivity|]. exact (conj Hc (conj Hs (conj Ho (conj Hn (conj Ha (conj Hg HE)))))).
      + intros i [P' u'] [P u] _ [HP (Hc1 & Hs1 & Ho1 & Hn1 & Ha1 & Hg1 & HE1)].
        cbn [fst snd] in *. subst P'.
        destruct (metropolis_move_beta b energies (_config self) i P u' u
                    (fun He => He) Hc1 Hs1 Ho1 Hn1 Ha1 Hg1 HE1)
          as (HP & Hs2 & Ho2 & Hn2 & Ha2 & Hg2 & HE2).
        split; [exact HP|].
        unfold Rel. split; [|auto 10].
        rewrite (proj1 (metropolis_move_frame i P u)). exact Hc1. }
  destruct Hwalk as (Hc & Hs & Ho & Hn & Ha & Hg & HE).
  unfold mc_results. cbn [res.E res.E2 res.variance res.alpha res.beta res.acceptance_rate].
  rewrite Hs, Ha, Hg. cbn [set_beta _alpha _beta].
  change (n_of (set_beta ?s b)) with (n_of s).
  do 5 (split; [reflexivity|]).
  intros He. destruct (HE He) as [-> ->]. repeat split; reflexivity.
Qed.

End BetaUse.

Module BetaExample.
Import Binary64 Examples.

Lemma beta_read_in_analytic_3d_only_witness :
  res.E (fst (fst (run_MC (set_beta fresh 7%float) 2 g0)))
  = res.E (fst (fst (run_MC fresh 2 g0)))
  /\ res.variance (fst (fst (run_MC (set_beta fresh 7%float) 2 g0)))
     = res.variance (fst (fst (run_MC fresh 2 g0))).
Proof.
  destruct (beta_read_in_analytic_3d_only fresh 7%float 2 g0) as (_ & _ & _ & _ & _ & H).
  destruct H as (HE & _ & HV); [left; reflexivity|].
  split; [exact HE|exact HV].
Defined.

End BetaExample.

(** ** The harmonic oscillator without interaction, in the reals *)

(** Two loops over the same range keep a relation that may mention the
    index. *)
Lemma for_range_rel_ind {S T : Type} (Rel : nat -> S -> T -> Prop) (lo hi : nat)
    (f : nat -> S -> S) (g : nat -> T -> T) (s : S) (t : T) :
  lo <= hi ->
  Rel lo s t ->
  (forall i s' t', lo <= i < hi -> Rel i s' t' -> Rel (i + 1) (f i s') (g i t')) ->
  Rel hi (for_range lo hi f s) (for_range lo hi g t).
Proof.
  intros Hle Hst Hstep.
  refine (for_range_ind (fun k s' => Rel k s' (for_range lo k g t)) lo hi f s Hle _ _).
  - rewrite for_range_empty by lia. exact Hst.
  - intros i s' Hi Hrel. rewrite for_range_snoc by lia. apply Hstep; assumption.
Qed.

Section HarmonicOscillator.
Context `{!MathLib R, !RandomEngine R}.
Implicit Types (self : VMCSolver R) (X : mat R).
Open Scope R_scope.

Lemma to_int_IZR (z : Z) : Exact.to_int (IZR z) = z.
Proof.
  unfold Exact.to_int. destruct (Rle_dec 0 (IZR z)) as [Hle|Hlt].
  - symmetry. apply Int_part_spec. lra.
  - rewrite <- opp_IZR. rewrite <- (Int_part_spec (IZR (- z)) (- z)%Z); [lia|]. lra.
Qed.

(** Scaling the third coordinate by 1 changes nothing. *)
Lemma skew_one (r : list R) : skew 1 r = r.
Proof.
  unfold skew, vget. destruct (r !! 2%nat) as [x|] eqn:Hx; simpl.
  - rewrite Rmult_1_r. apply list_insert_id. exact Hx.
  - apply list_insert_ge. apply lookup_ge_None. exact Hx.
Qed.

(** The analytic local energy without interaction, in closed form. *)
Lemma E_local_harmonic self X :
  config.acceleration (_config self) = AnalyticAcceleration.ON ->
  config.interaction (_config self) = InteractionType.OFF ->
  (config.dims (_config self) <> DIM_3
   \/ (config.ho_type (_config self) = SYMMETRIC /\ _beta self = 1)) ->
  fst (fst (E_local self X))
  = (config.omega_ho (_config self) / 2 - 2 * (_alpha self * _alpha self))
    * sum_squares self X
    + _alpha self * INR (dims_of self) * INR (n_of self).
Proof.
  intros Hacc Hint Hcase.
  assert (one_body_beta_term self = (- Z.of_nat (dims_of self))%Z) as Hobt.
  { unfold one_body_beta_term, dims_of.
    destruct (config.dims (_config self)) eqn:Hd; simpl.
    - rewrite <- opp_IZR. apply to_int_IZR.
    - rewrite <- opp_IZR. apply to_int_IZR.
    - destruct Hcase as [Hne|[_ ->]]; [congruence|].
      replace (- (2 + 1)) with (IZR (-3)) by lra. apply to_int_IZR. }
  assert (forall r : list R,
            match config.dims (_config self) with
            | DIM_3 => skew (_beta self) r
            | _ => r
            end = r) as Hskew.
  { intros r. destruct (config.dims (_config self)) eqn:Hd; try reflexivity.
    destruct Hcase as [Hne|[_ ->]]; [congruence|]. apply skew_one. }
  assert (V_ext self X = / 2 * (config.omega_ho (_config self) * sum_squares self X))
    as Hext.
  { unfold V_ext, sum_squares. cbv zeta.
    change (@d_half R _) with (1 / 2). replace (1 / 2) with (/ 2) by lra. f_equal.
    apply (for_range_rel (fun pot g => pot = config.omega_ho (_config self) * g)).
    - simpl. lra.
    - intros i pot g _ ->.
      assert (match config.ho_type (_config self), config.dims (_config self) with
              | ELLIPTICAL, DIM_3 => False
              | _, _ => True
              end) as Hbranch.
      { destruct Hcase as [Hne|[-> _]].
        - destruct (config.ho_type (_config self)),
            (config.dims (_config self)); try exact I. congruence.
        - destruct (config.dims (_config self)); exact I. }
      destruct (config.ho_type (_config self)), (config.dims (_config self));
        try contradiction; simpl; ring. }
  unfold E_local. rewrite Hacc. cbv zeta. cbn [fst]. rewrite Hext.
  unfold V_int. rewrite Hint.
  match goal with
  | |- context [for_range 0 ?n ?body ?z] =>
      assert (for_range 0 n body z
              = 4 * (_alpha self * _alpha self) * sum_squares self X
                - 2 * _alpha self * INR (dims_of self) * INR (n_of self)) as ->
  end.
  { unfold sum_squares. fold (n_of self).
    refine (for_range_rel_ind (fun k E_L g =>
      E_L = 4 * (_alpha self * _alpha self) * g
            - 2 * _alpha self * INR (dims_of self) * INR k)
      0 (n_of self) _ _ _ _ (Nat.le_0_l _) _ _).
    - simpl. ring.
    - intros k E_L g _ ->. rewrite Hskew, Hobt, plus_INR, opp_IZR, <- INR_IZR_INZ.
      simpl. ring. }
  change (@d_half R _) with (1 / 2). simpl. field.
Qed.

(** X6.  Without interaction the analytic local energy is, in exact
    arithmetic, [(omega / 2 - 2 alpha^2) * sum |r_k|^2 + alpha * dims * n]
    (in three dimensions: for the symmetric trap at beta = 1); so at
    [omega = 4 alpha^2] it is the same number at every configuration. *)
Theorem E_local_harmonic_closed_form self X :
  config.acceleration (_config self) = AnalyticAcceleration.ON ->
  config.interaction (_config self) = InteractionType.OFF ->
  (config.dims (_config self) <> DIM_3
   \/ (config.ho_type (_config self) = SYMMETRIC /\ _beta self = 1)) ->
  fst (fst (E_local self X))
  = (config.omega_ho (_config self) / 2 - 2 * (_alpha self * _alpha self))
    * sum_squares self X
    + _alpha self * INR (dims_of self) * INR (n_of self)
  /\ (config.omega_ho (_config self) = 4 * (_alpha self * _alpha self) ->
      forall X', fst (fst (E_local self X')) = fst (fst (E_local self X))).
Proof.
  intros Hacc Hint Hcase. split.
  - apply E_local_harmonic; assumption.
  - intros Homega X'. rewrite !E_local_harmonic by assumption.
    rewrite Homega. lra.
Qed.

(** The sums of a walk at [omega = 4 alpha^2]: every move adds the same
    local energy. *)
Lemma ground_state_move self (k i : nat) (P : R) (s : MCState R) :
  config.acceleration (_config self) = AnalyticAcceleration.ON ->
  config.interaction (_config self) = InteractionType.OFF ->
  (config.dims (_config self) <> DIM_3
   \/ (config.ho_type (_config self) = SYMMETRIC /\ _beta self = 1)) ->
  config.omega_ho (_config self) = 4 * (_alpha self * _alpha self) ->
  let c0 := _alpha self * INR (dims_of self) * INR (n_of self) in
  let inv := fun (k : nat) (s : MCState R) =>
    _config (solver s) = _config self /\ _alpha (solver s) = _alpha self
    /\ _beta (solver s) = _beta self
    /\ E_sum s = INR k * c0 /\ E2_sum s = INR k * (c0 * c0) in
  inv k s -> inv (k + 1)%nat (snd (metropolis_move i (P, s))).
Proof.
  intros Hacc Hint Hcase Homega c0 inv (Hc & Ha & Hb & HE & HE2).
  destruct (metropolis_move_frame i P s) as (Hc' & Ha' & Hb' & _).
  unfold inv. rewrite Hc', Ha', Hb'.
  split; [exact Hc|]. split; [exact Ha|]. split; [exact Hb|].
  rewrite metropolis_move_unfold. cbn [snd E_sum E2_sum].
  match goal with
  | |- context [E_local ?s2 ?Rn] =>
      assert (fst (fst (E_local s2 Rn)) = c0) as ->
  end.
  { rewrite E_local_harmonic.
    - destruct (_ <=? _)%D; cbn [update_distance_matrix set_dist _config _alpha];
        unfold dims_of, n_of; cbn [update_distance_matrix set_dist _config _alpha];
        rewrite Hc, Ha, Homega; unfold c0, dims_of, n_of; field.
    - destruct (_ <=? _)%D; cbn [update_distance_matrix set_dist _config];
        rewrite Hc; exact Hacc.
    - destruct (_ <=? _)%D; cbn [update_distance_matrix set_dist _config];
        rewrite Hc; exact Hint.
    - destruct (_ <=? _)%D; cbn [update_distance_matrix set_dist _config _beta];
        rewrite Hc, Hb; exact Hcase. }
  rewrite HE, HE2, plus_INR. simpl. split; ring.
Qed.


End HarmonicOscillator.

Module GroundExample.
Import Ground.
Open Scope R_scope.

Lemma E_local_harmonic_closed_form_witness :
  fst (fst (E_local solver (zeros 3 2))) = fst (fst (E_local solver positions)).
Proof.
  destruct (E_local_harmonic_closed_form solver positions) as [_ H].
  - reflexivity.
  - reflexivity.
  - right. split; reflexivity.
  - apply H. simpl. lra.
Defined.


End GroundExample.

(** ** Moves into an overlap, in binary64 *)

Lemma SFmul_zero_r x s : zero_or_nan (SF64mul x (S754_zero s)).
Proof. destruct x as [sx|sx| |sx m e]; simpl; exact I. Qed.

Lemma SFmul_zero_or_nan x y : zero_or_nan x -> zero_or_nan y -> zero_or_nan (SF64mul x y).
Proof. destruct x as [sx|sx| |sx m e], y as [sy|sy| |sy m' e']; simpl; tauto. Qed.

Lemma SFdiv_zero_or_nan x y : zero_or_nan x -> zero_or_nan (SF64div x y).
Proof. destruct x as [sx|sx| |sx m e], y as [sy|sy| |sy m' e']; simpl; tauto. Qed.

Lemma SFdiv_zero_zero x y : zero_or_nan x -> zero_or_nan y -> SF64div x y = S754_nan.
Proof. destruct x as [sx|sx| |sx m e], y as [sy|sy| |sy m' e']; simpl; tauto. Qed.

(** Between zero and a zero there are the zeros only. *)
Lemma SFleb_zero_or_nan u x :
  zero_or_nan x -> SFleb (S754_zero false) u = true -> SFleb u x = true ->
  SFeqb u (S754_zero false) = true.
Proof.
  destruct x as [sx|sx| |sx m e]; simpl; try tauto; intros _.
  - destruct u as [su|su| |su mu eu]; try (destruct su); try destruct sx; cbv; congruence.
  - destruct u as [su|su| |su mu eu]; try (destruct su); cbv; congruence.
Qed.

Section OverlapMoves.
Context `{!MathLib float, !RandomEngine float}.
Implicit Types (self : VMCSolver float) (R : mat float).

Lemma Psi_overlap self R :
  config.interaction (_config self) = InteractionType.ON ->
  overlap self = true ->
  zero_or_nan (Prim2SF (Psi self R)).
Proof.
  intros Hint Hov. unfold Psi. rewrite Psi_f_refines. unfold jastrow_spec.
  rewrite Hint, Hov. change (@d0 float _) with 0%float.
  change (@dmul float _) with PrimFloat.mul.
  rewrite FloatAxioms.mul_spec. apply SFmul_zero_r.
Qed.

Lemma ratio_zero_or_nan (Pn Po : float) :
  zero_or_nan (Prim2SF Pn) ->
  zero_or_nan (Prim2SF (acceptance_ratio Pn Po))
  /\ (zero_or_nan (Prim2SF Po) -> Prim2SF (acceptance_ratio Pn Po) = S754_nan).
Proof.
  intros Hn. unfold acceptance_ratio.
  change (@dmul float _) with PrimFloat.mul. change (@ddiv float _) with PrimFloat.div.
  rewrite FloatAxioms.div_spec, !FloatAxioms.mul_spec. split.
  - apply SFdiv_zero_or_nan, SFmul_zero_or_nan; exact Hn.
  - intros Ho. apply SFdiv_zero_zero; apply SFmul_zero_or_nan; assumption.
Qed.

Lemma test_at_zero (u Pn Po : float) :
  zero_or_nan (Prim2SF Pn) ->
  (d0 <=? u)%D = true ->
  (u <=? acceptance_ratio Pn Po)%D = true ->
  (u =? 0)%float = true /\ ~ zero_or_nan (Prim2SF Po).
Proof.
  intros Hn H0 Hle.
  destruct (ratio_zero_or_nan Pn Po Hn) as [Hz Hnan].
  change (@dle float _) with PrimFloat.leb in H0, Hle.
  change (@d0 float _) with 0%float in H0.
  rewrite FloatAxioms.leb_spec in H0, Hle. split.
  - rewrite FloatAxioms.eqb_spec. exact (SFleb_zero_or_nan _ _ Hz H0 Hle).
  - intros Ho. rewrite (Hnan Ho) in Hle.
    unfold SFleb in Hle. rewrite Binary64Order.SFcompare_nan_r in Hle. discriminate.
Qed.

(** X8.  In binary64, with interaction: a trial configuration whose cache
    shows an overlap has a wavefunction that is a zero or NaN, and the move
    there is rejected for every draw but the draw 0; it is rejected for
    every draw when the wavefunction of the current configuration is a zero
    or NaN as well (the ratio is then NaN).  A rejected move keeps the
    count, the positions and [Psi_old]. *)
Theorem overlap_move_rejected i (Psi_old : float) (s : MCState float) :
  let c := _config (solver s) in
  let trial := fst (propose c i (R_old s) (R_new s) (rand_gen s)) in
  let g1 := snd (propose c i (R_old s) (R_new s) (rand_gen s)) in
  let self1 := update_distance_matrix (solver s) i trial in
  let result := metropolis_move i (Psi_old, s) in
  config.interaction c = InteractionType.ON ->
  overlap self1 = true ->
  (fst (unif g1) =? 0)%float = false \/ zero_or_nan (Prim2SF Psi_old) ->
  accepted_moves (snd result) = accepted_moves s
  /\ R_old (snd result) = R_old s
  /\ fst result = Psi_old.
Proof.
  cbv zeta. intros Hint Hov Hcase.
  rewrite metropolis_move_unfold. cbv zeta.
  cbn [fst snd accepted_moves R_old].
  destruct (_ <=? _)%D eqn:Hacc; [|repeat split; reflexivity].
  exfalso.
  apply test_at_zero in Hacc.
  - destruct Hacc as [Hu Ho]. destruct Hcase as [Hne|Hz]; [congruence|tauto].
  - apply Psi_overlap; assumption.
  - apply unif_range.
Qed.
End OverlapMoves.


Module OverlapExample.
Import Binary64 Examples.

Lemma overlap_move_rejected_witness :
  accepted_moves (snd (metropolis_move 0 (1%float, mc_start solver_overlap (1%nat : @rand_gen_t float _ tape_engine))))
  = 0%Z.
Proof.
  apply (overlap_move_rejected 0 1%float (mc_start solver_overlap (1%nat : @rand_gen_t float _ tape_engine))).
  - reflexivity.
  - vm_compute. reflexivity.
  - left. vm_compute. reflexivity.
Defined.

End OverlapExample.

(** ** The sweep as a sequence of runs *)

Section SweepAsRuns.
Context {D : Type} `{!Double D, !MathLib D, !RandomEngine D}.
Implicit Types (self : VMCSolver D) (r : Results D) (s : SweepState D).

(** A run assigns no parameter. *)
Lemma run_MC_frame self n_cycles (g : rand_gen_t) :
  _config (snd (fst (run_MC self n_cycles g))) = _config self
  /\ _alpha (snd (fst (run_MC self n_cycles g))) = _alpha self
  /\ _beta (snd (fst (run_MC self n_cycles g))) = _beta self.
Proof.
  unfold run_MC. cbn [fst snd]. unfold mc_walk.
  apply (for_range_inv (fun t : MCState D =>
           _config (solver t) = _config self /\ _alpha (solver t) = _alpha self
           /\ _beta (solver t) = _beta self)).
  - unfold mc_start. destruct (random_start (_config self) g) as [[Ro Rn] g'].
    repeat split; reflexivity.
  - intros _ t _ Ht. unfold mc_cycle.
    apply (for_range_inv (fun st : D * MCState D =>
           _config (solver (snd st)) = _config self
           /\ _alpha (solver (snd st)) = _alpha self
           /\ _beta (solver (snd st)) = _beta self)).
    + exact Ht.
    + intros i [P u] _ (Hc & Ha & Hb). cbn [snd] in *.
      destruct (metropolis_move_frame i P u) as (Hc' & Ha' & Hb' & _).
      rewrite Hc', Ha', Hb'. auto.
Qed.

Lemma sweep_runs_app n_cycles (p1 p2 : list (D * D)) self (g : rand_gen_t) :
  sweep_runs n_cycles (p1 ++ p2) self g
  = let '(rs1, self1, g1) := sweep_runs n_cycles p1 self g in
    let '(rs2, self2, g2) := sweep_runs n_cycles p2 self1 g1 in
    (rs1 ++ rs2, self2, g2).
Proof.
  revert self g. induction p1 as [|p p1 IH]; intros self g; cbn [sweep_runs app].
  - destruct (sweep_runs n_cycles p2 self g) as [[rs2 self2] g2]. reflexivity.
  - destruct (run_MC (set_beta (set_alpha self (fst p)) (snd p)) n_cycles g)
      as [[r self1] g1]. rewrite IH.
    destruct (sweep_runs n_cycles p1 self1 g1) as [[rs1 self1'] g1'].
    destruct (sweep_runs n_cycles p2 self1' g1') as [[rs2 self2] g2]. reflexivity.
Qed.

(** The runs do not depend on the alpha the solver holds before them. *)
Lemma sweep_runs_alpha n_cycles (points : list (D * D)) self self' (g : rand_gen_t) :
  (forall x, set_alpha self' x = set_alpha self x) ->
  fst (fst (sweep_runs n_cycles points self' g)) = fst (fst (sweep_runs n_cycles points self g))
  /\ snd (sweep_runs n_cycles points self' g) = snd (sweep_runs n_cycles points self g)
  /\ forall x, set_alpha (snd (fst (sweep_runs n_cycles points self' g))) x
               = set_alpha (snd (fst (sweep_runs n_cycles points self g))) x.
Proof.
  intros Heq. destruct points as [|p rest]; simpl.
  - auto.
  - rewrite Heq. auto.
Qed.

(** A run reports the parameters the solver holds. *)
Lemma run_MC_params self n_cycles (g : rand_gen_t) :
  res.alpha (fst (fst (run_MC self n_cycles g))) = _alpha self
  /\ res.beta (fst (fst (run_MC self n_cycles g))) = _beta self.
Proof.
  destruct (run_MC_frame self n_cycles g) as (_ & Ha & Hb).
  split; [rewrite <- Ha|rewrite <- Hb]; reflexivity.
Qed.

(** Each run reports the parameters of its grid point. *)
Lemma sweep_runs_points n_cycles (points : list (D * D)) self (g : rand_gen_t) :
  map (fun r => (res.alpha r, res.beta r)) (fst (fst (sweep_runs n_cycles points self g)))
  = points.
Proof.
  revert self g. induction points as [|[a b] rest IH]; intros self g; cbn [sweep_runs].
  - reflexivity.
  - destruct (run_MC_params (set_beta (set_alpha self a) b) n_cycles g) as (Ha & Hb).
    cbn [fst snd] in *.
    destruct (run_MC (set_beta (set_alpha self a) b) n_cycles g) as [[r self1] g1].
    specialize (IH self1 g1).
    destruct (sweep_runs n_cycles rest self1 g1) as [[rs self'] g'].
    cbn [fst snd map] in *. rewrite IH, Ha, Hb. reflexivity.
Qed.

(** The body of the inner loop, in terms of the run it makes. *)
Lemma sweep_point_run n_cycles (beta : D) s :
  let run := run_MC (set_beta (sweep_solver s) beta) n_cycles (sweep_gen s) in
  sweep_point n_cycles beta s
  = {| sweep_solver := snd (fst run);
       best := pick_best (best s) (fst (fst run));
       out := out s ++ row_of (fst (fst run));
       sweep_gen := snd run |}.
Proof. reflexivity. Qed.

(** The inner loop is the runs of one row of the grid. *)
Lemma sweep_row_runs n_cycles (alpha : D) (betas : list D) s :
  _alpha (sweep_solver s) = alpha ->
  let tr := sweep_runs n_cycles (map (pair alpha) betas) (sweep_solver s) (sweep_gen s) in
  fold_left (fun t beta => sweep_point n_cycles beta t) betas s
  = {| sweep_solver := snd (fst tr);
       best := fold_left pick_best (fst (fst tr)) (best s);
       out := out s ++ flat_map row_of (fst (fst tr));
       sweep_gen := snd tr |}.
Proof.
  cbv zeta. revert s. induction betas as [|beta betas IH]; intros s Halpha.
  - destruct s. simpl. rewrite app_nil_r. reflexivity.
  - cbn [fold_left map sweep_runs fst snd].
    assert (set_alpha (sweep_solver s) alpha = sweep_solver s) as ->
      by (apply solver_eq; auto).
    destruct (run_MC_frame (set_beta (sweep_solver s) beta) n_cycles (sweep_gen s))
      as (_ & Ha & _).
    rewrite IH by (rewrite sweep_point_run; cbn [sweep_solver]; rewrite Ha; exact Halpha).
    rewrite sweep_point_run. cbv zeta. cbn [sweep_solver sweep_gen best out].
    destruct (run_MC (set_beta (sweep_solver s) beta) n_cycles (sweep_gen s))
      as [[r self1] g1]. cbn [fst snd].
    destruct (sweep_runs n_cycles (map (pair alpha) betas) self1 g1) as [[rs self'] g'].
    cbn [fst snd fold_left flat_map]. rewrite <- app_assoc. reflexivity.
Qed.

(** [vmc] is the runs over the grid: what it sends to the stream, the record
    it returns and the engine it leaves. *)
Lemma vmc_runs self (n_cycles : Z) (out0 : list (out_item D))
    (alpha_min alpha_max alpha_n beta_min beta_max beta_n : D)
    (best0 : Results D) (g : rand_gen_t) :
  let alphas := arma_linspace alpha_min alpha_max alpha_n in
  let betas := arma_linspace beta_min beta_max beta_n in
  let s := vmc self n_cycles out0 alpha_min alpha_max alpha_n
               beta_min beta_max beta_n best0 g in
  let tr := sweep_runs n_cycles (grid alphas betas) self g in
  out s = out0 ++ OutText header :: flat_map row_of (fst (fst tr)) ++ [OutFlush]
  /\ best s = fold_left pick_best (fst (fst tr)) (set_variance best0 d_max)
  /\ sweep_gen s = snd tr.
Proof.
  cbv zeta. unfold vmc. cbn [out best sweep_gen].
  set (alphas := arma_linspace alpha_min alpha_max alpha_n).
  set (betas := arma_linspace beta_min beta_max beta_n).
  set (row := fun (t : SweepState D) (alpha : D) =>
    fold_left (fun t' beta => sweep_point n_cycles beta t') betas
      {| sweep_solver := set_alpha (sweep_solver t) alpha; best := best t;
         out := out t; sweep_gen := sweep_gen t |}).
  assert (forall (l : list D) (t : SweepState D) self',
            (forall x, set_alpha self' x = set_alpha (sweep_solver t) x) ->
            let tr := sweep_runs n_cycles (grid l betas) self' (sweep_gen t) in
            let t' := fold_left row l t in
            out t' = out t ++ flat_map row_of (fst (fst tr))
            /\ best t' = fold_left pick_best (fst (fst tr)) (best t)
            /\ sweep_gen t' = snd tr) as Hrows.
  { induction l as [|alpha l IH]; intros t self' Heq; cbv zeta.
    - simpl. rewrite app_nil_r. auto.
    - cbn [fold_left grid flat_map]. fold (grid l betas).
      rewrite sweep_runs_app.
      destruct (sweep_runs_alpha n_cycles (map (pair alpha) betas)
                  (set_alpha (sweep_solver t) alpha) self' (sweep_gen t))
        as (Hrs & Hg & Hs).
      { intros x. rewrite Heq. reflexivity. }
      pose proof (sweep_row_runs n_cycles alpha betas
                    {| sweep_solver := set_alpha (sweep_solver t) alpha; best := best t;
                       out := out t; sweep_gen := sweep_gen t |} eq_refl) as Hrow.
      cbv zeta in Hrow. cbn [sweep_solver sweep_gen best out] in Hrow.
      fold (row t alpha) in Hrow.
      destruct (sweep_runs n_cycles (map (pair alpha) betas) self' (sweep_gen t))
        as [[rs1 self1] g1].
      destruct (sweep_runs n_cycles (map (pair alpha) betas)
                  (set_alpha (sweep_solver t) alpha) (sweep_gen t)) as [[rs1' self1'] g1'].
      cbn [fst snd] in *. subst rs1 g1.
      specialize (IH (row t alpha) self1).
      rewrite Hrow in IH. cbn [sweep_solver sweep_gen best out] in IH.
      specialize (IH Hs). cbv zeta in IH. rewrite <- Hrow in IH.
      destruct (sweep_runs n_cycles (grid l betas) self1 g1') as [[rs2 self2] g2].
      cbn [fst snd] in *. destruct IH as (Ho & Hb & Hg').
      rewrite Ho, Hb, Hg', flat_map_app, fold_left_app, app_assoc. auto. }
  destruct (Hrows alphas
              {| sweep_solver := self; best := set_variance best0 d_max;
                 out := out0 ++ [OutText header]; sweep_gen := g |} self
              (fun x => eq_refl)) as (Ho & Hb & Hg).
  cbn [sweep_solver sweep_gen best out] in *.
  fold row. rewrite Ho, Hb, Hg, <- !app_assoc. auto.
Qed.

(** X9.  [vmc] is a sequence of runs over the grid, alpha-major: the stream
    receives the header, the row of each run in grid order and the flush;
    each run reports the parameters of its grid point; each run continues on
    the solver and from the engine state the run before it left; and the
    record returned is the fold of the test of line 275 over the runs,
    starting from the uninitialised record with variance [d_max]. *)
Theorem vmc_runs_over_grid self (n_cycles : Z) (out0 : list (out_item D))
    (alpha_min alpha_max alpha_n beta_min beta_max beta_n : D)
    (best0 : Results D) (g : rand_gen_t) :
  let alphas := arma_linspace alpha_min alpha_max alpha_n in
  let betas := arma_linspace beta_min beta_max beta_n in
  let s := vmc self n_cycles out0 alpha_min alpha_max alpha_n
               beta_min beta_max beta_n best0 g in
  let tr := sweep_runs n_cycles (grid alphas betas) self g in
  out s = out0 ++ OutText header :: flat_map row_of (fst (fst tr)) ++ [OutFlush]
  /\ map (fun r => (res.alpha r, res.beta r)) (fst (fst tr)) = grid alphas betas
  /\ best s = fold_left pick_best (fst (fst tr)) (set_variance best0 d_max)
  /\ sweep_gen s = snd tr.
Proof.
  cbv zeta.
  destruct (vmc_runs self n_cycles out0 alpha_min alpha_max alpha_n
              beta_min beta_max beta_n best0 g) as (Ho & Hb & Hg).
  split; [exact Ho|]. split; [apply sweep_runs_points|]. split; [exact Hb|exact Hg].
Qed.

(** The record kept by the test of line 275 is the one it started from or
    one of those it was shown. *)
Lemma pick_best_fold_cases (rs : list (Results D)) (b : Results D) :
  fold_left pick_best rs b = b \/ In (fold_left pick_best rs b) rs.
Proof.
  revert b. induction rs as [|r rs IH]; intros b; simpl.
  - left. reflexivity.
  - destruct (IH (pick_best b r)) as [Heq|Hin].
    + rewrite Heq. unfold pick_best. destruct (_ <? _)%D; auto.
    + right. right. exact Hin.
Qed.

Lemma pick_best_fold_keeps (rs : list (Results D)) (b : Results D) :
  Forall (fun r => (res.variance r <? res.variance b)%D = false) rs ->
  fold_left pick_best rs b = b.
Proof.
  induction 1 as [|r rs Hr _ IH]; simpl.
  - reflexivity.
  - replace (pick_best b r) with b by (unfold pick_best; rewrite Hr; reflexivity).
    exact IH.
Qed.

Lemma pick_best_fold_in (rs : list (Results D)) (b : Results D) :
  Exists (fun r => (res.variance r <? res.variance b)%D = true) rs ->
  In (fold_left pick_best rs b) rs.
Proof.
  intros Hex. revert b Hex. induction rs as [|r rs IH]; intros b Hex.
  - inversion Hex.
  - cbn [fold_left].
    destruct (res.variance r <? res.variance b)%D eqn:Hr.
    + replace (pick_best b r) with r by (unfold pick_best; rewrite Hr; reflexivity).
      destruct (pick_best_fold_cases rs r) as [Heq|Hin].
      * left. symmetry. exact Heq.
      * right. exact Hin.
    + replace (pick_best b r) with b by (unfold pick_best; rewrite Hr; reflexivity).
      right. apply IH. inversion Hex; subst; [congruence|assumption].
Qed.

(** X10.  When [vmc] returns the record it never initialised: if no run has
    a variance below [d_max] (each is NaN, infinite or [d_max] itself) the
    record returned is the uninitialised one with its variance set to
    [d_max], and its other fields were never assigned; if some run has a
    variance below [d_max] the record returned is the result of a run.  More
    generally a run replaces the record kept so far only on a strictly
    smaller variance: after the runs [rs1], runs [rs2] none of which is
    strictly below the record kept leave it in place. *)
Theorem vmc_best_uninitialised self (n_cycles : Z) (out0 : list (out_item D))
    (alpha_min alpha_max alpha_n beta_min beta_max beta_n : D)
    (best0 : Results D) (g : rand_gen_t) :
  let alphas := arma_linspace alpha_min alpha_max alpha_n in
  let betas := arma_linspace beta_min beta_max beta_n in
  let s := vmc self n_cycles out0 alpha_min alpha_max alpha_n
               beta_min beta_max beta_n best0 g in
  let rs := fst (fst (sweep_runs n_cycles (grid alphas betas) self g)) in
  (Forall (fun r => (res.variance r <? d_max)%D = false) rs ->
   best s = set_variance best0 d_max)
  /\ (Exists (fun r => (res.variance r <? d_max)%D = true) rs -> In (best s) rs)
  /\ (forall rs1 rs2, rs = rs1 ++ rs2 ->
      let kept := fold_left pick_best rs1 (set_variance best0 d_max) in
      Forall (fun r => (res.variance r <? res.variance kept)%D = false) rs2 ->
      best s = kept).
Proof.
  cbv zeta.
  destruct (vmc_runs self n_cycles out0 alpha_min alpha_max alpha_n
              beta_min beta_max beta_n best0 g) as (_ & Hb & _).
  cbv zeta in Hb. rewrite Hb. split; [|split].
  - intros Hall. apply pick_best_fold_keeps. exact Hall.
  - intros Hex. apply pick_best_fold_in. exact Hex.
  - intros rs1 rs2 -> Hall. rewrite fold_left_app. apply pick_best_fold_keeps. exact Hall.
Qed.

End SweepAsRuns.

Module SweepRunsExample.
Import Binary64 Examples.

Lemma vmc_best_uninitialised_witness :
  best (vmc solver_overlap 2%Z [] 0.5%float 0.5%float 1%float
            1%float 1%float 1%float best0 g0)
  = set_variance best0 DBL_MAX
  /\ In (best sweep)
        (fst (fst (sweep_runs 2%Z
                     (grid (arma_linspace 0.25%float 0.75%float 3%float)
                           (arma_linspace 1%float 1%float 1%float))
                     fixture g0))).
Proof.
  split.
  - destruct (vmc_best_uninitialised solver_overlap 2%Z [] 0.5%float 0.5%float 1%float
                1%float 1%float 1%float best0 g0) as (H & _ & _).
    apply H. vm_compute. repeat constructor.
  - destruct (vmc_best_uninitialised fixture 2%Z [] 0.25%float 0.75%float 3%float
                1%float 1%float 1%float (mc_results 0 (mc_start fixture g0)) g0)
      as (_ & H & _).
    apply H. vm_compute. apply Exists_cons_hd. reflexivity.
Defined.

End SweepRunsExample.

(** ** The system of bosons *)

Section SystemFacts.
Import system.
Context {Boson : Type} (Boson_get_dimensions : Boson -> Z) (Boson_print : Boson -> string).
Implicit Types (s : System Boson) (strm : list string).

Lemma subscript_nat s (i : nat) :
  (Z.of_nat i < 2 ^ 64)%Z -> subscript s (Z.of_nat i) = _bosons s !! i.
Proof.
  intros Hi. unfold subscript, to_size_t.
  rewrite Z.mod_small by lia. rewrite Nat2Z.id. reflexivity.
Qed.

Lemma print_loop_prefix s strm (pre bs rest : list Boson) :
  _bosons s = pre ++ bs ++ rest ->
  (Z.of_nat (length (pre ++ bs)) <= INT_MAX + 1)%Z ->
  for_each_ret (seq (length pre) (length bs)) (fun i strm =>
      if (INT_MAX <? Z.of_nat i)%Z then Return tt
      else match subscript s (Z.of_nat i) with
           | None => Return tt
           | Some b => Continue (strm ++ [Boson_print b; ", "])
           end) strm
  = Continue (strm ++ flat_map (fun b => [Boson_print b; ", "]) bs).
Proof.
  revert pre strm. induction bs as [|b bs IH]; intros pre strm Hs Hlen.
  - simpl. rewrite app_nil_r. reflexivity.
  - cbn [length seq for_each_ret].
    rewrite length_app in Hlen. cbn [length] in Hlen. unfold INT_MAX in *.
    destruct (2 ^ 31 - 1 <? Z.of_nat (length pre))%Z eqn:Hov; [lia|].
    rewrite subscript_nat by lia. rewrite Hs.
    rewrite lookup_app_r by lia. rewrite Nat.sub_diag. cbn [lookup list_lookup app].
    replace (S (length pre)) with (length (pre ++ [b])) by (rewrite length_app; simpl; lia).
    rewrite IH.
    + cbn [flat_map]. rewrite <- app_assoc. reflexivity.
    + rewrite Hs, <- app_assoc. reflexivity.
    + rewrite !length_app. cbn [length]. lia.
Qed.

(** X11.  [operator<<] on a [System].  For a system of at least one boson
    (and at most 2^31) the stream receives ["System("], the bosons in order
    separated by [", "], and [")"].  For a system without bosons the call
    has undefined behaviour: the bound [size() - 1] of the loop is computed
    in [size_t] and is 2^64 - 1, and the first iteration reads [_bosons[0]]
    outside the vector; [get_dimensions] reads the same element. *)
Theorem print_system strm s :
  (forall bs b, _bosons s = bs ++ [b] ->
     (Z.of_nat (length (_bosons s)) <= INT_MAX + 1)%Z ->
     print Boson_print strm s
     = Some (strm ++ "System(" :: flat_map (fun x => [Boson_print x; ", "]) bs
                  ++ [Boson_print b; ")"]))
  /\ (_bosons s = [] ->
      print Boson_print strm s = None
      /\ to_size_t (Z.of_nat (length (get_bosons s)) - 1) = (2 ^ 64 - 1)%Z
      /\ get_dimensions Boson_get_dimensions s = None).
Proof.
  split.
  - intros bs b Hs Hlen. unfold print, get_bosons, for_range_ret.
    rewrite Hs in Hlen |- *. rewrite length_app in *. cbn [length] in *.
    unfold INT_MAX in Hlen.
    assert (to_size_t (Z.of_nat (length bs + 1) - 1) = Z.of_nat (length bs)) as ->
      by (unfold to_size_t; rewrite Z.mod_small; lia).
    rewrite Nat2Z.id, Nat.sub_0_r.
    pose proof (print_loop_prefix s (strm ++ ["System("]) [] bs [b] Hs) as Hloop.
    cbn [length app] in Hloop. rewrite Hloop by (unfold INT_MAX; lia).
    assert (to_int (Z.of_nat (length bs)) = Z.of_nat (length bs)) as ->
      by (unfold to_int; rewrite Z.mod_small; lia).
    rewrite subscript_nat by lia. rewrite Hs.
    rewrite lookup_app_r by lia. rewrite Nat.sub_diag. cbn [lookup list_lookup].
    rewrite <- !app_assoc. reflexivity.
  - intros Hs. unfold print, get_bosons, get_dimensions, subscript, for_range_ret.
    rewrite Hs. cbn [length].
    assert (to_size_t (Z.of_nat 0 - 1) = (2 ^ 64 - 1)%Z) as Hb by reflexivity.
    rewrite Hb. split; [|split; [reflexivity|reflexivity]].
    destruct (Z.to_nat (2 ^ 64 - 1) - 0) as [|k] eqn:Hk; [lia|].
    reflexivity.
Qed.
End SystemFacts.

Module SystemExample.
Import system.

Lemma print_system_witness :
  print (fun b : string => b) [] {| _bosons := ["b0"; "b1"; "b2"] |}
  = Some ["System("; "b0"; ", "; "b1"; ", "; "b2"; ")"].
Proof.
  destruct (print_system (fun _ : string => 0%Z) (fun b : string => b) []
              {| _bosons := ["b0"; "b1"; "b2"] |}) as [H _].
  apply (H ["b0"; "b1"] "b2"); [reflexivity|].
  vm_compute. discriminate.
Defined.

End SystemExample.

(** ** Start-up and shut-down *)

Section MpiFacts.
Import mpiutil.
Variable rank : Z.

Lemma initialize_mpi_twice p :
  initialize_mpi rank (initialize_mpi rank p) = initialize_mpi rank p.
Proof.
  unfold initialize_mpi, MPI_Initialized. destruct (initialized (mpi p)) eqn:Hi; simpl.
  - rewrite Hi. reflexivity.
  - reflexivity.
Qed.

Lemma initialize_mpi_iter p (k : nat) :
  Nat.iter (S k) (initialize_mpi rank) p = initialize_mpi rank p.
Proof.
  induction k as [|k IH].
  - reflexivity.
  - change (Nat.iter (S (S k)) (initialize_mpi rank) p)
      with (initialize_mpi rank (Nat.iter (S k) (initialize_mpi rank) p)).
    rewrite IH. apply initialize_mpi_twice.
Qed.

(** X12.  [initialize_mpi] may be called any number of times: every call
    after the first changes nothing.  When MPI was initialised already (by
    the caller, or by an earlier call) it registers no exit handler and does
    not seed the random engine; in a process in which MPI is untouched it
    calls [MPI_Init] (no erroneous call), registers [library_onexit] once
    and seeds the engine once, with 12345 plus the rank. *)
Theorem initialize_mpi_once p (k : nat) :
  Nat.iter (S k) (initialize_mpi rank) p = initialize_mpi rank p
  /\ (initialized (mpi p) = true -> initialize_mpi rank p = p)
  /\ (untouched (mpi p) ->
      mpi (initialize_mpi rank p)
      = {| initialized := true; finalized := false; erroneous := false |}
      /\ atexit_handlers (initialize_mpi rank p)
         = library_onexit_handler :: atexit_handlers p
      /\ seeds (initialize_mpi rank p) = (12345 + rank)%Z :: seeds p).
Proof.
  split; [apply initialize_mpi_iter|]. split.
  - intros Hi. unfold initialize_mpi, MPI_Initialized. rewrite Hi. reflexivity.
  - intros (Hi & Hf & He). unfold initialize_mpi, MPI_Initialized, MPI_Init.
    rewrite Hi, Hf, He. simpl. auto.
Qed.

(** X13.  Shut-down.  In a process that starts with MPI untouched and no
    exit handler, after one or more calls of [initialize_mpi] the exit
    handlers finalize MPI, once and without an erroneous call; running them
    again changes nothing; when the program has called [MPI_Finalize]
    itself, they do not call it again.  Without a call of [initialize_mpi]
    nothing is registered and exit leaves MPI alone; but [library_onexit]
    called directly in such a process calls [MPI_Finalize] before
    [MPI_Init], which is erroneous. *)
Theorem exit_finalizes_once p (k : nat) :
  untouched (mpi p) -> atexit_handlers p = [] ->
  let started := Nat.iter (S k) (initialize_mpi rank) p in
  mpi (exit started) = {| initialized := true; finalized := true; erroneous := false |}
  /\ exit (exit started) = exit started
  /\ (let finalized_by_hand :=
        {| mpi := MPI_Finalize (mpi started); atexit_handlers := atexit_handlers started;
           seeds := seeds started |} in
      exit finalized_by_hand = finalized_by_hand
      /\ erroneous (mpi finalized_by_hand) = false)
  /\ exit p = p
  /\ erroneous (mpi (library_onexit p)) = true.
Proof.
  intros (Hi & Hf & He) Hh. cbv zeta. rewrite initialize_mpi_iter.
  unfold exit, initialize_mpi, MPI_Initialized. rewrite Hi, Hh. simpl.
  unfold library_onexit, MPI_Finalized, MPI_Finalize, MPI_Init. simpl.
  rewrite Hi, Hf, He. simpl. repeat split.
Qed.

End MpiFacts.

Module MpiExample.
Import mpiutil.

Lemma initialize_mpi_once_witness :
  seeds (initialize_mpi 3 fresh_process) = [12348%Z]
  /\ atexit_handlers (initialize_mpi 3 fresh_process) = [library_onexit_handler].
Proof.
  destruct (initialize_mpi_once 3 fresh_process 0) as (_ & _ & H).
  destruct H as (_ & Hh & Hs); [repeat split|].
  split; [exact Hs|exact Hh].
Defined.

Lemma exit_finalizes_once_witness :
  mpi (exit (Nat.iter 3 (initialize_mpi 3) fresh_process))
  = {| initialized := true; finalized := true; erroneous := false |}.
Proof.
  destruct (exit_finalizes_once 3 fresh_process 2) as (H & _); [repeat split|reflexivity|].
  exact H.
Defined.

End MpiExample.

(** ** A run does not depend on the cache it finds *)

Section FreshRuns.
Context {D : Type} `{!Double D, !MathLib D, !RandomEngine D}.
Implicit Types (M R : mat D) (self : VMCSolver D).

(** On solvers as the code leaves them the cache after
    [initialize_distance_matrix] is determined by the configuration. *)
Lemma initialize_forgets self self' R :
  solver_wf self -> solver_wf self' ->
  _config self' = _config self -> _alpha self' = _alpha self -> _beta self' = _beta self ->
  initialize_distance_matrix self' R = initialize_distance_matrix self R.
Proof.
  intros [Hs Hz] [Hs' Hz'] Hc Ha Hb.
  assert (n_of self' = n_of self) as Hn by (unfold n_of; rewrite Hc; reflexivity).
  rewrite Hn in Hs'.
  destruct (initialize_spec self R Hs) as [Hs1 Hget].
  destruct (initialize_spec self' R) as [Hs1' Hget']; [rewrite Hn; exact Hs'|].
  rewrite Hn in Hs1', Hget'.
  apply solver_eq; try assumption.
  apply (mat_ext (n_of self) (n_of self)); [exact Hs1'|exact Hs1|].
  intros r c Hr Hcn. rewrite Hget, Hget'.
  destruct (decide (r < c < n_of self)) as [_|Hout]; [reflexivity|].
  rewrite Hz, Hz' by lia. reflexivity.
Qed.

(** X14.  [run_MC] forgets the cache it finds: on solvers as the code leaves
    them (a cache of the right dimensions that is zero on and below the
    diagonal) the results, the solver left behind and the engine left behind
    are determined by the configuration, alpha, beta, the number of cycles
    and the state of the engine.  So a grid point of the sweep gives what a
    freshly constructed solver gives from the same engine state: the runs of
    a sweep are coupled through the random stream only. *)
Theorem run_MC_forgets_cache self self' n_cycles (g : rand_gen_t) :
  solver_wf self -> solver_wf self' ->
  _config self' = _config self -> _alpha self' = _alpha self -> _beta self' = _beta self ->
  run_MC self' n_cycles g = run_MC self n_cycles g
  /\ run_MC self n_cycles g
     = run_MC (set_beta (set_alpha (VMCSolver_new (_config self) d0 d0) (_alpha self))
                 (_beta self)) n_cycles g.
Proof.
  intros Hwf Hwf' Hc Ha Hb.
  assert (forall s s' : VMCSolver D,
            solver_wf s -> solver_wf s' ->
            _config s' = _config s -> _alpha s' = _alpha s -> _beta s' = _beta s ->
            run_MC s' n_cycles g = run_MC s n_cycles g) as Hrun.
  { intros s s' Hs Hs' Hc' Ha' Hb'. unfold run_MC, mc_start. rewrite Hc'.
    destruct (random_start (_config s) g) as [[Ro Rn] g'].
    rewrite (initialize_forgets s s' Ro Hs Hs' Hc' Ha' Hb'). reflexivity. }
  split; [exact (Hrun self self' Hwf Hwf' Hc Ha Hb)|].
  symmetry. apply Hrun; try reflexivity; [exact Hwf|].
  apply solver_wf_set_beta, solver_wf_set_alpha, solver_wf_new.
Qed.

End FreshRuns.

Module FreshRunsExample.
Import Binary64 Examples.

Lemma cached_wf : solver_wf cached.
Proof.
  split; [exact RebuildExample.cached_shape|].
  intros r c Hrc. unfold cached. rewrite initialize_lower by exact Hrc. apply mget_zeros.
Qed.

Lemma run_MC_forgets_cache_witness : run_MC fresh 2 g0 = run_MC cached 2 g0.
Proof.
  apply (run_MC_forgets_cache cached fresh 2 g0); try reflexivity.
  - exact cached_wf.
  - apply solver_wf_new.
Defined.

End FreshRunsExample.

(** ** The trap and the wavefunction, in the reals *)

Section ExactPotential.
Import Exact.
Implicit Types (self : VMCSolver R) (X : mat R).
Open Scope R_scope.

Lemma dot_three (x y z : R) : dot [x; y; z] [x; y; z] = x * x + y * y + z * z.
Proof. unfold dot. simpl. ring. Qed.

Lemma col_three X n i :
  has_shape 3 n X -> (i < n)%nat ->
  col X i = [mget X 0 i; mget X 1 i; mget X 2 i].
Proof.
  intros Hs Hi. pose proof (length_col 3 n X i Hs Hi) as Hlen.
  unfold mget, vget. destruct (col X i) as [|x [|y [|z [|w l]]]]; try discriminate.
  reflexivity.
Qed.

(** X15.  The two branches of [V_ext] agree where they should, in exact
    arithmetic: the elliptical trap is read in three dimensions only, and
    with [omega_z = omega_ho] it is the symmetric trap. *)
Theorem V_ext_isotropic self self' X :
  n_of self' = n_of self ->
  config.omega_ho (_config self') = config.omega_ho (_config self) ->
  config.dims (_config self') = config.dims (_config self) ->
  config.ho_type (_config self') = SYMMETRIC ->
  (config.dims (_config self) <> DIM_3
   \/ (config.omega_z (_config self) = config.omega_ho (_config self)
       /\ has_shape 3 (n_of self) X)) ->
  V_ext self X = V_ext self' X.
Proof.
  intros Hn Hw Hd Hsym Hcase. unfold V_ext. cbv zeta.
  rewrite Hn, Hw, Hd, Hsym. f_equal.
  apply (for_range_rel eq); [reflexivity|].
  intros i pot pot' Hi ->.
  destruct (config.ho_type (_config self)); [reflexivity|].
  destruct (config.dims (_config self)) eqn:Hdims; try reflexivity.
  destruct Hcase as [Hne|[Hz Hs]]; [congruence|].
  rewrite Hz, (col_three X (n_of self) i Hs) by lia.
  change (@arma_dot R _) with dot. rewrite dot_three.
  change (@dadd R _) with Rplus. change (@dmul R _) with Rmult. ring.
Qed.

Lemma dot_self_nonneg (v : list R) : 0 <= dot v v.
Proof.
  unfold dot.
  assert (forall (l : list R) acc, 0 <= acc -> 0 <= fold_left Rplus (zip_with Rmult l l) acc)
    as H.
  { induction l as [|x l IH]; intros acc Hacc; simpl; [exact Hacc|].
    apply IH. nra. }
  apply H. lra.
Qed.

Lemma sum_squares_nonneg self X : 0 <= sum_squares self X.
Proof.
  unfold sum_squares.
  apply (for_range_inv (fun g : R => 0 <= g)).
  - simpl. lra.
  - intros i g _ Hg. change (@arma_dot R _) with dot. change (@dadd R _) with Rplus.
    pose proof (dot_self_nonneg (col X i)). lra.
Qed.

Lemma Psi_g_bounds self X :
  0 < Psi_g self X /\ (0 <= _alpha self -> Psi_g self X <= 1).
Proof.
  change (Psi_g self X) with (exp (- _alpha self * sum_squares self X)).
  split; [apply exp_pos|].
  intros Ha. pose proof (sum_squares_nonneg self X) as Hs.
  rewrite <- exp_0.
  destruct (Req_dec (- _alpha self * sum_squares self X) 0) as [->|Hne]; [lra|].
  left. apply exp_increasing. nra.
Qed.

Lemma Rleb_false (x y : R) : Rleb x y = false <-> y < x.
Proof. unfold Rleb. destruct (Rle_dec x y); split; intros; try discriminate; lra. Qed.

Lemma product_bounds {A : Type} (fac : A -> R) (l : list A) (acc : R) :
  0 < acc <= 1 -> (forall p, In p l -> 0 < fac p <= 1) ->
  0 < fold_left (fun f p => f * fac p) l acc <= 1.
Proof.
  revert acc. induction l as [|p l IH]; intros acc Hacc Hfac; simpl; [exact Hacc|].
  apply IH.
  - pose proof (Hfac p (or_introl eq_refl)). nra.
  - intros q Hq. apply Hfac. right. exact Hq.
Qed.

(** X16.  In exact arithmetic, for a hard-sphere radius that is not
    negative: the trial wavefunction is never negative, it is at most 1 when
    alpha is not negative, and it vanishes exactly when the interaction is
    on and the cache shows an overlap. *)
Theorem Psi_bounds self X :
  0 <= config.a (_config self) ->
  0 <= Psi self X
  /\ (0 <= _alpha self -> Psi self X <= 1)
  /\ (Psi self X = 0 <->
      config.interaction (_config self) = InteractionType.ON /\ overlap self = true).
Proof.
  intros Ha.
  destruct (Psi_g_bounds self X) as [Hg0 Hg1].
  assert ((Psi_f self = 0 /\ config.interaction (_config self) = InteractionType.ON
           /\ overlap self = true)
          \/ (0 < Psi_f self <= 1
              /\ ~ (config.interaction (_config self) = InteractionType.ON
                    /\ overlap self = true))) as Hf.
  { rewrite Psi_f_refines. unfold jastrow_spec.
    destruct (config.interaction (_config self)) eqn:Hint.
    - destruct (overlap self) eqn:Hov.
      + left. repeat split.
      + right. split; [|intros [_ ?]; discriminate].
        change (@dmul R _) with Rmult. change (@d1 R _) with 1.
        apply (product_bounds (fun p => 1 - config.a (_config self)
                                            / mget (dist self) (fst p) (snd p))).
        * lra.
        * intros [i j] Hin. cbn [fst snd].
          assert ((mget (dist self) i j <=? config.a (_config self))%D = false) as Hno.
          { destruct (mget (dist self) i j <=? config.a (_config self))%D eqn:Hle;
              [|reflexivity].
            assert (overlap self = true) as Habs; [|congruence].
            apply overlap_true. exists i, j. split; [apply pairs_in; exact Hin|exact Hle]. }
          apply Rleb_false in Hno.
          assert (0 < mget (dist self) i j) as Hr by lra.
          assert (0 <= config.a (_config self) / mget (dist self) i j < 1) as [H0 H1].
          { split.
            - unfold Rdiv. apply Rmult_le_pos; [exact Ha|].
              left. apply Rinv_0_lt_compat. exact Hr.
            - apply (Rmult_lt_reg_r (mget (dist self) i j)); [exact Hr|].
              unfold Rdiv. rewrite Rmult_assoc, Rinv_l by lra. lra. }
          change (@ddiv R _) with Rdiv. change (@dsub R _) with Rminus. lra.
    - right. split; [|intros [? _]; discriminate]. change (@d1 R _) with 1. lra. }
  unfold Psi. change (@dmul R _) with Rmult.
  destruct Hf as [(Hz & Hint & Hov)|[[Hf0 Hf1] Hno]].
  - rewrite Hz. split; [lra|]. split; [intros _; lra|]. split; [auto|intros _; lra].
  - split; [nra|]. split.
    + intros Hal. specialize (Hg1 Hal). nra.
    + split; [intros Hzero; nra|intros Hyes; tauto].
Qed.

End ExactPotential.

Section Box.
Context `{!MathLib R, !RandomEngine R}.
Implicit Types (c : VMCConfiguration R) (X : mat R).
Open Scope R_scope.

Lemma Rltb_true (x y : R) : Exact.Rltb x y = true <-> x < y.
Proof. unfold Exact.Rltb. destruct (Rlt_dec x y); split; intros; try discriminate; auto; lra. Qed.

Lemma Rleb_true (x y : R) : Exact.Rleb x y = true <-> x <= y.
Proof. unfold Exact.Rleb. destruct (Rle_dec x y); split; intros; try discriminate; auto; lra. Qed.

Lemma centered_half (g : rand_gen_t) : - (1 / 2) <= fst (centered g) < 1 / 2.
Proof.
  destruct (centered_range g) as [Hlo Hhi].
  apply Rleb_true in Hlo. apply Rltb_true in Hhi.
  change (@d_half R _) with (1 / 2) in *. change (@dopp R _) with Ropp in *. lra.
Qed.

Lemma step_half (s x : R) : 0 <= s -> - (1 / 2) <= x < 1 / 2 -> Rabs (s * x) <= s / 2.
Proof. intros Hs Hx. apply Rabs_le. nra. Qed.

(** X17.  In exact arithmetic, for a step length that is not negative:
    every coordinate of the starting point lies within half a step length
    of the origin, and a proposal displaces its particle by at most half a
    step length in each coordinate. *)
Theorem moves_stay_in_box c :
  0 <= config.step_length c ->
  (forall (g : rand_gen_t) d i,
     Rabs (mget (fst (fst (random_start c g))) d i) <= config.step_length c / 2)
  /\ (forall i (Ro Rn : mat R) (g : rand_gen_t) d,
        has_shape (dims_int (config.dims c)) (config.n_particles c) Rn ->
        (i < config.n_particles c)%nat -> (d < dims_int (config.dims c))%nat ->
        Rabs (mget (fst (propose c i Ro Rn g)) d i - mget Ro d i)
        <= config.step_length c / 2).
Proof.
  intros Hs. split.
  - intros g d i. unfold random_start.
    apply (for_range_inv (fun st : mat R * mat R * rand_gen_t =>
             forall d i, Rabs (mget (fst (fst st)) d i) <= config.step_length c / 2)).
    + intros d' i'. cbn [fst]. rewrite mget_zeros. change (@d0 R _) with 0.
      rewrite Rabs_R0. lra.
    + intros k st _ Hst.
      apply (for_range_inv (fun st : mat R * mat R * rand_gen_t =>
             forall d i, Rabs (mget (fst (fst st)) d i) <= config.step_length c / 2)).
      * exact Hst.
      * intros d' [[Ro Rn] g'] _ Hin. cbn [fst] in Hin.
        pose proof (centered_half g') as Hx.
        destruct (centered g') as [x g'']. cbn [fst] in *.
        intros r j. rewrite mget_mset.
        destruct (decide _); [|apply Hin].
        change (@dmul R _) with Rmult. apply step_half; assumption.
  - intros i Ro Rn g d Hshape Hi Hd. unfold propose.
    cut (let st := for_range 0 (dims_int (config.dims c))
           (fun d '(R_new, g) =>
              let '(x, g0) := centered g in
              (mset R_new d i (mget Ro d i + config.step_length c * x)%D, g0)) (Rn, g) in
         has_shape (dims_int (config.dims c)) (config.n_particles c) (fst st)
         /\ forall r, (r < dims_int (config.dims c))%nat ->
              Rabs (mget (fst st) r i - mget Ro r i) <= config.step_length c / 2).
    { cbv zeta. intros [_ H]. apply H. exact Hd. }
    cbv zeta.
    refine (for_range_ind (fun k (st : mat R * rand_gen_t) =>
      has_shape (dims_int (config.dims c)) (config.n_particles c) (fst st)
      /\ forall r, (r < k)%nat ->
           Rabs (mget (fst st) r i - mget Ro r i) <= config.step_length c / 2)
      _ _ _ _ (Nat.le_0_l _) _ _).
    + split; [exact Hshape|]. intros r Hr. lia.
    + intros k [R' g'] Hk [Hs' Hin]. cbn [fst] in *.
      pose proof (centered_half g') as Hx.
      destruct (centered g') as [x g'']. cbn [fst] in *.
      split; [apply has_shape_mset; exact Hs'|].
      intros r Hr. rewrite mget_mset.
      rewrite (length_col _ _ _ _ Hs' Hi).
      destruct (decide (i = i /\ k = r /\ (k < dims_int (config.dims c))%nat))
        as [(_ & <- & _)|Hno].
      * change (@dadd R _) with Rplus. change (@dmul R _) with Rmult.
        replace (mget Ro k i + config.step_length c * x - mget Ro k i)
          with (config.step_length c * x) by ring.
        apply step_half; assumption.
      * apply Hin. lia.
Qed.

End Box.

Module ExactExample.
Import Ground.
Open Scope R_scope.

Lemma positions_shape : has_shape 3 2 positions.
Proof. split; [reflexivity|]. repeat constructor. Qed.

Lemma V_ext_isotropic_witness : V_ext (squeezed 1) positions = V_ext solver positions.
Proof.
  apply (V_ext_isotropic (squeezed 1) solver positions); try reflexivity.
  right. split; [reflexivity|exact positions_shape].
Defined.

Lemma Psi_bounds_witness : 0 <= Psi solver positions <= 1.
Proof.
  destruct (Psi_bounds solver positions) as (H0 & H1 & _).
  - simpl. lra.
  - split; [exact H0|]. apply H1. simpl. lra.
Defined.

Lemma moves_stay_in_box_witness :
  Rabs (mget (fst (fst (random_start cfg g0))) 0 1) <= 1 / 2.
Proof.
  destruct (moves_stay_in_box cfg) as [H _].
  - simpl. lra.
  - exact (H g0 0%nat 1%nat).
Defined.

End ExactExample.

(** ** The driver *)

(** Two folds over the same list keep a relation that their steps keep. *)
Lemma fold_left_rel {A S T : Type} (Rel : S -> T -> Prop) (f : S -> A -> S)
    (g : T -> A -> T) (l : list A) (s : S) (t : T) :
  Rel s t -> (forall s' t' x, Rel s' t' -> Rel (f s' x) (g t' x)) ->
  Rel (fold_left f l s) (fold_left g l t).
Proof.
  intros Hst Hstep. revert s t Hst.
  induction l as [|x l IH]; intros s t Hst; simpl; [exact Hst|].
  apply IH, Hstep, Hst.
Qed.

(** A fold over the list of a nested loop is the nested fold. *)
Lemma fold_left_bind {A B T : Type} (g : T -> B -> T) (h : A -> list B) (l : list A) (t : T) :
  fold_left g (l ≫= h) t = fold_left (fun t' x => fold_left g (h x) t') l t.
Proof.
  revert t. induction l as [|x l IH]; intros t; [reflexivity|].
  change ((x :: l) ≫= h) with (h x ++ (l ≫= h)).
  rewrite fold_left_app, IH. reflexivity.
Qed.

Section DriverFacts.
Import driver.
Context {W : Type}.
Variable atoi : string -> Z.
Variable atof : string -> float.
Variable is_open : string -> bool.
Variable VMCImportanceSolver_vmc :
  VMCConfiguration float -> Z -> list (out_item float) -> float -> float -> float -> W ->
  Results float * list (out_item float) * W.
Variable milliseconds : W -> W -> Z.

(** The assignments in the loops keep the fields assigned before them. *)
Lemma set_base_kept (c : VMCConfiguration float) :
  c = set_base c ->
  (forall dims, set_dims c dims = set_base (set_dims c dims))
  /\ (forall n, set_n_particles c n = set_base (set_n_particles c n))
  /\ (forall analytic, set_acceleration c analytic = set_base (set_acceleration c analytic))
  /\ (forall dt, set_time_step c dt = set_base (set_time_step c dt))
  /\ (forall dt, set_time_step c dt
                 = configuration (config.dims c, config.n_particles c,
                                  config.acceleration c, dt)).
Proof.
  intros Hc. rewrite Hc. repeat split; reflexivity.
Qed.

(** The four loops of [main] are one loop over [configurations]. *)
Lemma main_loops (n_cycles : Z) (alpha_min alpha_max alpha_n : float)
    (s : MainState) :
  config s = set_base (config s) ->
  let step := fun (st : list (out_item float) * list printed * W) p =>
    let '(out, std, w0) := st in
    let '(result, out', w1) :=
      VMCImportanceSolver_vmc (configuration p) n_cycles out
        alpha_min alpha_max alpha_n w0 in
    (out', std ++ [PrintfRow (Z.of_nat (dims_int (fst (fst (fst p)))))
                             (Z.of_nat (snd (fst (fst p))))
                             (match snd (fst p) with
                              | AnalyticAcceleration.ON => "ON"
                              | AnalyticAcceleration.OFF => "OFF"
                              end) (snd p);
                   CoutResults result;
                   PrintfTime (milliseconds w0 w1); CoutFlush], w1) in
  let s' :=
    fold_left (fun s dims =>
      let s := with_config s (set_dims (config s) dims) in
      fold_left (fun s n_particles =>
        let s := with_config s (set_n_particles (config s) n_particles) in
        fold_left (fun s analytic =>
          let s := with_config s (set_acceleration (config s) analytic) in
          fold_left (fun s dt =>
                       run VMCImportanceSolver_vmc milliseconds
                         n_cycles alpha_min alpha_max alpha_n dt s)
            time_steps s)
          analytic_on_off s)
        particles s)
      dimensions s in
  (out_file s', stdout s', world s')
  = fold_left step configurations (out_file s, stdout s, world s).
Proof.
  intros Hbase. cbv zeta.
  set (step := fun (st : list (out_item float) * list printed * W) p => _).
  set (Rel := fun (s : MainState) (st : list (out_item float) * list printed * W) =>
    config s = set_base (config s)
    /\ (out_file s, stdout s, world s) = st).
  match goal with
  | |- (out_file ?s', stdout ?s', world ?s') = ?t => cut (Rel s' t)
  end.
  { intros [_ H]. exact H. }
  unfold configurations. rewrite fold_left_bind.
  apply (fold_left_rel Rel); [split; [exact Hbase|reflexivity]|].
  intros s1 st1 dims [Hb1 H1]. cbv zeta. rewrite fold_left_bind.
  destruct (set_base_kept _ Hb1) as (Hk1 & _).
  refine (proj1 (fold_left_rel
            (fun s st => Rel s st /\ config.dims (config s) = dims) _ _ _ _ _ _ _)).
  { split; [split|reflexivity]; [apply Hk1|exact H1]. }
  intros s2 st2 n [[Hb2 H2] Hd2]. cbv zeta. rewrite fold_left_bind.
  destruct (set_base_kept _ Hb2) as (_ & Hk2 & _).
  refine (proj1 (fold_left_rel
            (fun s st => (Rel s st /\ config.dims (config s) = dims)
                         /\ config.n_particles (config s) = n) _ _ _ _ _ _ _)).
  { split; [split; [split|]|reflexivity]; [apply Hk2|exact H2|exact Hd2]. }
  intros s3 st3 analytic [[[Hb3 H3] Hd3] Hn3]. cbv zeta. rewrite fold_left_bind.
  destruct (set_base_kept _ Hb3) as (_ & _ & Hk3 & _).
  refine (proj1 (fold_left_rel
            (fun s st => ((Rel s st /\ config.dims (config s) = dims)
                          /\ config.n_particles (config s) = n)
                         /\ config.acceleration (config s) = analytic) _ _ _ _ _ _ _)).
  { split; [split; [split; [split|]|]|reflexivity]; [apply Hk3|exact H3|exact Hd3|exact Hn3]. }
  intros s4 [[out std] w0] dt [[[[Hb4 H4] Hd4] Hn4] Ha4].
  destruct (set_base_kept _ Hb4) as (_ & _ & _ & Hk4 & Hcfg).
  injection H4 as Ho Hs Hw.
  cbn [fold_left mbind mret]. unfold run, step.
  rewrite (Hcfg dt), Hd4, Hn4, Ha4, Ho, Hs, Hw.
  destruct (VMCImportanceSolver_vmc (configuration (dims, n, analytic, dt)) n_cycles out
              alpha_min alpha_max alpha_n w0) as [[result out'] w1].
  cbn [config out_file stdout world configuration config.dims config.n_particles
       config.acceleration fst snd].
  repeat split.
Qed.

(** X18.  [main], called with as many arguments as [argc] says.  It reads
    no element of [argv] that does not exist.  With fewer than five
    arguments it prints the usage line and returns 0, without opening a
    file or running the solver.  With five or more it returns 1 exactly when
    the output file cannot be opened, again without running the solver.
    Otherwise it returns 0 after one run of the solver for each of the 72
    combinations of dimension, particle number, mode and time step, in the
    order of the four loops, all with the arguments of the command line and
    on the same output file; the configuration of a run does not depend on
    what [config] held before the assignments, and its [h2] is 1000000. *)
Theorem main_outcomes (argc : Z) (argv : list string) (config0 : VMCConfiguration float)
    (w : W) :
  length argv = Z.to_nat argc ->
  (exists result, driver.main atoi atof is_open VMCImportanceSolver_vmc milliseconds
    argc argv config0 w = Some result)
  /\ ((argc < 6)%Z -> driver.main atoi atof is_open VMCImportanceSolver_vmc milliseconds
    argc argv config0 w = Some (0%Z, [Printf usage], None, w))
  /\ ((6 <= argc)%Z ->
      exists a1 a2 a3 a4 a5,
        argv !! 1 = Some a1 /\ argv !! 2 = Some a2 /\ argv !! 3 = Some a3
        /\ argv !! 4 = Some a4 /\ argv !! 5 = Some a5
        /\ (is_open a5 = false ->
            driver.main atoi atof is_open VMCImportanceSolver_vmc milliseconds
    argc argv config0 w = Some (1%Z, [PrintfCouldNotOpen a5], None, w))
        /\ (is_open a5 = true ->
            let step := fun (st : list (out_item float) * list printed * W) p =>
              let '(out, std, w0) := st in
              let '(result, out', w1) :=
                VMCImportanceSolver_vmc (configuration p) (atoi a1) out
                  (atof a2) (atof a3) (atof a4) w0 in
              (out', std ++ [PrintfRow (Z.of_nat (dims_int (fst (fst (fst p)))))
                                       (Z.of_nat (snd (fst (fst p))))
                                       (match snd (fst p) with
                                        | AnalyticAcceleration.ON => "ON"
                                        | AnalyticAcceleration.OFF => "OFF"
                                        end) (snd p);
                             CoutResults result;
                             PrintfTime (milliseconds w0 w1); CoutFlush], w1) in
            let final := fold_left step configurations ([], [Printf columns], w) in
            driver.main atoi atof is_open VMCImportanceSolver_vmc milliseconds
    argc argv config0 w
            = Some (0%Z, snd (fst final), Some (fst (fst final)), snd final)
            /\ length configurations = 72)).
Proof.
  intros Hlen. unfold driver.main.
  destruct (argc <? 6)%Z eqn:Hargc.
  - apply Z.ltb_lt in Hargc. split; [eauto|]. split; [reflexivity|]. lia.
  - apply Z.ltb_ge in Hargc.
    destruct argv as [|a0 [|a1 [|a2 [|a3 [|a4 [|a5 rest]]]]]]; simpl in Hlen; try lia.
    cbn [lookup list_lookup mbind option_bind].
    pose proof (main_loops (atoi a1) (atof a2) (atof a3) (atof a4)
                  {| config := set_base config0; out_file := [];
                     stdout := [Printf columns]; world := w |} eq_refl) as Hloops.
    cbv zeta in Hloops. cbn [config out_file stdout world] in Hloops.
    destruct (is_open a5) eqn:Hopen; cbn [negb].
    + split; [eauto|]. split; [lia|]. intros _.
      exists a1, a2, a3, a4, a5. do 5 (split; [reflexivity|]).
      split; [intros Habs; congruence|]. intros _. cbv zeta. rewrite <- Hloops.
      split; reflexivity.
    + split; [eauto|]. split; [lia|]. intros _.
      exists a1, a2, a3, a4, a5. do 5 (split; [reflexivity|]).
      split; [intros _; reflexivity|intros Habs; congruence].
Qed.

End DriverFacts.

Module DriverExample.
Import driver.

Lemma main_outcomes_witness :
  main (W := unit) (fun _ => 10%Z) (fun _ => 1%float) (fun _ => false)
       (fun _ _ out _ _ _ w => (Examples.best0, out, w)) (fun _ _ => 0%Z)
       3 ["./main.x"; "10"; "0.1"] Examples.cfg_plane tt
  = Some (0%Z, [Printf usage], None, tt).
Proof.
  apply (main_outcomes (W := unit) (fun _ => 10%Z) (fun _ => 1%float) (fun _ => false)
           (fun _ _ out _ _ _ w => (Examples.best0, out, w)) (fun _ _ => 0%Z)
           3 ["./main.x"; "10"; "0.1"] Examples.cfg_plane tt); [reflexivity|lia].
Defined.

End DriverExample.

(** ** Counting the moves of a walk *)

Section WalkCount.
Context {D : Type} `{!Double D, !MathLib D, !RandomEngine D}.
Implicit Types (self : VMCSolver D) (s : MCState D).

(** What the start has at count 0 and every move carries from a count to the
    next, the walk has at the count of its moves. *)
Lemma mc_walk_count (inv : nat -> MCState D -> Prop) self n_cycles (g : rand_gen_t) :
  inv 0 (mc_start self g) ->
  (forall k i (P : D) s, inv k s -> inv (k + 1) (snd (metropolis_move i (P, s)))) ->
  inv (Z.to_nat n_cycles * n_of self) (mc_walk n_cycles (mc_start self g)).
Proof.
  intros Hstart Hmove. unfold mc_walk.
  set (N := Z.to_nat n_cycles).
  cut (n_of (solver (for_range 1 (N + 1) (fun _ s => mc_cycle s) (mc_start self g)))
       = n_of self
       /\ inv ((N + 1 - 1) * n_of self)
            (for_range 1 (N + 1) (fun _ s => mc_cycle s) (mc_start self g))).
  { replace (N + 1 - 1) with N by lia. intros [_ H]. exact H. }
  refine (for_range_ind (fun j s => n_of (solver s) = n_of self
                                     /\ inv ((j - 1) * n_of self) s)
            1 (N + 1) _ _ ltac:(lia) _ _).
  - split; [|exact Hstart].
    unfold mc_start. destruct (random_start (_config self) g) as [[Ro Rn] g']. reflexivity.
  - intros j s Hj [Hn Hs]. unfold mc_cycle. rewrite Hn.
    replace (j + 1 - 1) with (j - 1 + 1) by lia.
    rewrite Nat.mul_add_distr_r, Nat.mul_1_l.
    refine (for_range_ind
              (fun i (st : D * MCState D) =>
                 n_of (solver (snd st)) = n_of self
                 /\ inv ((j - 1) * n_of self + i) (snd st))
              0 (n_of self) _ _ (Nat.le_0_l _) _ _).
    + cbn [snd]. rewrite Nat.add_0_r. split; assumption.
    + intros i [P t] _ [Hn' Ht]. cbn [snd] in *. split.
      * unfold n_of. rewrite (proj1 (metropolis_move_frame i P t)). exact Hn'.
      * rewrite Nat.add_assoc. apply Hmove. exact Ht.
Qed.

End WalkCount.

Section ExactStatistics.
Context `{!MathLib R, !RandomEngine R}.
Implicit Types (self : VMCSolver R) (s : MCState R).
Open Scope R_scope.

Lemma square_sum_step (k S1 S2 e : R) :
  0 <= k -> 0 <= S2 -> S1 * S1 <= k * S2 ->
  (S1 + e) * (S1 + e) <= (k + 1) * (S2 + e * e).
Proof.
  intros Hk HS2 H.
  assert (2 * e * S1 <= k * (e * e) + S2) as Hmid.
  { destruct (Req_dec k 0) as [->|Hne].
    - assert (S1 = 0) as ->.
      { apply Rsqr_0_uniq. pose proof (Rle_0_sqr S1) as Hq. unfold Rsqr in *. lra. }
      lra.
    - assert (0 < k) as Hpos by lra.
      apply (Rmult_le_reg_l k); [exact Hpos|].
      pose proof (Rle_0_sqr (k * e - S1)) as Hsq. unfold Rsqr in Hsq. nra. }
  nra.
Qed.


(** X20.  The Metropolis rule, in exact arithmetic: a move to a
    configuration whose wavefunction is at least as large in absolute value
    as a nonzero [Psi_old] is accepted whatever the draw. *)
Theorem uphill_always_accepted i (Psi_old : R) s :
  let c := _config (solver s) in
  let trial := fst (propose c i (R_old s) (R_new s) (rand_gen s)) in
  let self1 := update_distance_matrix (solver s) i trial in
  let Psi_new := Psi self1 trial in
  let result := metropolis_move i (Psi_old, s) in
  Psi_old <> 0 -> Psi_old * Psi_old <= Psi_new * Psi_new ->
  accepted_moves (snd result) = (accepted_moves s + 1)%Z
  /\ fst result = Psi_new
  /\ R_old (snd result) = copy_particle c i trial (R_old s).
Proof.
  cbv zeta. intros Hne Hup.
  rewrite metropolis_move_unfold. cbv zeta. cbn [fst snd accepted_moves R_old].
  match goal with
  | |- context [(?u <=? ?ratio)%D] => assert ((u <=? ratio)%D = true) as ->
  end; [|repeat split].
  match goal with |- context [unif ?g1] => destruct (unif_range g1) as [_ Hu] end.
  apply Rltb_true in Hu. change (@d1 R _) with 1 in Hu.
  apply Rleb_true. unfold acceptance_ratio.
  change (@ddiv R _) with Rdiv. change (@dmul R _) with Rmult.
  assert (0 < Psi_old * Psi_old) as Hpos by nra.
  apply Rle_trans with 1; [lra|].
  apply (Rmult_le_reg_r (Psi_old * Psi_old)); [exact Hpos|].
  unfold Rdiv. rewrite Rmult_assoc, Rinv_l by lra. lra.
Qed.

End ExactStatistics.

Module StatisticsExample.
Import Ground.
Open Scope R_scope.

Lemma uphill_always_accepted_witness :
  accepted_moves (snd (metropolis_move 0 (1 / 2, mc_start solver g0))) = 1%Z.
Proof.
  apply (uphill_always_accepted 0 (1 / 2) (mc_start solver g0)); [lra|].
  cbn -[exp Rplus Rmult Rminus Rdiv Ropp IZR Rle].
  match goal with
  | |- _ <= exp ?x * _ * _ => pose proof (exp_ineq1_le x) as Hexp
  end.
  nra.
Defined.


End StatisticsExample.

(** ** Runs without a move *)

Section NoMoves.
Context {D : Type} `{!Double D, !MathLib D, !RandomEngine D}.
Implicit Types (self : VMCSolver D) (s : MCState D).

(** Without cycles, or without particles, the walk stays where it starts. *)
Lemma mc_walk_no_moves self n_cycles (g : rand_gen_t) :
  (n_cycles <= 0)%Z \/ n_of self = 0 ->
  mc_walk n_cycles (mc_start self g) = mc_start self g.
Proof.
  intros [Hc|Hn]; unfold mc_walk.
  - apply for_range_empty. lia.
  - apply (for_range_inv (fun s => s = mc_start self g)); [reflexivity|].
    intros _ s _ ->. unfold mc_cycle.
    assert (n_of (solver (mc_start self g)) = 0) as ->.
    { unfold mc_start. destruct (random_start (_config self) g) as [[Ro Rn] g'].
      exact Hn. }
    reflexivity.
Qed.

End NoMoves.

Section NoMovesBinary64.
Context `{!MathLib float, !RandomEngine float}.
Implicit Types (self : VMCSolver float).

Lemma nan_not_below (x y : float) : PrimFloat.is_nan x = true -> (x <? y)%float = false.
Proof.
  intros Hx. rewrite FloatAxioms.ltb_spec.
  destruct (SFltb (Prim2SF x) (Prim2SF y)) eqn:Hlt; [|reflexivity].
  apply Binary64Order.SFltb_key in Hlt. destruct Hlt as (Hn & _).
  apply Binary64Order.is_nan_false in Hn. congruence.
Qed.

Lemma run_MC_no_moves self n_cycles (g : @rand_gen_t float _ _) :
  n_cycles = 0%Z \/ n_of self = 0 ->
  let r := fst (fst (run_MC self n_cycles g)) in
  PrimFloat.is_nan (res.E r) = true /\ PrimFloat.is_nan (res.E2 r) = true
  /\ PrimFloat.is_nan (res.variance r) = true
  /\ PrimFloat.is_nan (res.acceptance_rate r) = true
  /\ snd (run_MC self n_cycles g) = snd (random_start (_config self) g).
Proof.
  intros Hcase. cbv zeta. unfold run_MC. cbn [fst snd].
  rewrite mc_walk_no_moves by (destruct Hcase as [-> | Hn]; [left; lia|right; exact Hn]).
  unfold mc_results, mc_start.
  destruct (random_start (_config self) g) as [[Ro Rn] g'].
  cbn [solver E_sum E2_sum accepted_moves rand_gen res.E res.E2 res.variance
       res.acceptance_rate snd].
  change (n_of (initialize_distance_matrix self Ro)) with (n_of self).
  assert ((n_cycles * Z.of_nat (n_of self))%Z = 0%Z) as ->
    by (destruct Hcase as [-> | ->]; lia).
  repeat split; vm_compute; reflexivity.
Qed.

(** X21.  A run without a move, in binary64: with zero cycles, or with no
    particle, [run_MC] draws the starting point and nothing else, and the
    energy, the squared energy, the variance and the acceptance rate it
    reports are all 0 / 0, NaN; and a sweep of such runs returns the record
    it never initialised, with variance DBL_MAX. *)
Theorem no_moves_no_numbers self (n_cycles : Z) (out0 : list (out_item float))
    (alpha_min alpha_max alpha_n beta_min beta_max beta_n : float)
    (best0 : Results float) (g : @rand_gen_t float _ _) :
  n_cycles = 0%Z \/ n_of self = 0 ->
  (let r := fst (fst (run_MC self n_cycles g)) in
   PrimFloat.is_nan (res.E r) = true /\ PrimFloat.is_nan (res.E2 r) = true
   /\ PrimFloat.is_nan (res.variance r) = true
   /\ PrimFloat.is_nan (res.acceptance_rate r) = true
   /\ snd (run_MC self n_cycles g) = snd (random_start (_config self) g))
  /\ best (vmc self n_cycles out0 alpha_min alpha_max alpha_n
             beta_min beta_max beta_n best0 g)
     = set_variance best0 Binary64.DBL_MAX.
Proof.
  intros Hcase. split; [apply run_MC_no_moves; exact Hcase|].
  destruct (vmc_runs self n_cycles out0 alpha_min alpha_max alpha_n
              beta_min beta_max beta_n best0 g) as (_ & Hb & _).
  cbv zeta in Hb. rewrite Hb. clear Hb. apply pick_best_fold_keeps.
  generalize (grid (arma_linspace alpha_min alpha_max alpha_n)
                   (arma_linspace beta_min beta_max beta_n)).
  intros points. revert self g Hcase.
  induction points as [|[a b] points IH]; intros self g Hcase; cbn [sweep_runs fst snd].
  - constructor.
  - pose proof (run_MC_no_moves (set_beta (set_alpha self a) b) n_cycles g Hcase) as Hrun.
    cbv zeta in Hrun. destruct Hrun as (_ & _ & Hvar & _).
    pose proof (run_MC_frame (set_beta (set_alpha self a) b) n_cycles g) as (Hc & _).
    destruct (run_MC (set_beta (set_alpha self a) b) n_cycles g) as [[r self1] g1].
    cbn [fst snd] in *.
    specialize (IH self1 g1).
    destruct (sweep_runs n_cycles points self1 g1) as [[rs self2] g2].
    cbn [fst snd] in *. constructor.
    + apply nan_not_below. exact Hvar.
    + apply IH. destruct Hcase as [Hz|Hn]; [left; exact Hz|right].
      unfold n_of in *. rewrite Hc. exact Hn.
Qed.

End NoMovesBinary64.

Module NoMovesExample.
Import Binary64 Examples.

Lemma no_moves_no_numbers_witness :
  PrimFloat.is_nan (res.variance (fst (fst (run_MC fresh 0 g0)))) = true
  /\ best (vmc fresh 0 [] 0.25%float 0.75%float 3%float 1%float 1%float 1%float best0 g0)
     = set_variance best0 DBL_MAX.
Proof.
  destruct (no_moves_no_numbers fresh 0 [] 0.25%float 0.75%float 3%float
              1%float 1%float 1%float best0 g0) as [(_ & _ & Hv & _) Hb].
  - left. reflexivity.
  - split; [exact Hv|exact Hb].
Defined.

End NoMovesExample.

(** ** Exchange of particles, in the reals *)

(** A loop over the columns of a matrix is a fold over the list of its
    columns. *)
Lemma for_range_cols {D T : Type} `{!Double D} (F : list D -> T -> T) (R : mat D) (a : T) :
  for_range 0 (length R) (fun i acc => F (col R i) acc) a
  = fold_left (fun acc c => F c acc) R a.
Proof.
  unfold for_range. rewrite Nat.sub_0_r.
  assert (forall (pre l : list (list D)) acc,
            fold_left (fun acc i => F (col (pre ++ l) i) acc) (seq (length pre) (length l)) acc
            = fold_left (fun acc c => F c acc) l acc) as H.
  { intros pre l. revert pre. induction l as [|x l IH]; intros pre acc; [reflexivity|].
    cbn [length seq fold_left].
    assert (col (pre ++ x :: l) (length pre) = x) as ->.
    { unfold col. rewrite lookup_app_r by lia. rewrite Nat.sub_diag. reflexivity. }
    replace (pre ++ x :: l) with ((pre ++ [x]) ++ l) by (rewrite <- app_assoc; reflexivity).
    replace (S (length pre)) with (length (pre ++ [x])) by (rewrite length_app; simpl; lia).
    apply IH. }
  exact (H [] R a).
Qed.

(** A fold of steps that commute does not depend on the order of the list. *)
Lemma fold_left_perm {A T : Type} (f : T -> A -> T) (l l' : list A) :
  (forall a x y, f (f a x) y = f (f a y) x) ->
  Permutation l l' -> forall a, fold_left f l a = fold_left f l' a.
Proof.
  intros Hcomm Hperm. induction Hperm as [|x l l' _ IH|x y l|l l' l'' _ IH1 _ IH2]; intros a.
  - reflexivity.
  - simpl. apply IH.
  - simpl. rewrite Hcomm. reflexivity.
  - rewrite IH1. apply IH2.
Qed.

Lemma existsb_perm {A : Type} (f : A -> bool) (l l' : list A) :
  Permutation l l' -> existsb f l = existsb f l'.
Proof.
  intros Hperm. induction Hperm as [|x l l' _ IH|x y l|l l' l'' _ IH1 _ IH2]; simpl.
  - reflexivity.
  - rewrite IH. reflexivity.
  - destruct (f x), (f y); reflexivity.
  - congruence.
Qed.

(** The values of a symmetric function on the pairs of a list do not depend
    on the order of the list, as a multiset. *)
Lemma all_pairs_perm {A B : Type} (d : A * A -> B) (l l' : list A) :
  (forall x y, d (x, y) = d (y, x)) ->
  Permutation l l' -> Permutation (map d (all_pairs l)) (map d (all_pairs l')).
Proof.
  intros Hsym Hperm.
  induction Hperm as [|x l l' Hp IH|x y l|l l' l'' _ IH1 _ IH2].
  - constructor.
  - cbn [all_pairs]. rewrite !map_app, !map_map.
    apply Permutation_app; [|exact IH].
    apply Permutation_map. exact Hp.
  - cbn [all_pairs map app]. rewrite !map_app.
    rewrite (Hsym y x). constructor.
    rewrite !app_assoc. apply Permutation_app; [|reflexivity].
    apply Permutation_app_comm.
  - etransitivity; eassumption.
Qed.

(** The index pairs of the two nested loops, mapped to the columns. *)
Lemma pairs_cols {D : Type} `{!Double D} (R : mat D) :
  map (fun p => (col R (fst p), col R (snd p))) (pairs (length R)) = all_pairs R.
Proof.
  unfold pairs.
  assert (forall (pre l : list (list D)),
            map (fun p => (col (pre ++ l) (fst p), col (pre ++ l) (snd p)))
              (flat_map (fun i => map (pair i)
                                    (seq (i + 1) (length (pre ++ l) - (i + 1))))
                 (seq (length pre) (length l)))
            = all_pairs l) as H.
  { intros pre l. revert pre. induction l as [|x l IH]; intros pre; [reflexivity|].
    cbn [length seq flat_map all_pairs]. rewrite map_app, map_map. cbn [fst snd].
    f_equal.
    - assert (col (pre ++ x :: l) (length pre) = x) as ->.
      { unfold col. rewrite lookup_app_r by lia. rewrite Nat.sub_diag. reflexivity. }
      rewrite length_app. cbn [length].
      replace (length pre + S (length l) - (length pre + 1)) with (length l) by lia.
      replace (length pre + 1) with (length (pre ++ [x])) by (rewrite length_app; simpl; lia).
      replace (pre ++ x :: l) with ((pre ++ [x]) ++ l) by (rewrite <- app_assoc; reflexivity).
      generalize (pre ++ [x]). clear. intros pre.
      revert pre. induction l as [|y l IH]; intros pre; [reflexivity|].
      cbn [length seq map]. f_equal.
      + f_equal. unfold col. rewrite lookup_app_r by lia. rewrite Nat.sub_diag. reflexivity.
      + replace (pre ++ y :: l) with ((pre ++ [y]) ++ l) by (rewrite <- app_assoc; reflexivity).
        replace (S (length pre)) with (length (pre ++ [y]))
          by (rewrite length_app; simpl; lia).
        apply IH.
    - replace (pre ++ x :: l) with ((pre ++ [x]) ++ l) by (rewrite <- app_assoc; reflexivity).
      replace (S (length pre)) with (length (pre ++ [x])) by (rewrite length_app; simpl; lia).
      apply IH. }
  exact (H [] R).
Qed.

Lemma existsb_fmap {A B : Type} (f : B -> bool) (g : A -> B) (l : list A) :
  existsb f (map g l) = existsb (fun x => f (g x)) l.
Proof. induction l as [|x l IH]; simpl; [reflexivity|]. rewrite IH. reflexivity. Qed.

Lemma fold_left_fmap {A B T : Type} (f : T -> B -> T) (g : A -> B) (l : list A) (a : T) :
  fold_left f (map g l) a = fold_left (fun acc x => f acc (g x)) l a.
Proof. revert a. induction l as [|x l IH]; intros a; simpl; [reflexivity|]. apply IH. Qed.

Section ExchangeSymmetry.
Import Exact.
Implicit Types (self : VMCSolver R) (X : mat R).
Open Scope R_scope.

(** The distance of two particles, as a function of their columns. *)
Lemma norm_vsub_sym (u v : list R) : norm (vsub u v) = norm (vsub v u).
Proof.
  unfold norm, dot, vsub. change (@dsub R _) with Rminus. f_equal. generalize 0.
  revert v. induction u as [|x u IH]; intros [|y v] acc; try reflexivity.
  cbn [zip_with fold_left].
  replace (acc + (x - y) * (x - y)) with (acc + (y - x) * (y - x)) by ring.
  apply IH.
Qed.

(** The two-body factor on a freshly built cache, as a function of the list
    of the columns. *)
Lemma Psi_f_initialized self X :
  length X = n_of self ->
  has_shape (n_of self) (n_of self) (dist self) ->
  let L := map (fun p : list R * list R => norm (vsub (fst p) (snd p))) (all_pairs X) in
  Psi_f (initialize_distance_matrix self X)
  = match config.interaction (_config self) with
    | InteractionType.OFF => 1
    | InteractionType.ON =>
        if existsb (fun r => Rleb r (config.a (_config self))) L then 0
        else fold_left (fun f r => f * (1 - config.a (_config self) / r)) L 1
    end.
Proof.
  intros Hlen Hshape L.
  rewrite Psi_f_refines. unfold jastrow_spec, overlap.
  change (_config (initialize_distance_matrix self X)) with (_config self).
  change (n_of (initialize_distance_matrix self X)) with (n_of self).
  destruct (config.interaction (_config self)); [|reflexivity].
  destruct (initialize_spec self X Hshape) as [_ Hget].
  assert (map (fun p => mget (dist (initialize_distance_matrix self X)) (fst p) (snd p))
            (pairs (n_of self)) = L) as HL.
  { unfold L. rewrite <- (pairs_cols X), map_map, Hlen.
    apply map_ext_in. intros [i j] Hin. cbn [fst snd].
    rewrite Hget, decide_True by (apply pairs_in; exact Hin). reflexivity. }
  rewrite <- HL, existsb_fmap, fold_left_fmap. reflexivity.
Qed.

(** X22.  Exchange symmetry, in exact arithmetic: the trial wavefunction on
    a freshly built cache and the external potential do not change when the
    particles (the columns of the position matrix) are permuted. *)
Theorem exchange_symmetry self X X' :
  Permutation X X' -> length X = n_of self ->
  has_shape (n_of self) (n_of self) (dist self) ->
  Psi (initialize_distance_matrix self X') X' = Psi (initialize_distance_matrix self X) X
  /\ V_ext self X' = V_ext self X.
Proof.
  intros Hperm Hlen Hshape.
  assert (length X' = n_of self) as Hlen'
    by (rewrite <- Hlen; symmetry; apply Permutation_length; exact Hperm).
  split.
  - unfold Psi. f_equal.
    + unfold Psi_g.
      change (n_of (initialize_distance_matrix self X')) with (n_of self).
      change (n_of (initialize_distance_matrix self X)) with (n_of self).
      rewrite <- Hlen' at 1. rewrite <- Hlen.
      rewrite (for_range_cols (fun c g => (g + arma_dot c c)%D) X').
      rewrite (for_range_cols (fun c g => (g + arma_dot c c)%D) X).
      f_equal. f_equal. symmetry. apply fold_left_perm; [|exact Hperm].
      intros a x y. change (@dadd R _) with Rplus. ring.
    + rewrite !Psi_f_initialized by assumption. cbv zeta.
      destruct (config.interaction (_config self)); [|reflexivity].
      pose proof (all_pairs_perm
                    (fun p : list R * list R => norm (vsub (fst p) (snd p))) X X'
                    (fun x y => norm_vsub_sym x y) Hperm) as HL.
      rewrite (existsb_perm _ _ _ HL).
      destruct (existsb _ _); [reflexivity|].
      symmetry. apply fold_left_perm; [|exact HL].
      intros a x y. ring.
  - unfold V_ext. cbv zeta. f_equal. unfold mget.
    set (F := fun (c : list R) (pot : R) =>
      match config.ho_type (_config self), config.dims (_config self) with
      | ELLIPTICAL, DIM_3 =>
          (pot + (config.omega_ho (_config self) * (vget c 0 * vget c 0 + vget c 1 * vget c 1)
                  + config.omega_z (_config self) * vget c 2 * vget c 2))%D
      | _, _ => (pot + config.omega_ho (_config self) * arma_dot c c)%D
      end).
    change (for_range 0 (n_of self) (fun i pot => F (col X' i) pot) d0
            = for_range 0 (n_of self) (fun i pot => F (col X i) pot) d0).
    rewrite <- Hlen' at 1. rewrite <- Hlen.
    rewrite !for_range_cols.
    symmetry. apply fold_left_perm; [|exact Hperm].
    intros a x y. unfold F.
    change (@dadd R _) with Rplus. change (@dmul R _) with Rmult.
    destruct (config.ho_type (_config self)), (config.dims (_config self)); ring.
Qed.

End ExchangeSymmetry.

Module ExchangeExample.
Import Ground.
Open Scope R_scope.

Lemma exchange_symmetry_witness :
  Psi (initialize_distance_matrix solver [[0; -1; 1 / 2]; [1; 2; 3]])
      [[0; -1; 1 / 2]; [1; 2; 3]]
  = Psi (initialize_distance_matrix solver positions) positions.
Proof.
  apply (exchange_symmetry solver positions [[0; -1; 1 / 2]; [1; 2; 3]]).
  - apply perm_swap.
  - reflexivity.
  - split; [reflexivity|]. repeat constructor.
Defined.

End ExchangeExample.

(** ** Where the local energy is sampled *)

Section Sampling.
Context {D : Type} `{!Double D, !MathLib D, !RandomEngine D}.
Implicit Types (self : VMCSolver D) (s : MCState D) (c : VMCConfiguration D).

(** X23.  After the decision of a move the local energy is sampled at the
    configuration the walk is in: the configuration moved to when the move
    was accepted, the old one again when it was rejected.  That value is
    added to [E_sum] and its square to [E2_sum], and its computation leaves
    the solver and the positions as they are. *)
Theorem energy_sampled_after_decision c i (Psi_old : D) s :
  reachable c s -> i < config.n_particles c ->
  let s' := snd (metropolis_move i (Psi_old, s)) in
  let E := fst (fst (E_local (solver s') (R_old s'))) in
  E_sum s' = (E_sum s + E)%D
  /\ E2_sum s' = (E2_sum s + E * E)%D
  /\ E_local (solver s') (R_old s') = (E, solver s', R_old s').
Proof.
  intros Hreach Hi. cbv zeta.
  pose proof (reachable_between_moves c s Hreach) as Hbm.
  pose proof (between_moves_step c i Psi_old s Hbm Hi) as Hbm'.
  rewrite (metropolis_move_closed c i Psi_old s Hbm Hi) in *. cbv zeta in *.
  destruct Hbm' as (_ & [Hs' _] & _ & _ & Hcache').
  split; [|split].
  - destruct (_ <=? _)%D; reflexivity.
  - destruct (_ <=? _)%D; reflexivity.
  - apply E_local_restores. right. split; assumption.
Qed.

End Sampling.

Module SamplingExample.
Import Binary64 Examples.

Lemma energy_sampled_after_decision_witness :
  E_sum moved = (E_sum start + fst (fst (E_local (solver moved) (R_old moved))))%D.
Proof.
  destruct (energy_sampled_after_decision cfg_plane 1 (Psi (solver start) (R_old start))
              start WalkExample.start_reachable) as (H & _).
  - change (config.n_particles cfg_plane) with 3. lia.
  - exact H.
Defined.

End SamplingExample.

(** ** The finite-difference local energy in exact arithmetic *)

Section FiniteDifferenceFacts.
Import Exact.
Implicit Types (self : VMCSolver R) (X : mat R).
Open Scope R_scope.

Lemma dot_insert (c : list R) (d : nat) (v : R) :
  (d < length c)%nat ->
  dot (<[d := v]> c) (<[d := v]> c) = dot c c - vget c d * vget c d + v * v.
Proof.
  unfold dot, vget. 
  assert (forall (l : list R) (k : nat) acc, (k < length l)%nat ->
            fold_left Rplus (zip_with Rmult (<[k := v]> l) (<[k := v]> l)) acc
            = fold_left Rplus (zip_with Rmult l l) acc
              - default 0 (l !! k) * default 0 (l !! k) + v * v) as H.
  { assert (forall (l : list R) acc b,
              fold_left Rplus (zip_with Rmult l l) (acc + b)
              = fold_left Rplus (zip_with Rmult l l) acc + b) as Hshift.
    { induction l as [|x l IH]; intros acc b; simpl; [reflexivity|].
      replace (acc + b + x * x) with (acc + x * x + b) by ring. apply IH. }
    induction l as [|x l IH]; intros k acc Hk; simpl in Hk; [lia|].
    destruct k as [|k]; simpl.
    - replace (acc + v * v) with (acc + x * x + (v * v - x * x)) by ring.
      rewrite Hshift. ring.
    - rewrite IH by lia. reflexivity. }
  intros Hd. apply H. exact Hd.
Qed.

Lemma sum_squares_mset self X d i v :
  has_shape (dims_of self) (n_of self) X -> (i < n_of self)%nat -> (d < dims_of self)%nat ->
  sum_squares self (mset X d i v)
  = sum_squares self X - mget X d i * mget X d i + v * v.
Proof.
  intros Hs Hi Hd. unfold sum_squares.
  change (@arma_dot R _) with dot. change (@dadd R _) with Rplus. change (@d0 R _) with 0.
  cut (for_range 0 (n_of self) (fun k g => g + dot (col (mset X d i v) k) (col (mset X d i v) k)) 0
       = for_range 0 (n_of self) (fun k g => g + dot (col X k) (col X k)) 0
         + (if decide (i < n_of self)%nat then - mget X d i * mget X d i + v * v else 0)).
  { rewrite decide_True by exact Hi. intros ->. ring. }
  refine (for_range_rel_ind (fun k g' g =>
            g' = g + (if decide (i < k)%nat then - mget X d i * mget X d i + v * v else 0))
          0 (n_of self) _ _ _ _ (Nat.le_0_l _) _ _).
  - rewrite decide_False by lia. ring.
  - intros k g' g Hk ->. rewrite col_mset.
    destruct (decide (i = k)) as [<-|Hne].
    + rewrite dot_insert by (rewrite (length_col _ _ _ _ Hs Hi); exact Hd).
      rewrite decide_False, decide_True by lia. unfold mget. ring.
    + destruct (decide (i < k)%nat).
      * rewrite decide_True by lia. ring.
      * rewrite decide_False by lia. ring.
Qed.

Lemma Psi_free self X :
  config.interaction (_config self) = InteractionType.OFF ->
  Psi self X = exp (- _alpha self * sum_squares self X).
Proof.
  intros Hint. unfold Psi, Psi_f. rewrite Hint.
  change (Psi_g self X) with (exp (- _alpha self * sum_squares self X)).
  change (@dmul R _) with Rmult. change (@d1 R _) with 1. ring.
Qed.

Lemma Psi_shifted self X d i (t : R) :
  config.interaction (_config self) = InteractionType.OFF ->
  has_shape (dims_of self) (n_of self) X -> (i < n_of self)%nat -> (d < dims_of self)%nat ->
  Psi self (mset X d i (mget X d i + t))
  = Psi self X * exp (- _alpha self * (t * t + 2 * t * mget X d i)).
Proof.
  intros Hint Hs Hi Hd. rewrite !Psi_free by exact Hint.
  rewrite sum_squares_mset by assumption. rewrite <- exp_plus. f_equal. ring.
Qed.

Lemma update_if_interacting_off self i X :
  config.interaction (_config self) = InteractionType.OFF ->
  update_if_interacting self i X = self.
Proof. intros Hint. unfold update_if_interacting. rewrite Hint. reflexivity. Qed.

Lemma E_kinetic_free self X :
  config.interaction (_config self) = InteractionType.OFF ->
  has_shape (dims_of self) (n_of self) X ->
  fst (fst (E_kinetic self X))
  = - (1 / 2) * (Psi self X * sum_second_differences self X) * config.h2 (_config self).
Proof.
  intros Hint Hs.
  unfold E_kinetic, sum_second_differences, coordinate_sum. cbv zeta.
  fold (n_of self). fold (dims_of self).
  set (Ek0 := (d_of_int (-2 * (Z.of_nat (n_of self) * Z.of_nat (dims_of self)))
               * Psi self X)%D).
  assert (Ek0 = - 2 * INR (n_of self) * INR (dims_of self) * Psi self X) as HEk0.
  { unfold Ek0. change (@d_of_int R _) with IZR. change (@dmul R _) with Rmult.
    rewrite mult_IZR, mult_IZR, <- !INR_IZR_INZ. ring. }
  pose proof (for_range_rel_ind
    (fun k (st : R * VMCSolver R * mat R) (acc : R) =>
       snd (fst st) = self /\ snd st = X
       /\ fst (fst st) = Ek0 + Psi self X * (acc + 2 * (INR k * INR (dims_of self))))
    0 (n_of self)
    (fun i st =>
       for_range 0 (dims_of self) (fun d '(Ek, self0, R0) =>
         let temp := mget R0 d i in
         let R1 := mset R0 d i (temp + config.h (_config self))%D in
         let self1 := update_if_interacting self0 i R1 in
         let Ek1 := (Ek + Psi self1 R1)%D in
         let R2 := mset R1 d i (temp - config.h (_config self))%D in
         let self2 := update_if_interacting self1 i R2 in
         let Ek2 := (Ek1 + Psi self2 R2)%D in
         let R3 := mset R2 d i temp in
         let self3 := update_if_interacting self2 i R3 in
         (Ek2, self3, R3)) st)
    (fun i acc =>
       for_range 0 (dims_of self) (fun d acc =>
         acc + second_difference (_alpha self) (config.h (_config self)) (mget X d i)) acc)
    (Ek0, self, X) 0 (Nat.le_0_l _)) as Hloop.
  cbv beta in Hloop.
  destruct Hloop as (Hself & HX & HEk).
  - cbn [fst snd]. repeat split; try reflexivity. simpl. ring.
  - intros i st acc Hi (Hself & HX & HEk).
    match goal with
    | |- _ /\ _ /\ fst (fst ?L) = Ek0 + Psi self X * (?A + _) =>
        cut (snd (fst L) = self /\ snd L = X
             /\ fst (fst L)
                = Ek0 + Psi self X * (A + 2 * (INR i * INR (dims_of self)
                                               + INR (dims_of self))))
    end.
    { intros (H1 & H2 & H3). split; [exact H1|]. split; [exact H2|].
      rewrite H3, plus_INR. simpl. ring. }
    refine (for_range_rel_ind
      (fun d (st' : R * VMCSolver R * mat R) (acc' : R) =>
         snd (fst st') = self /\ snd st' = X
         /\ fst (fst st')
            = Ek0 + Psi self X * (acc' + 2 * (INR i * INR (dims_of self) + INR d)))
      0 (dims_of self) _ _ st acc (Nat.le_0_l _) _ _).
    + split; [exact Hself|]. split; [exact HX|]. rewrite HEk. simpl. ring.
    + intros d [[Ek s'] X'] acc' Hd (Hs' & HX' & HEk'). cbn [fst snd] in *. subst s' X'.
      repeat rewrite (update_if_interacting_off self) by exact Hint.
      rewrite !mset_mset, mset_mget_id.
      split; [reflexivity|]. split; [reflexivity|].
      change (@dadd R _) with Rplus. change (@dsub R _) with Rminus.
      rewrite (Psi_shifted self X d i (config.h (_config self)))
        by (try assumption; lia).
      replace (mget X d i - config.h (_config self))
        with (mget X d i + - config.h (_config self)) by ring.
      rewrite (Psi_shifted self X d i (- config.h (_config self)))
        by (try assumption; lia).
      rewrite HEk', plus_INR. unfold second_difference. simpl.
      replace (- config.h (_config self) * - config.h (_config self)
               + 2 * - config.h (_config self) * mget X d i)
        with (config.h (_config self) * config.h (_config self)
              - 2 * config.h (_config self) * mget X d i) by ring.
      ring.
  - match goal with
    | |- context [for_range 0 (n_of self) ?body (Ek0, self, X)] =>
        destruct (for_range 0 (n_of self) body (Ek0, self, X)) as [[Ek s'] X']
    end.
    cbn [fst snd] in *. subst s' X'. rewrite HEk, HEk0.
    change (@d_half R _) with (1 / 2). change (@dmul R _) with Rmult.
    change (@dopp R _) with Ropp. ring.
Qed.

(** The numeric local energy without interaction, over the external
    potential. *)
Lemma E_local_numeric_free self X :
  config.acceleration (_config self) = AnalyticAcceleration.OFF ->
  config.interaction (_config self) = InteractionType.OFF ->
  has_shape (dims_of self) (n_of self) X ->
  fst (fst (E_local self X))
  = V_ext self X
    - / 2 * config.h2 (_config self) * sum_second_differences self X.
Proof.
  intros Hacc Hint Hs.
  unfold E_local. rewrite Hacc.
  rewrite (E_kinetic_restores self X (or_introl Hint)). cbn [fst].
  rewrite (E_kinetic_free self X Hint Hs).
  unfold V_int. rewrite Hint.
  assert (Psi self X <> 0) as Hne.
  { rewrite Psi_free by exact Hint. pose proof (exp_pos (- _alpha self * sum_squares self X)).
    lra. }
  change (@dadd R _) with Rplus. change (@ddiv R _) with Rdiv. change (@d0 R _) with 0.
  field. exact Hne.
Qed.

Lemma coordinate_sum_ext n dims (F G : R -> R) X :
  (forall x, F x = G x) -> coordinate_sum n dims F X = coordinate_sum n dims G X.
Proof.
  intros Heq. unfold coordinate_sum.
  apply (for_range_rel eq); [reflexivity|]. intros i s t _ ->.
  apply (for_range_rel eq); [reflexivity|]. intros d s' t' _ ->.
  rewrite Heq. reflexivity.
Qed.

Lemma coordinate_sum_zero n dims X : coordinate_sum n dims (fun _ => 0) X = 0.
Proof.
  unfold coordinate_sum.
  apply (for_range_inv (fun acc => acc = 0)); [reflexivity|]. intros i acc _ ->.
  apply (for_range_inv (fun acc => acc = 0)); [reflexivity|]. intros d acc _ ->.
  ring.
Qed.

(** X24.  The numeric local energy without interaction, in exact
    arithmetic: the external potential minus half of [h2] times the sum,
    over all coordinates, of the second difference of the Gaussian over the
    Gaussian; each coordinate enters on its own.  With [alpha = 0] the trial
    function is flat and only the external potential is left. *)
Theorem E_local_numeric_closed_form self X :
  config.acceleration (_config self) = AnalyticAcceleration.OFF ->
  config.interaction (_config self) = InteractionType.OFF ->
  has_shape (dims_of self) (n_of self) X ->
  fst (fst (E_local self X))
  = V_ext self X
    - / 2 * config.h2 (_config self) * sum_second_differences self X
  /\ (_alpha self = 0 -> fst (fst (E_local self X)) = V_ext self X).
Proof.
  intros Hacc Hint Hs.
  pose proof (E_local_numeric_free self X Hacc Hint Hs) as Hform.
  split; [exact Hform|]. intros Hzero. rewrite Hform.
  unfold sum_second_differences. rewrite Hzero.
  rewrite (coordinate_sum_ext _ _ _ (fun _ => 0)).
  - rewrite coordinate_sum_zero. ring.
  - intros x. unfold second_difference. rewrite !Ropp_0, !Rmult_0_l, exp_0. ring.
Qed.

End FiniteDifferenceFacts.

(** ** Taylor bounds *)

Section Taylor.
Open Scope R_scope.

(** A function that starts at zero with a derivative that is not negative
    on [[0, B]] is not negative there. *)
Lemma nonneg_from_zero (f f' : R -> R) (B : R) :
  (forall x, derivable_pt_lim f x (f' x)) -> f 0 = 0 ->
  (forall x, 0 <= x <= B -> 0 <= f' x) ->
  forall x, 0 <= x <= B -> 0 <= f x.
Proof.
  intros Hd H0 Hpos x [Hx HB].
  destruct (Req_dec x 0) as [->|Hne]; [lra|].
  destruct (MVT_cor2 f f' 0 x) as (c & Hc & Hin); [lra|intros; apply Hd|].
  assert (0 <= f' c) by (apply Hpos; lra).
  rewrite H0 in Hc. nra.
Qed.

(** Integrating a bound [M x^k] on the derivative. *)
Lemma integrate_bound (f f' : R -> R) (M B : R) (k : nat) :
  (forall x, derivable_pt_lim f x (f' x)) -> f 0 = 0 ->
  (forall x, 0 <= x <= B -> f' x <= M * x ^ k) ->
  forall x, 0 <= x <= B -> f x <= M * x ^ (S k) / INR (S k).
Proof.
  intros Hd H0 Hle x Hx.
  assert (INR (S k) <> 0) as Hk by (apply not_0_INR; lia).
  cut (0 <= M * x ^ (S k) / INR (S k) - f x); [lra|].
  apply (nonneg_from_zero (fun y => M * y ^ (S k) / INR (S k) - f y)
           (fun y => M * y ^ k - f' y) B); [| |intros y Hy; specialize (Hle y Hy); lra|exact Hx].
  - intros y.
    apply (derivable_pt_lim_minus (fun y => M * y ^ (S k) / INR (S k)) f).
    + replace (M * y ^ k) with (M / INR (S k) * (INR (S k) * y ^ (pred (S k))))
        by (simpl pred; field; exact Hk).
      apply (derivable_pt_lim_ext (fun y => M / INR (S k) * y ^ (S k))).
      { intros z. field. exact Hk. }
      apply (derivable_pt_lim_scal (fun y => y ^ (S k))).
      apply derivable_pt_lim_pow.
    + apply Hd.
  - rewrite H0. simpl. unfold Rdiv. rewrite Rmult_0_l.
    replace (M * (0 * 0 ^ k)) with 0 by ring. lra.
Qed.

Lemma derivable_pt_lim_exp_opp (x : R) :
  derivable_pt_lim (fun y => exp (- y)) x (- exp (- x)).
Proof.
  replace (- exp (- x)) with (exp (- x) * -1) by ring.
  apply (derivable_pt_lim_comp (fun y => - y) exp).
  - replace (-1) with (- 1) by ring. apply (derivable_pt_lim_opp id). apply derivable_pt_lim_id.
  - apply derivable_pt_lim_exp.
Qed.

(** The hyperbolic pair: [p = exp + exp o opp] and [q = exp - exp o opp]. *)
Lemma derivable_pt_lim_p (x : R) :
  derivable_pt_lim (fun y => exp y + exp (- y)) x (exp x - exp (- x)).
Proof.
  replace (exp x - exp (- x)) with (exp x + - exp (- x)) by ring.
  apply (derivable_pt_lim_plus exp (fun y => exp (- y))).
  - apply derivable_pt_lim_exp.
  - apply derivable_pt_lim_exp_opp.
Qed.

Lemma derivable_pt_lim_q (x : R) :
  derivable_pt_lim (fun y => exp y - exp (- y)) x (exp x + exp (- x)).
Proof.
  replace (exp x + exp (- x)) with (exp x - - exp (- x)) by ring.
  apply (derivable_pt_lim_minus exp (fun y => exp (- y))).
  - apply derivable_pt_lim_exp.
  - apply derivable_pt_lim_exp_opp.
Qed.

Lemma exp_le_3_on (x : R) : 0 <= x <= 1 -> exp x + exp (- x) <= 4.
Proof.
  intros [H0 H1].
  assert (exp x <= exp 1).
  { destruct (Req_dec x 1) as [->|Hne]; [lra|]. left. apply exp_increasing. lra. }
  assert (exp (- x) <= 1).
  { rewrite <- exp_0. destruct (Req_dec x 0) as [->|Hne]; [rewrite Ropp_0; lra|].
    left. apply exp_increasing. lra. }
  pose proof exp_le_3. lra.
Qed.

(** The even part of the exponential up to the fourth order, on [[0, 1]]. *)
Lemma cosh_fourth_order (b : R) :
  0 <= b <= 1 -> 0 <= exp b + exp (- b) - 2 - b * b <= b ^ 4 / 6.
Proof.
  intros Hb.
  (* q <= 4 b *)
  assert (forall x, 0 <= x <= 1 -> exp x - exp (- x) <= 4 * x) as Hq.
  { intros x Hx.
    pose proof (integrate_bound (fun y => exp y - exp (- y)) (fun y => exp y + exp (- y))
                  4 1 0 derivable_pt_lim_q) as H.
    simpl in H. specialize (H ltac:(rewrite Ropp_0, exp_0; lra)).
    specialize (H (fun y Hy => ltac:(pose proof (exp_le_3_on y Hy); lra)) x Hx). lra. }
  (* p - 2 between 0 and 2 b^2 *)
  assert (forall x, 0 <= exp x + exp (- x) - 2) as Hc1pos.
  { intros x. pose proof (exp_ineq1_le x). pose proof (exp_ineq1_le (- x)). lra. }
  assert (forall x, derivable_pt_lim (fun y => exp y + exp (- y) - 2) x (exp x - exp (- x)))
    as Hd1.
  { intros x. replace (exp x - exp (- x)) with (exp x - exp (- x) - 0) by ring.
    apply (derivable_pt_lim_minus (fun y => exp y + exp (- y)) (fun _ => 2)).
    - apply derivable_pt_lim_p.
    - apply derivable_pt_lim_const. }
  assert (forall x, 0 <= x <= 1 -> exp x + exp (- x) - 2 <= 2 * (x * x)) as Hc1.
  { intros x Hx.
    pose proof (integrate_bound (fun y => exp y + exp (- y) - 2) (fun y => exp y - exp (- y))
                  4 1 1 Hd1) as H.
    simpl in H. specialize (H ltac:(rewrite Ropp_0, exp_0; lra)).
    specialize (H (fun y Hy => ltac:(pose proof (Hq y Hy); lra)) x Hx). lra. }
  (* q - 2 b between 0 and 2 b^3 / 3 *)
  assert (forall x, derivable_pt_lim (fun y => exp y - exp (- y) - 2 * y) x
                      (exp x + exp (- x) - 2)) as Hd0.
  { intros x. replace (exp x + exp (- x) - 2) with (exp x + exp (- x) - 2 * 1) by ring.
    apply (derivable_pt_lim_minus (fun y => exp y - exp (- y)) (fun y => 2 * y)).
    - apply derivable_pt_lim_q.
    - apply (derivable_pt_lim_scal id). apply derivable_pt_lim_id. }
  assert (forall x, 0 <= x <= 1 -> 0 <= exp x - exp (- x) - 2 * x) as Hc0pos.
  { apply (nonneg_from_zero _ _ 1 Hd0); [rewrite Ropp_0, exp_0; lra|].
    intros x _. apply Hc1pos. }
  assert (forall x, 0 <= x <= 1 -> exp x - exp (- x) - 2 * x <= 2 * (x * (x * x)) / 3) as Hc0.
  { intros x Hx.
    pose proof (integrate_bound _ _ 2 1 2 Hd0) as H.
    simpl in H. specialize (H ltac:(rewrite Ropp_0, exp_0; lra)).
    specialize (H (fun y Hy => ltac:(pose proof (Hc1 y Hy); lra)) x Hx). lra. }
  (* p - 2 - b^2 between 0 and b^4 / 6 *)
  assert (forall x, derivable_pt_lim (fun y => exp y + exp (- y) - 2 - y * y) x
                      (exp x - exp (- x) - 2 * x)) as Hd.
  { intros x.
    apply (derivable_pt_lim_minus (fun y => exp y + exp (- y) - 2) (fun y => y * y)).
    - apply Hd1.
    - replace (2 * x) with (1 * x + x * 1) by ring.
      apply (derivable_pt_lim_mult id id); apply derivable_pt_lim_id. }
  split.
  - apply (nonneg_from_zero _ _ 1 Hd); [rewrite Ropp_0, exp_0; lra|exact Hc0pos|exact Hb].
  - pose proof (integrate_bound _ _ (2 / 3) 1 3 Hd) as H.
    simpl in H. specialize (H ltac:(rewrite Ropp_0, exp_0; lra)).
    specialize (H (fun y Hy => ltac:(pose proof (Hc0 y Hy); lra)) b Hb).
    simpl. lra.
Qed.

(** The exponential up to the second order, on [[-1/2, 1/2]]. *)
Lemma exp_second_order (a : R) :
  - (1 / 2) <= a <= 1 / 2 -> 0 <= exp a - 1 - a <= 2 * (a * a) /\ exp a <= 2.
Proof.
  intros Ha.
  pose proof (exp_ineq1_le a) as Hlow.
  pose proof (exp_ineq1_le (- a)) as Hneg.
  assert (exp a * exp (- a) = 1) as Hinv by (rewrite <- exp_plus, Rplus_opp_r; apply exp_0).
  pose proof (exp_pos a) as Hpos.
  assert (exp a * (1 - a) <= 1) as Hup by nra.
  split; [split; [lra|]|]; nra.
Qed.

End Taylor.

Section Order.
Open Scope R_scope.

(** The second difference in one coordinate against the second derivative,
    for a small step. *)
Lemma second_difference_bound (alpha h x : R) :
  Rabs alpha * (h * h) <= 1 / 2 -> Rabs (2 * alpha * h * x) <= 1 ->
  Rabs (second_difference alpha h x - (4 * (alpha * alpha) * (x * x) - 2 * alpha) * (h * h))
  <= (4 * (Rabs alpha * (alpha * alpha)) * (x * x)
      + 16 / 3 * (alpha * alpha * (alpha * alpha)) * (x * x * (x * x))
      + 6 * (alpha * alpha))
     * (h * h * (h * h)).
Proof.
  intros Ha Hb.
  set (a := - alpha * (h * h)). set (b := 2 * alpha * h * x) in *.
  assert (- (1 / 2) <= a <= 1 / 2) as Ha'.
  { unfold a. pose proof (Rle_abs alpha). pose proof (Rle_abs (- alpha)) as H'.
    rewrite Rabs_Ropp in H'. assert (0 <= h * h) as Hh by nra.
    assert (alpha * (h * h) <= Rabs alpha * (h * h)) by (apply Rmult_le_compat_r; lra).
    assert (- alpha * (h * h) <= Rabs alpha * (h * h)) by (apply Rmult_le_compat_r; lra).
    split; lra. }
  destruct (exp_second_order a Ha') as [[HE0 HE1] Hexp].
  assert (0 <= exp b + exp (- b) - 2 - b * b <= (b * b) * (b * b) / 6) as [Hc0 Hc1].
  { destruct (Rle_dec 0 b) as [Hpos|Hneg].
    - assert (0 <= b <= 1) as Hb' by (rewrite Rabs_pos_eq in Hb; lra).
      pose proof (cosh_fourth_order b Hb') as H. simpl in H.
      replace (b * b * (b * b)) with (b * (b * (b * (b * 1)))) by ring. exact H.
    - assert (0 <= - b <= 1) as Hb'.
      { rewrite <- Rabs_Ropp in Hb. rewrite Rabs_pos_eq in Hb; lra. }
      pose proof (cosh_fourth_order (- b) Hb') as H. simpl in H.
      rewrite Ropp_involutive in H.
      replace (b * b * (b * b)) with (- b * (- b * (- b * (- b * 1)))) by ring.
      replace (b * b) with (- b * - b) by ring. lra. }
  assert (second_difference alpha h x
          = exp a * (exp b + exp (- b)) - 2) as Hsd.
  { unfold second_difference.
    replace (- alpha * (h * h + 2 * h * x)) with (a + - b) by (unfold a, b; ring).
    replace (- alpha * (h * h - 2 * h * x)) with (a + b) by (unfold a, b; ring).
    rewrite !exp_plus. ring. }
  set (c := exp b + exp (- b) - 2 - b * b) in *.
  set (E := exp a - 1 - a) in *.
  assert (second_difference alpha h x - (4 * (alpha * alpha) * (x * x) - 2 * alpha) * (h * h)
          = a * (b * b) + c * exp a + E * (2 + b * b)) as ->.
  { rewrite Hsd. unfold c, E, a, b. ring. }
  assert (b * b <= 1) as Hb2.
  { replace (b * b) with (Rabs b * Rabs b)
      by (unfold Rabs; destruct (Rcase_abs b); ring).
    pose proof (Rabs_pos b). nra. }
  assert (0 <= b * b) as Hb0 by nra.
  assert (Rabs a = Rabs alpha * (h * h)) as Habs.
  { unfold a. rewrite Rabs_mult, Rabs_Ropp. f_equal. apply Rabs_pos_eq. nra. }
  assert (0 < exp a) as Hpos by apply exp_pos.
  assert (Rabs (a * (b * b)) <= 4 * (Rabs alpha * (alpha * alpha)) * (x * x)
                                * (h * h * (h * h))) as H1.
  { rewrite Rabs_mult, Habs, (Rabs_pos_eq (b * b)) by exact Hb0.
    unfold b. right. ring. }
  assert (Rabs (c * exp a) <= 16 / 3 * (alpha * alpha * (alpha * alpha))
                              * (x * x * (x * x)) * (h * h * (h * h))) as H2.
  { rewrite Rabs_pos_eq by nra.
    assert (b * b * (b * b) = 16 * (alpha * alpha * (alpha * alpha)) * (x * x * (x * x))
                              * (h * h * (h * h))) as Hb4 by (unfold b; ring).
    assert (c * exp a <= c * 2) by nra. lra. }
  assert (Rabs (E * (2 + b * b)) <= 6 * (alpha * alpha) * (h * h * (h * h))) as H3.
  { rewrite Rabs_pos_eq by nra.
    assert (a * a = alpha * alpha * (h * h * (h * h))) as Ha2 by (unfold a; ring).
    assert (E * (2 + b * b) <= E * 3) by nra. lra. }
  eapply Rle_trans; [apply Rabs_triang|].
  eapply Rle_trans; [apply Rplus_le_compat; [apply Rabs_triang|exact H3]|].
  lra.
Qed.

End Order.

(** ** Sums over the coordinates *)

Section Sums.
Open Scope R_scope.

Lemma sum_shift (F : nat -> R) (lo hi : nat) (a : R) :
  for_range lo hi (fun k acc => acc + F k) a
  = a + for_range lo hi (fun k acc => acc + F k) 0.
Proof.
  apply (for_range_rel (fun s t => s = a + t)); [ring|].
  intros i s t _ ->. ring.
Qed.

Lemma order_h2_zero : order_h2 (fun _ => 0).
Proof.
  exists 0, 1. split; [lra|]. intros h _. rewrite Rabs_R0. lra.
Qed.

Lemma order_h2_plus (f g : R -> R) :
  order_h2 f -> order_h2 g -> order_h2 (fun h => f h + g h).
Proof.
  intros (C1 & h1 & Hh1 & H1) (C2 & h2 & Hh2 & H2).
  exists (C1 + C2), (Rmin h1 h2). split; [apply Rmin_glb_lt; assumption|].
  intros h [Hpos Hle].
  pose proof (Rmin_l h1 h2). pose proof (Rmin_r h1 h2).
  specialize (H1 h ltac:(lra)). specialize (H2 h ltac:(lra)).
  eapply Rle_trans; [apply Rabs_triang|]. lra.
Qed.

Lemma order_h2_scal (c : R) (f : R -> R) : order_h2 f -> order_h2 (fun h => c * f h).
Proof.
  intros (C & h0 & Hh0 & H). exists (Rabs c * C), h0. split; [exact Hh0|].
  intros h Hh. specialize (H h Hh). rewrite Rabs_mult.
  pose proof (Rabs_pos c). rewrite Rmult_assoc. apply Rmult_le_compat_l; assumption.
Qed.

Lemma order_h2_ext (f g : R -> R) :
  (forall h, h <> 0 -> f h = g h) -> order_h2 f -> order_h2 g.
Proof.
  intros Heq (C & h0 & Hh0 & H). exists C, h0. split; [exact Hh0|].
  intros h Hh. rewrite <- Heq; [apply H; exact Hh|].
  intros ->. rewrite Rabs_R0 in Hh. lra.
Qed.

Lemma order_h2_sum (F : R -> nat -> R) (n : nat) :
  (forall k, order_h2 (fun h => F h k)) ->
  order_h2 (fun h => for_range 0 n (fun k acc => acc + F h k) 0).
Proof.
  intros HF. induction n as [|n IH].
  - apply (order_h2_ext (fun _ => 0)); [|apply order_h2_zero].
    intros h _. reflexivity.
  - apply (order_h2_ext (fun h => for_range 0 n (fun k acc => acc + F h k) 0 + F h n)).
    + intros h _. replace (S n) with (n + 1)%nat by lia.
      rewrite for_range_snoc by lia. reflexivity.
    + apply order_h2_plus; [exact IH|apply HF].
Qed.

End Sums.

Section CoordinateSums.
Import Exact.
Implicit Types (self : VMCSolver R) (X : mat R).
Open Scope R_scope.

Lemma sum_ext (F G : nat -> R) (n : nat) :
  (forall k, (k < n)%nat -> F k = G k) ->
  for_range 0 n (fun k acc => acc + F k) 0 = for_range 0 n (fun k acc => acc + G k) 0.
Proof.
  intros Heq. apply (for_range_rel eq); [reflexivity|].
  intros i s t Hi ->. rewrite Heq by lia. reflexivity.
Qed.

Lemma sum_linear (c : R) (F G : nat -> R) (n : nat) :
  for_range 0 n (fun k acc => acc + (c * F k + G k)) 0
  = c * for_range 0 n (fun k acc => acc + F k) 0
    + for_range 0 n (fun k acc => acc + G k) 0.
Proof.
  induction n as [|n IH].
  - rewrite !for_range_empty by lia. ring.
  - replace (S n) with (n + 1)%nat by lia.
    rewrite !for_range_snoc by lia. rewrite IH. ring.
Qed.

Lemma sum_const (c : R) (n : nat) :
  for_range 0 n (fun _ acc => acc + c) 0 = INR n * c.
Proof.
  induction n as [|n IH].
  - rewrite for_range_empty by lia. simpl. ring.
  - replace (S n) with (n + 1)%nat by lia.
    rewrite for_range_snoc by lia. rewrite IH, plus_INR. simpl. ring.
Qed.

Lemma coordinate_sum_unfold n dims (F : R -> R) X :
  coordinate_sum n dims F X
  = for_range 0 n (fun i acc =>
      acc + for_range 0 dims (fun d acc' => acc' + F (mget X d i)) 0) 0.
Proof.
  unfold coordinate_sum. apply (for_range_rel eq); [reflexivity|].
  intros i s t _ ->. apply sum_shift.
Qed.

Lemma coordinate_sum_linear n dims (c : R) (F G : R -> R) X :
  coordinate_sum n dims (fun x => c * F x + G x) X
  = c * coordinate_sum n dims F X + coordinate_sum n dims G X.
Proof.
  rewrite !coordinate_sum_unfold.
  rewrite <- (sum_linear c
    (fun i => for_range 0 dims (fun d acc' => acc' + F (mget X d i)) 0)
    (fun i => for_range 0 dims (fun d acc' => acc' + G (mget X d i)) 0)).
  apply sum_ext. intros i _.
  apply (sum_linear c (fun d => F (mget X d i)) (fun d => G (mget X d i))).
Qed.

Lemma coordinate_sum_const n dims (c : R) X :
  coordinate_sum n dims (fun _ => c) X = INR n * (INR dims * c).
Proof.
  rewrite coordinate_sum_unfold.
  rewrite <- (sum_const (INR dims * c) n).
  apply sum_ext. intros i _. apply sum_const.
Qed.

Lemma dot_index (c : list R) :
  dot c c = for_range 0 (length c) (fun d acc => acc + vget c d * vget c d) 0.
Proof.
  unfold dot, for_range. rewrite Nat.sub_0_r. generalize 0.
  assert (forall (pre l : list R) acc,
            fold_left Rplus (zip_with Rmult l l) acc
            = fold_left (fun acc d => acc + vget (pre ++ l) d * vget (pre ++ l) d)
                (seq (length pre) (length l)) acc) as H.
  { intros pre l. revert pre. induction l as [|x l IH]; intros pre acc; [reflexivity|].
    cbn [zip_with length seq fold_left].
    assert (vget (pre ++ x :: l) (length pre) = x) as ->.
    { unfold vget. rewrite lookup_app_r by lia. rewrite Nat.sub_diag. reflexivity. }
    replace (pre ++ x :: l) with ((pre ++ [x]) ++ l) by (rewrite <- app_assoc; reflexivity).
    replace (S (length pre)) with (length (pre ++ [x])) by (rewrite length_app; simpl; lia).
    apply IH. }
  intros acc. exact (H [] c acc).
Qed.

Lemma coordinate_sum_squares self X :
  has_shape (dims_of self) (n_of self) X ->
  coordinate_sum (n_of self) (dims_of self) (fun x => x * x) X = sum_squares self X.
Proof.
  intros Hs. rewrite coordinate_sum_unfold. unfold sum_squares.
  change (@dadd R _) with Rplus. change (@arma_dot R _) with dot. change (@d0 R _) with 0.
  apply sum_ext. intros i Hi.
  rewrite dot_index, (length_col _ _ _ _ Hs Hi). reflexivity.
Qed.

Lemma order_h2_coordinate_sum n dims (F : R -> R -> R) X :
  (forall x, order_h2 (fun h => F h x)) ->
  order_h2 (fun h => coordinate_sum n dims (F h) X).
Proof.
  intros HF.
  apply (order_h2_ext (fun h => for_range 0 n (fun i acc =>
           acc + for_range 0 dims (fun d acc' => acc' + F h (mget X d i)) 0) 0)).
  - intros h _. symmetry. apply coordinate_sum_unfold.
  - apply (order_h2_sum (fun h i =>
             for_range 0 dims (fun d acc' => acc' + F h (mget X d i)) 0)).
    intros i. apply (order_h2_sum (fun h d => F h (mget X d i))).
    intros d. apply HF.
Qed.

(** One coordinate: the second difference over [h^2] against the second
    derivative. *)
Lemma order_h2_second_difference (alpha x : R) :
  order_h2 (fun h => second_difference alpha h x / (h * h)
                     - (4 * (alpha * alpha) * (x * x) - 2 * alpha)).
Proof.
  set (B := 4 * (Rabs alpha * (alpha * alpha)) * (x * x)
            + 16 / 3 * (alpha * alpha * (alpha * alpha)) * (x * x * (x * x))
            + 6 * (alpha * alpha)).
  set (m := (Rabs alpha + 1) * (Rabs x + 1)).
  assert (1 <= m) as Hm.
  { unfold m. pose proof (Rabs_pos alpha). pose proof (Rabs_pos x). nra. }
  exists B, (/ (2 * m)). split; [apply Rinv_0_lt_compat; lra|].
  intros h [Hpos Hle].
  assert (Rabs h * (2 * m) <= 1) as Hhm.
  { apply (Rmult_le_reg_r (/ (2 * m))); [apply Rinv_0_lt_compat; lra|].
    rewrite Rmult_assoc, Rinv_r by lra. lra. }
  pose proof (Rabs_pos alpha) as Ha0. pose proof (Rabs_pos x) as Hx0.
  assert (h * h = Rabs h * Rabs h) as Hsq
    by (unfold Rabs; destruct (Rcase_abs h); ring).
  assert (Rabs h <= 1 / 2) as Hhalf by nra.
  assert (0 < h * h) as Hh2 by nra.
  pose proof (second_difference_bound alpha h x) as Hbound.
  assert (Rabs alpha * (h * h) <= 1 / 2) as H1.
  { rewrite Hsq. unfold m in Hhm. nra. }
  assert (Rabs (2 * alpha * h * x) <= 1) as H2.
  { rewrite !Rabs_mult, (Rabs_pos_eq 2) by lra. unfold m in Hhm. nra. }
  specialize (Hbound H1 H2). fold B in Hbound.
  replace (second_difference alpha h x / (h * h)
           - (4 * (alpha * alpha) * (x * x) - 2 * alpha))
    with ((second_difference alpha h x
           - (4 * (alpha * alpha) * (x * x) - 2 * alpha) * (h * h)) / (h * h))
    by (field; intros Hz; rewrite Hz in Hh2; lra).
  unfold Rdiv. rewrite Rabs_mult, (Rabs_pos_eq (/ (h * h)))
    by (left; apply Rinv_0_lt_compat; exact Hh2).
  apply (Rmult_le_reg_r (h * h)); [exact Hh2|].
  rewrite Rmult_assoc, Rinv_l by lra. lra.
Qed.

End CoordinateSums.

(** ** The two local energies *)

Section Agreement.
Import Exact.
Implicit Types (self : VMCSolver R) (X : mat R).
Open Scope R_scope.

Lemma sum_second_differences_eq self X :
  sum_second_differences self X
  = coordinate_sum (n_of self) (dims_of self)
      (second_difference (_alpha self) (config.h (_config self))) X.
Proof. reflexivity. Qed.

(** The analytic local energy without interaction, over the external
    potential. *)
Lemma E_local_analytic_free self X :
  config.acceleration (_config self) = AnalyticAcceleration.ON ->
  config.interaction (_config self) = InteractionType.OFF ->
  (config.dims (_config self) <> DIM_3 \/ _beta self = 1) ->
  fst (fst (E_local self X))
  = V_ext self X
    - (2 * (_alpha self * _alpha self) * sum_squares self X
       - _alpha self * INR (dims_of self) * INR (n_of self)).
Proof.
  intros Hacc Hint Hcase.
  assert (one_body_beta_term self = (- Z.of_nat (dims_of self))%Z) as Hobt.
  { unfold one_body_beta_term, dims_of.
    destruct (config.dims (_config self)) eqn:Hd; simpl.
    - rewrite <- opp_IZR. apply to_int_IZR.
    - rewrite <- opp_IZR. apply to_int_IZR.
    - destruct Hcase as [Hne| ->]; [congruence|].
      replace (- (2 + 1)) with (IZR (-3)) by lra. apply to_int_IZR. }
  assert (forall r : list R,
            match config.dims (_config self) with
            | DIM_3 => skew (_beta self) r
            | _ => r
            end = r) as Hskew.
  { intros r. destruct (config.dims (_config self)) eqn:Hd; try reflexivity.
    destruct Hcase as [Hne| ->]; [congruence|]. apply skew_one. }
  unfold E_local. rewrite Hacc. cbv zeta. cbn [fst].
  unfold V_int. rewrite Hint.
  match goal with
  | |- context [for_range 0 ?n ?body ?z] =>
      assert (for_range 0 n body z
              = 4 * (_alpha self * _alpha self) * sum_squares self X
                - 2 * _alpha self * INR (dims_of self) * INR (n_of self)) as ->
  end.
  { unfold sum_squares. fold (n_of self).
    refine (for_range_rel_ind (fun k E_L g =>
      E_L = 4 * (_alpha self * _alpha self) * g
            - 2 * _alpha self * INR (dims_of self) * INR k)
      0 (n_of self) _ _ _ _ (Nat.le_0_l _) _ _).
    - simpl. ring.
    - intros k E_L g _ ->. rewrite Hskew, Hobt, plus_INR, opp_IZR, <- INR_IZR_INZ.
      simpl. ring. }
  change (@d_half R _) with (1 / 2). simpl. field.
Qed.

(** X25.  Without interaction, and outside the three-dimensional case with
    [beta <> 1], the numeric local energy with the step [h] and
    [h2 = 1 / h^2] differs from the analytic one by [O(h^2)], in exact
    arithmetic, at every configuration. *)
Theorem local_energies_agree self X :
  config.interaction (_config self) = InteractionType.OFF ->
  (config.dims (_config self) <> DIM_3 \/ _beta self = 1) ->
  has_shape (dims_of self) (n_of self) X ->
  order_h2 (fun h => fst (fst (E_local (numeric self h) X))
                     - fst (fst (E_local (analytic self) X))).
Proof.
  intros Hint Hcase Hs.
  set (a := _alpha self).
  apply (order_h2_ext (fun h => - / 2 * coordinate_sum (n_of self) (dims_of self)
           (fun x => second_difference a h x / (h * h)
                     - (4 * (a * a) * (x * x) - 2 * a)) X)).
  - intros h Hh.
    rewrite (E_local_numeric_free (numeric self h) X eq_refl Hint Hs).
    rewrite (E_local_analytic_free (analytic self) X eq_refl Hint Hcase).
    rewrite sum_second_differences_eq.
    change (V_ext (numeric self h) X) with (V_ext self X).
    change (V_ext (analytic self) X) with (V_ext self X).
    change (sum_squares (analytic self) X) with (sum_squares self X).
    change (n_of (numeric self h)) with (n_of self).
    change (dims_of (numeric self h)) with (dims_of self).
    change (n_of (analytic self)) with (n_of self).
    change (dims_of (analytic self)) with (dims_of self).
    change (_alpha (numeric self h)) with a. change (_alpha (analytic self)) with a.
    change (config.h (_config (numeric self h))) with h.
    change (config.h2 (_config (numeric self h))) with (1 / (h * h)).
    rewrite <- (coordinate_sum_squares self X Hs).
    rewrite (coordinate_sum_ext _ _
      (fun x => second_difference a h x / (h * h) - (4 * (a * a) * (x * x) - 2 * a))
      (fun x => / (h * h) * second_difference a h x
                + (- (4 * (a * a)) * (x * x) + 2 * a)))
      by (intros x; unfold Rdiv; ring).
    rewrite (coordinate_sum_linear _ _ (/ (h * h)) (second_difference a h)
               (fun x => - (4 * (a * a)) * (x * x) + 2 * a)).
    rewrite (coordinate_sum_linear _ _ (- (4 * (a * a))) (fun x => x * x)
               (fun _ => 2 * a)).
    rewrite coordinate_sum_const. field. exact Hh.
  - apply order_h2_scal.
    apply (order_h2_coordinate_sum _ _
             (fun h x => second_difference a h x / (h * h)
                         - (4 * (a * a) * (x * x) - 2 * a))).
    intros x. apply order_h2_second_difference.
Qed.

End Agreement.

Module FiniteDifferenceExample.
Import Ground.
Open Scope R_scope.

Lemma positions_in_shape : has_shape (dims_of solver) (n_of solver) positions.
Proof. split; [reflexivity|]. repeat constructor. Qed.

Lemma E_local_numeric_closed_form_witness :
  fst (fst (E_local (numeric solver (1 / 10)) positions))
  = V_ext solver positions
    - / 2 * (1 / (1 / 10 * (1 / 10)))
      * sum_second_differences (numeric solver (1 / 10)) positions.
Proof.
  destruct (E_local_numeric_closed_form (numeric solver (1 / 10)) positions) as [H _].
  - reflexivity.
  - reflexivity.
  - exact positions_in_shape.
  - exact H.
Defined.

Lemma local_energies_agree_witness :
  order_h2 (fun h => fst (fst (E_local (numeric solver h) positions))
                     - fst (fst (E_local (analytic solver) positions))).
Proof.
  apply (local_energies_agree solver positions).
  - reflexivity.
  - right. reflexivity.
  - exact positions_in_shape.
Defined.

End FiniteDifferenceExample.
